(** * Commit-graph construction of the workflow visualizer backend

    A shallow embedding of the backend request handler
    [app.get("/api/graph/:owner/:repo")] and of the two functions it calls,
    [ensureParents] and [buildGraphFromCommits], followed by the properties
    of the graph, the collector and the statistics.  Around the handler it
    also embeds the branch selection in front of the collector, the
    collection loop of the documented copy of the handler, the count
    displays, the branch filter and the layering of the frontend, and the
    checks of [unit-test.js], with their properties in the last part.

    Conventions of the embedding.
    - A JavaScript [Map] keeps its keys in insertion order and [set] on an
      existing key replaces the value in place: it is an association list
      ([JsMap]).  A JavaScript [Set] of strings is a duplicate-free list in
      insertion order ([JsSet]).
    - A plain object used as a dictionary of numbers ([perBranchCounts],
      [stats.branchCounts]) is the [JsMap] of its own properties.  It
      differs from a [Map] at the keys of [Object.prototype]: an assignment
      to the key [__proto__] creates no own property ([obj_set]), and a
      property read finds the inherited properties too ([obj_read]).  The
      order of the own properties is not used.
    - Node objects live in [nodesBySha] and are mutated through it; a field
      update is [map_set] at the node's key.  The arrays held in [branches]
      are never mutated in place (the field is re-assigned), so sharing the
      child's array with a placeholder is not observable.
    - The remote provider is a record of functions; a call that throws is
      [None] for [listCommits] (fatal) and [None] for [getCommit] (caught
      inside [ensureParents]).
    - Absent string fields of a commit record are the empty string: the code
      reads them only through [x || ""], which treats both alike.  An absent
      [parents] array is the empty list for the same reason. *)

From Stdlib Require Import List String ZArith Lia Bool Arith PeanoNat.
Import ListNotations.
Local Open Scope string_scope.
Local Open Scope list_scope.

Set Implicit Arguments.

(** ** JavaScript containers *)

Module Js.

(** [Boolean(s)] for a string. *)
Definition truthy (s : string) : bool := negb (s =? "").

(** [a || b] on strings. *)
Definition or_else (a b : string) : string := if truthy a then a else b.

(** [arr.includes(x)]. *)
Definition includes (l : list string) (x : string) : bool :=
  existsb (String.eqb x) l.

Definition JsSet := list string.

Definition set_has (s : JsSet) (x : string) : bool := includes s x.

Definition set_add (s : JsSet) (x : string) : JsSet :=
  if set_has s x then s else s ++ [x].

(** [new Set(iterable)]. *)
Definition set_of_list (l : list string) : JsSet := fold_left set_add l [].

Section Map.
Variable V : Type.

Definition JsMap := list (string * V).

Fixpoint map_get (m : JsMap) (k : string) : option V :=
  match m with
  | [] => None
  | (k', v) :: m' => if k' =? k then Some v else map_get m' k
  end.

Definition map_has (m : JsMap) (k : string) : bool :=
  match map_get m k with Some _ => true | None => false end.

Fixpoint map_set (m : JsMap) (k : string) (v : V) : JsMap :=
  match m with
  | [] => [(k, v)]
  | (k', v') :: m' =>
      if k' =? k then (k', v) :: m' else (k', v') :: map_set m' k v
  end.

Definition map_keys (m : JsMap) : list string := map fst m.
Definition map_values (m : JsMap) : list V := map snd m.

(** [obj[k] = v] on the plain object with the own properties [o], for a
    value [v] that is no object (here a number).  The key [__proto__] names
    the accessor inherited from [Object.prototype]; its setter ignores such
    a value, so the assignment leaves the object as it was. *)
Definition obj_set (o : JsMap) (k : string) (v : V) : JsMap :=
  if k =? "__proto__" then o else map_set o k v.
End Map.

(** What reading a property of a plain object of numbers yields: an own
    number, something inherited from [Object.prototype] (the prototype
    object itself for [__proto__], a function for the others), or
    [undefined]. *)
Inductive Read := Number (n : nat) | Inherited | Undefined.

(** The property names of [Object.prototype]. *)
Definition objectPrototypeNames : list string :=
  ["__proto__"; "constructor"; "hasOwnProperty"; "isPrototypeOf";
   "propertyIsEnumerable"; "toLocaleString"; "toString"; "valueOf";
   "__defineGetter__"; "__defineSetter__"; "__lookupGetter__";
   "__lookupSetter__"].

(** [obj[k]] as an expression. *)
Definition obj_read (o : JsMap nat) (k : string) : Read :=
  match map_get o k with
  | Some n => Number n
  | None => if includes objectPrototypeNames k then Inherited else Undefined
  end.

(** [Boolean(r)]: 0 and [undefined] are falsy, objects and functions are
    truthy. *)
Definition truthyRead (r : Read) : bool :=
  match r with
  | Number (S _) => true
  | Number O => false
  | Inherited => true
  | Undefined => false
  end.

(** [a || b] on such values. *)
Definition read_or (a b : Read) : Read := if truthyRead a then a else b.

End Js.
Import Js.

(** ** Data model *)

(** A commit record as the provider returns it.  [commit_author_name] is
    [c.commit.author.name], [author_login] is [c.author.login],
    [commit_message] is [c.commit.message], [commit_author_date] is
    [c.commit.author.date], [parents] is [c.parents.map(p => p.sha)]. *)
Record Commit := mkCommit {
  sha : string;
  commit_author_name : string;
  author_login : string;
  commit_message : string;
  commit_author_date : string;
  parents : list string
}.

(** A graph node.  [isMerge] and [isSplit] are absent until the last pass of
    [buildGraphFromCommits] sets them; absent is modelled as [false] and is
    never read before that pass. *)
Record Node := mkNode {
  id : string;
  author : string;
  message : string;
  date : string;
  branches : list string;
  parentShas : list string;
  childShas : list string;
  isMerge : bool;
  isSplit : bool
}.

Record Link := mkLink { source : string; target : string }.

Record Graph := mkGraph { nodes : list Node; links : list Link }.

Definition with_branches (n : Node) (bs : list string) : Node :=
  mkNode (id n) (author n) (message n) (date n) bs
         (parentShas n) (childShas n) (isMerge n) (isSplit n).

Definition with_childShas (n : Node) (cs : list string) : Node :=
  mkNode (id n) (author n) (message n) (date n) (branches n)
         (parentShas n) cs (isMerge n) (isSplit n).

Definition with_flags (n : Node) (m s : bool) : Node :=
  mkNode (id n) (author n) (message n) (date n) (branches n)
         (parentShas n) (childShas n) m s.

(** ** [buildGraphFromCommits] *)

Module GraphBuilder.

Definition NodeMap := JsMap Node.
Definition BranchIndex := JsMap JsSet.

(** [commitToBranches.has(sha) ? Array.from(commitToBranches.get(sha)) : []] *)
Definition knownBranches (commitToBranches : BranchIndex) (s : string)
  : list string :=
  match map_get commitToBranches s with
  | Some bs => bs
  | None => []
  end.

Definition nodeOfCommit (commitToBranches : BranchIndex) (c : Commit) : Node :=
  {| id := sha c;
     author := or_else (commit_author_name c) (or_else (author_login c) "");
     message := or_else (commit_message c) "";
     date := or_else (commit_author_date c) "";
     branches := knownBranches commitToBranches (sha c);
     parentShas := parents c;
     childShas := [];
     isMerge := false;
     isSplit := false |}.

(** First loop: one node per commit, keyed by sha. *)
Definition createNodes (commits : list Commit) (commitToBranches : BranchIndex)
  : NodeMap :=
  fold_left (fun m c => map_set m (sha c) (nodeOfCommit commitToBranches c))
            commits [].

Definition placeholder (parentSha : string) (inheritedBranches : list string)
  : Node :=
  {| id := parentSha;
     author := "";
     message := "(parent)";
     date := "";
     branches := inheritedBranches;
     parentShas := [];
     childShas := [];
     isMerge := false;
     isSplit := false |}.

(** Body of the inner loop of the second pass, for one parent id of the
    commit [childSha]: create the placeholder when the parent has no node,
    push the child onto the parent's [childShas] unless it is there, and
    push the link unconditionally. *)
Definition linkParent (childSha : string) (inheritedBranches : list string)
           (acc : NodeMap * list Link) (parentSha : string)
  : NodeMap * list Link :=
  let (nodesBySha, links) := acc in
  let nodesBySha1 :=
    if map_has nodesBySha parentSha then nodesBySha
    else map_set nodesBySha parentSha (placeholder parentSha inheritedBranches) in
  let nodesBySha2 :=
    match map_get nodesBySha1 parentSha with
    | Some parentNode =>
        if includes (childShas parentNode) childSha then nodesBySha1
        else map_set nodesBySha1 parentSha
               (with_childShas parentNode (childShas parentNode ++ [childSha]))
    | None => nodesBySha1
    end in
  (nodesBySha2, links ++ [mkLink childSha parentSha]).

(** Body of the outer loop of the second pass. *)
Definition linkCommit (acc : NodeMap * list Link) (c : Commit)
  : NodeMap * list Link :=
  let inheritedBranches :=
    match map_get (fst acc) (sha c) with
    | Some childNode => branches childNode
    | None => []
    end in
  fold_left (linkParent (sha c) inheritedBranches) (parents c) acc.

Definition linkNodes (commits : list Commit) (nodesBySha : NodeMap)
  : NodeMap * list Link :=
  fold_left linkCommit commits (nodesBySha, []).

(** State of the third pass: the node map and the [visited] set shared by
    every call of [propagateBranchInfo]. *)
Definition PState := (NodeMap * JsSet)%type.

(** A [for ... of] loop whose body may run out of fuel. *)
Fixpoint forEachM {A S : Type} (body : A -> S -> option S) (l : list A)
         (s : S) : option S :=
  match l with
  | [] => Some s
  | a :: l' =>
      match body a s with
      | Some s' => forEachM body l' s'
      | None => None
      end
  end.

(** [propagateBranchInfo(sha, branches)].  The recursion of the source is
    bounded here by [fuel], the depth of nested calls; [None] is fuel
    exhaustion (see [propagateBranchInfo_total]).  The pass below gives the
    walk the depth it can need, one call per node.  The source has the depth
    of the JavaScript call stack instead: a chain of parents longer than
    that ends the request in the handler's [catch].  The embedding is of
    the requests whose walks fit the stack. *)
Fixpoint propagateBranchInfo (fuel : nat) (s : string) (brs : list string)
         (st : PState) : option PState :=
  match fuel with
  | O => None
  | S fuel' =>
      if set_has (snd st) s || (List.length brs =? 0)%nat then Some st
      else
        let visited1 := set_add (snd st) s in
        match map_get (fst st) s with
        | None => Some (fst st, visited1)
        | Some node =>
            let existingBranches :=
              fold_left set_add brs (set_of_list (branches node)) in
            let nodesBySha1 :=
              map_set (fst st) s (with_branches node existingBranches) in
            forEachM (fun parentSha st1 =>
                        propagateBranchInfo fuel' parentSha brs st1)
                     (parentShas node) (nodesBySha1, visited1)
        end
  end.

(** Body of the loop [for (const [sha, node] of nodesBySha)]: the node is
    read when its turn comes, so it carries what earlier walks gave it. *)
Definition propagateFrom (fuel : nat) (st : PState) (s : string) : PState :=
  match map_get (fst st) s with
  | Some node =>
      if (0 <? List.length (branches node))%nat then
        match propagateBranchInfo fuel s (branches node) st with
        | Some st' => st'
        | None => st
        end
      else st
  | None => st
  end.

Definition propagateAll (nodesBySha : NodeMap) : PState :=
  fold_left (propagateFrom (S (List.length nodesBySha)))
            (map_keys nodesBySha) (nodesBySha, []).

(** Fourth pass. *)
Definition classify (n : Node) : Node :=
  with_flags n (1 <? List.length (parentShas n))%nat (1 <? List.length (childShas n))%nat.

Definition buildGraphFromCommits (commits : list Commit)
           (commitToBranches : BranchIndex) : Graph :=
  let nodesBySha0 := createNodes commits commitToBranches in
  let (nodesBySha1, links) := linkNodes commits nodesBySha0 in
  let (nodesBySha2, _) := propagateAll nodesBySha1 in
  {| nodes := map classify (map_values nodesBySha2); links := links |}.

End GraphBuilder.
Import GraphBuilder.

(** ** The remote provider *)

(** [listCommits ref page] is the paginated GET of
    [/repos/:owner/:repo/commits] with [per_page: 100]; [None] is a call
    that throws, which the handler turns into an error response.
    [getCommit sha] is the GET of one commit; [None] is a call that throws,
    which [ensureParents] catches. *)
Record Provider := mkProvider {
  listCommits : string -> nat -> option (list Commit);
  getCommit : string -> option Commit
}.

Inductive Outcome (A : Type) : Type :=
| Ok (a : A)
| Failed
| OutOfFuel.
Arguments Ok {A} a.
Arguments Failed {A}.
Arguments OutOfFuel {A}.

(** ** [ensureParents] *)

Module AncestorExpander.

Definition CommitMap := JsMap Commit.

Definition batchSize : nat := 10.

(** [new Map(initialCommits.map((c) => [c.sha, c]))] *)
Definition indexBySha (commits : list Commit) : CommitMap :=
  fold_left (fun m c => map_set m (sha c) c) commits [].

Definition missingParents (initialCommits : list Commit) (seen : CommitMap)
  : JsSet :=
  fold_left
    (fun missing c =>
       fold_left
         (fun missing' p =>
            if truthy p && negb (map_has seen p) then set_add missing' p
            else missing')
         (parents c) missing)
    initialCommits [].

(** The slices [parentsToFetch.slice(i, i + batchSize)] for
    [i = 0, batchSize, 2 * batchSize, ...] below the length. *)
Fixpoint slices (fuel : nat) (l : list string) : list (list string) :=
  match fuel with
  | O => []
  | S fuel' =>
      match l with
      | [] => []
      | _ :: _ => firstn batchSize l :: slices fuel' (skipn batchSize l)
      end
  end.

Definition batchesOf (l : list string) : list (list string) :=
  slices (List.length l) l.

(** Body of [results.forEach]. *)
Definition storeResult (acc : CommitMap * nat) (result : option Commit)
  : CommitMap * nat :=
  match result with
  | Some commit =>
      if map_has (fst acc) (sha commit) then acc
      else (map_set (fst acc) (sha commit) commit, S (snd acc))
  | None => acc
  end.

Fixpoint fetchBatches (getCommit : string -> option Commit) (maxFetch : nat)
         (batches : list (list string)) (acc : CommitMap * nat)
  : CommitMap * nat :=
  match batches with
  | [] => acc
  | batch :: rest =>
      let acc' := fold_left storeResult (map getCommit batch) acc in
      if (maxFetch <=? snd acc')%nat then acc'
      else fetchBatches getCommit maxFetch rest acc'
  end.

Definition parentsToFetch (initialCommits : list Commit) (maxFetch : nat)
  : list string :=
  firstn (Nat.min maxFetch 200)
         (missingParents initialCommits (indexBySha initialCommits)).

Definition ensureParents (getCommit : string -> option Commit)
           (initialCommits : list Commit) (maxFetch : nat) : list Commit :=
  let seen := indexBySha initialCommits in
  map_values
    (fst (fetchBatches getCommit maxFetch
            (batchesOf (parentsToFetch initialCommits maxFetch)) (seen, 0%nat))).

End AncestorExpander.
Import AncestorExpander.

(** ** The collection loop of the request handler *)

Module Collector.

Record CState := mkCState {
  allCommits : list Commit;
  seen : JsSet;
  commitToBranches : BranchIndex;
  perBranchCounts : JsMap nat
}.

Definition initial : CState := mkCState [] [] [] [].

(** [allCommits.length >= maxCommits] *)
Definition budgetReached (maxCommits : Z) (st : CState) : bool :=
  (maxCommits <=? Z.of_nat (List.length (allCommits st)))%Z.

(** The membership bookkeeping done for every commit of a page. *)
Definition recordBranch (branchName : string) (c : Commit) (st : CState)
  : CState :=
  let existingSet :=
    match map_get (commitToBranches st) (sha c) with
    | Some s => s
    | None => []
    end in
  mkCState (allCommits st) (seen st)
           (map_set (commitToBranches st) (sha c) (set_add existingSet branchName))
           (perBranchCounts st).

(** The branch [if (!alreadySeen)].  [perBranchCounts] is a plain object,
    so [perBranchCounts[branchName] += 1] changes nothing for the branch
    name [__proto__]; for any other name the property was set to 0 when the
    branch started. *)
Definition accept (branchName : string) (c : Commit) (st : CState) : CState :=
  let count :=
    match map_get (perBranchCounts st) branchName with
    | Some n => n
    | None => 0%nat
    end in
  mkCState (allCommits st ++ [c]) (set_add (seen st) (sha c))
           (commitToBranches st)
           (obj_set (perBranchCounts st) branchName (S count)).

(** [for (const c of pageData) { ... if (allCommits.length >= maxCommits) break; }] *)
Fixpoint processPage (maxCommits : Z) (branchName : string)
         (pageData : list Commit) (st : CState) (branchSawExistingSHA : bool)
  : CState * bool :=
  match pageData with
  | [] => (st, branchSawExistingSHA)
  | c :: rest =>
      let alreadySeen := set_has (seen st) (sha c) in
      let st1 := recordBranch branchName c st in
      let st2 := if alreadySeen then st1 else accept branchName c st1 in
      let saw := if alreadySeen then true else branchSawExistingSHA in
      if budgetReached maxCommits st2 then (st2, saw)
      else processPage maxCommits branchName rest st2 saw
  end.

(** [while (true) { ... page += 1; }] for one branch; [fuel] bounds the
    number of pages requested (see [collectCommits_fuel]). *)
Fixpoint pageLoop (fuel : nat) (prov : Provider) (maxCommits : Z)
         (branchName : string) (page : nat) (branchSawExistingSHA : bool)
         (st : CState) : Outcome CState :=
  match fuel with
  | O => OutOfFuel
  | S fuel' =>
      if budgetReached maxCommits st then Ok st
      else
        match listCommits prov branchName page with
        | None => Failed
        | Some [] => Ok st
        | Some pageData =>
            let (st', saw) :=
              processPage maxCommits branchName pageData st
                          branchSawExistingSHA in
            if saw || (List.length pageData <? 100)%nat then Ok st'
            else pageLoop fuel' prov maxCommits branchName (S page) saw st'
        end
  end.

(** [perBranchCounts[branchName] = 0], on the plain object. *)
Definition startBranch (branchName : string) (st : CState) : CState :=
  mkCState (allCommits st) (seen st) (commitToBranches st)
           (obj_set (perBranchCounts st) branchName 0%nat).

(** [for (const branchName of branchTips) { ... }] *)
Fixpoint branchLoop (prov : Provider) (maxCommits : Z)
         (branchTips : list string) (st : CState) : Outcome CState :=
  match branchTips with
  | [] => Ok st
  | branchName :: rest =>
      match pageLoop (S (Z.to_nat maxCommits)) prov maxCommits branchName 1
                     false (startBranch branchName st) with
      | Ok st' =>
          if budgetReached maxCommits st' then Ok st'
          else branchLoop prov maxCommits rest st'
      | Failed => Failed
      | OutOfFuel => OutOfFuel
      end
  end.

Definition collectCommits (prov : Provider) (maxCommits : Z)
           (branchTips : list string) : Outcome CState :=
  branchLoop prov maxCommits branchTips initial.

End Collector.

(** ** The collection loop of the documented handler

    The repository holds a second, commented copy of the backend, the one
    that follows the setup instructions in README.md.  It differs from the
    handler above in the collection loop only: it computes a quota per
    branch ([commitsPerBranch], [extraCommits]), counts the commits of the
    current branch in [branchCommitCount] and counts the global budget down
    in [remainingGlobalCommits]. *)

Module FairCollector.

Record QState := mkQState {
  base : Collector.CState;
  remainingGlobalCommits : Z
}.

(** [Math.floor(maxCommits / branchTips.length)] and
    [maxCommits % branchTips.length]; with no branch both are NaN in the
    source and no iteration reads them. *)
Definition commitsPerBranch (maxCommits : Z) (branchCount : nat) : Z :=
  (maxCommits / Z.of_nat branchCount)%Z.

Definition extraCommits (maxCommits : Z) (branchCount : nat) : Z :=
  Z.rem maxCommits (Z.of_nat branchCount).

Definition branchQuota (maxCommits : Z) (branchCount branchIndex : nat) : Z :=
  (commitsPerBranch maxCommits branchCount
   + (if Z.of_nat branchIndex <? extraCommits maxCommits branchCount
      then 1 else 0))%Z.

Definition onBase (f : Collector.CState -> Collector.CState) (st : QState)
  : QState :=
  mkQState (f (base st)) (remainingGlobalCommits st).

Fixpoint processPage (quota : Z) (branchName : string)
         (pageData : list Commit) (st : QState) (branchCommitCount : Z)
         (branchSawExistingSHA : bool) : QState * Z * bool :=
  match pageData with
  | [] => (st, branchCommitCount, branchSawExistingSHA)
  | c :: rest =>
      let alreadySeen := set_has (Collector.seen (base st)) (sha c) in
      let st1 := onBase (Collector.recordBranch branchName c) st in
      let canAdd :=
        negb alreadySeen
        && (branchCommitCount <? quota)%Z
        && (0 <? remainingGlobalCommits st1)%Z in
      let st2 :=
        if canAdd
        then mkQState (Collector.accept branchName c (base st1))
                      (remainingGlobalCommits st1 - 1)%Z
        else st1 in
      let count2 :=
        if canAdd then (branchCommitCount + 1)%Z else branchCommitCount in
      let saw := if alreadySeen then true else branchSawExistingSHA in
      if (quota <=? count2)%Z then (st2, count2, saw)
      else if (remainingGlobalCommits st2 <=? 0)%Z then (st2, count2, saw)
      else processPage quota branchName rest st2 count2 saw
  end.

Fixpoint pageLoop (fuel : nat) (prov : Provider) (quota : Z)
         (branchName : string) (page : nat) (branchCommitCount : Z)
         (branchSawExistingSHA : bool) (st : QState) : Outcome QState :=
  match fuel with
  | O => OutOfFuel
  | S fuel' =>
      if (quota <=? branchCommitCount)%Z then Ok st
      else if (remainingGlobalCommits st <=? 0)%Z then Ok st
      else
        match listCommits prov branchName page with
        | None => Failed
        | Some [] => Ok st
        | Some pageData =>
            let '(st', count', saw) :=
              processPage quota branchName pageData st branchCommitCount
                          branchSawExistingSHA in
            if (quota <=? count')%Z then Ok st'
            else if saw then Ok st'
            else if (List.length pageData <? 100)%nat then Ok st'
            else pageLoop fuel' prov quota branchName (S page) count' saw st'
        end
  end.

(** One iteration of the loop over [branchIndex]. *)
Definition collectBranch (prov : Provider) (quota : Z) (branchName : string)
           (st : QState) : Outcome QState :=
  pageLoop (S (Z.to_nat quota)) prov quota branchName 1 0%Z false
           (onBase (Collector.startBranch branchName) st).

Fixpoint branchLoop (prov : Provider) (maxCommits : Z) (branchCount : nat)
         (branchIndex : nat) (remaining : list string) (st : QState)
  : Outcome QState :=
  match remaining with
  | [] => Ok st
  | branchName :: rest =>
      match collectBranch prov (branchQuota maxCommits branchCount branchIndex)
                          branchName st with
      | Ok st' => branchLoop prov maxCommits branchCount (S branchIndex) rest st'
      | Failed => Failed
      | OutOfFuel => OutOfFuel
      end
  end.

Definition collectCommits (prov : Provider) (maxCommits : Z)
           (branchTips : list string) : Outcome QState :=
  branchLoop prov maxCommits (List.length branchTips) 0 branchTips
             (mkQState Collector.initial maxCommits).

End FairCollector.

(** ** Statistics and the response payload *)

Record Stats := mkStats {
  totalCommits : nat;
  pullRequests : nat;
  splitCommits : nat;
  authors : nat;
  branchCounts : JsMap nat
}.

Definition countBranch (graph : Graph) (branch : string) : nat :=
  List.length (filter (fun n => includes (branches n) branch) (nodes graph)).

Definition computeStats (graph : Graph) (branchTips : list string) : Stats :=
  {| totalCommits := List.length (nodes graph);
     pullRequests := List.length (filter isMerge (nodes graph));
     splitCommits := List.length (filter isSplit (nodes graph));
     authors :=
       List.length (set_of_list (filter truthy (map author (nodes graph))));
     branchCounts :=
       fold_left (fun counts branch => obj_set counts branch (countBranch graph branch))
                 branchTips [] |}.

(** [meta] without the request's own [owner], [repo] and [defaultBranch],
    which are copied through. *)
Record Meta := mkMeta {
  fetchedBranches : nat;
  commits : nat;
  selectedBranches : list string;
  metaPerBranchCounts : JsMap nat;
  stats : Stats
}.

Record Payload := mkPayload { meta : Meta; graph : Graph }.

Definition MAX_PARENT_FETCH : nat := 200.

Definition uniqueCommits (st : Collector.CState) : list Commit :=
  map_values (indexBySha (Collector.allCommits st)).

Definition expandedCommits (prov : Provider) (st : Collector.CState)
  : list Commit :=
  ensureParents (getCommit prov) (uniqueCommits st) MAX_PARENT_FETCH.

(** The handler from the collection loop on.  [branchTips] is the fetch plan
    the branch ranking above it produced; the cache in front of it is not
    modelled. *)
Definition assemble (prov : Provider) (branchTips : list string)
           (st : Collector.CState) : Payload :=
  let graph :=
    buildGraphFromCommits (expandedCommits prov st)
                          (Collector.commitToBranches st) in
  {| meta :=
       {| fetchedBranches := List.length branchTips;
          commits := List.length (uniqueCommits st);
          selectedBranches := branchTips;
          metaPerBranchCounts := Collector.perBranchCounts st;
          stats := computeStats graph branchTips |};
     graph := graph |}.

Definition buildGraph (prov : Provider) (maxCommits : Z)
           (branchTips : list string) : Outcome Payload :=
  match Collector.collectCommits prov maxCommits branchTips with
  | Ok st => Ok (assemble prov branchTips st)
  | Failed => Failed
  | OutOfFuel => OutOfFuel
  end.

(** ** Vocabulary of the properties *)

(** A (child, parent) pair declared by a commit. *)
Definition Edge := (string * string)%type.

Definition edgesOf (c : Commit) : list Edge :=
  map (fun p => (sha c, p)) (parents c).

Definition edges (cs : list Commit) : list Edge := flat_map edgesOf cs.

Definition linkOf (e : Edge) : Link := mkLink (fst e) (snd e).

Definition targets (k : string) (e : Edge) : bool := snd e =? k.

Definition addNode (commitToBranches : BranchIndex) (m : NodeMap) (c : Commit)
  : NodeMap :=
  map_set m (sha c) (nodeOfCommit commitToBranches c).

(** The node of a graph with a given id. *)
Definition node_at (g : Graph) (k : string) : option Node :=
  find (fun n => id n =? k) (nodes g).

(** What the inner loop of the second pass does to the parent's node. *)
Definition pushChild (n : Node) (childSha : string) : Node :=
  with_childShas n (if includes (childShas n) childSha then childShas n
                    else childShas n ++ [childSha]).

(** Invariant of the second pass, after the (child, parent) pairs [E] have
    been processed on top of the first-pass map [m0]. *)
Record LinkInv (commitToBranches : BranchIndex) (m0 : NodeMap)
       (E : list Edge) (acc : NodeMap * list Link) : Prop := {
  li_real : forall k n0, map_get m0 k = Some n0 ->
      exists cs, map_get (fst acc) k = Some (with_childShas n0 cs);
  li_placeholder : forall k n, map_get m0 k = None ->
      map_get (fst acc) k = Some n ->
      exists B cs, find (targets k) E = Some (B, k) /\
        n = with_childShas (placeholder k (knownBranches commitToBranches B)) cs;
  li_child : forall k n, map_get (fst acc) k = Some n ->
      forall B, In B (childShas n) <-> In (B, k) E;
  li_exist : forall B p, In (B, p) E -> map_has (fst acc) p = true;
  li_links : snd acc = map linkOf E;
  li_nodup : NoDup (map_keys (fst acc))
}.

(** How a state of the third pass may evolve: the keys stay, [visited]
    grows, and a node changes only in its [branches], which grow, and only
    at the moment it is visited. *)
Record Grow (st st' : PState) : Prop := {
  g_keys : map_keys (fst st') = map_keys (fst st);
  g_visited : incl (snd st) (snd st');
  g_node : forall k n, map_get (fst st) k = Some n ->
      exists bs, map_get (fst st') k = Some (with_branches n bs) /\
                 incl (branches n) bs /\
                 (In k (snd st) \/ ~ In k (snd st') -> bs = branches n)
}.

(** What a walk with the branch list [brs] guarantees for the nodes it
    visits: they carry [brs] and all their parents are visited. *)
Definition Fresh (brs : list string) (st st' : PState) : Prop :=
  forall k n', In k (snd st') -> ~ In k (snd st) ->
    map_get (fst st') k = Some n' ->
    incl brs (branches n') /\
    (forall p, In p (parentShas n') -> In p (snd st')).

(** Number of keys of the node map not yet in [visited]. *)
Definition unvisited (st : PState) : nat :=
  List.length (filter (fun k => negb (set_has (snd st) k)) (map_keys (fst st))).

(** Invariant of the loop that seeds the walks, after the keys [done]. *)
Record SeedInv (m : NodeMap) (done : list string) (st : PState) : Prop := {
  si_grow : Grow (m, []) st;
  si_closed : forall k n, In k (snd st) -> map_get (fst st) k = Some n ->
      branches n <> [] /\ (forall p, In p (parentShas n) -> In p (snd st));
  si_seeds : forall k n, In k done -> map_get (fst st) k = Some n ->
      branches n <> [] -> In k (snd st)
}.


(** The node map after the second and after the third pass. *)
Definition linkedNodes (commits : list Commit) (commitToBranches : BranchIndex)
  : NodeMap :=
  fst (linkNodes commits (createNodes commits commitToBranches)).

Definition propagatedNodes (commits : list Commit)
           (commitToBranches : BranchIndex) : NodeMap :=
  fst (propagateAll (linkedNodes commits commitToBranches)).


(** The first commit, in the order of the list, that names [p] as a parent:
    the child that discovers [p] in the second pass. *)
Definition discoverer (commits : list Commit) (p : string) : option Commit :=
  find (fun c => includes (parents c) p) commits.

(** [reachable g a b]: [b] is reached from [a] by following [parentShas]. *)
Inductive reachable (g : Graph) : string -> string -> Prop :=
| reach_here (k : string) : reachable g k k
| reach_parent (k p a : string) (n : Node) :
    node_at g k = Some n -> In p (parentShas n) -> reachable g p a ->
    reachable g k a.

(** An entry of the index built by [ensureParents]. *)
Definition entryOf (c : Commit) : string * Commit := (sha c, c).

(** Storing the answers to a list of ids, as [results.forEach] does for one
    batch. *)
Definition storeAll (getCommit : string -> option Commit)
           (acc : CommitMap * nat) (ids : list string) : CommitMap * nat :=
  fold_left storeResult (map getCommit ids) acc.

(** Size of the working commit set, as the budget test reads it. *)
Definition accepted (st : Collector.CState) : Z :=
  Z.of_nat (List.length (Collector.allCommits st)).

(** The commit set the graph is built from, and the membership map of the
    collector, for a request that is answered. *)
Definition expandedOf (prov : Provider) (maxCommits : Z)
           (branchTips : list string) : list Commit :=
  match Collector.collectCommits prov maxCommits branchTips with
  | Ok st => expandedCommits prov st
  | _ => []
  end.

Definition membershipOf (prov : Provider) (maxCommits : Z)
           (branchTips : list string) : BranchIndex :=
  match Collector.collectCommits prov maxCommits branchTips with
  | Ok st => Collector.commitToBranches st
  | _ => []
  end.


(** No two links with the same source and target. *)
Definition linksDistinct (g : Graph) : Prop := NoDup (links g).

(** Number of nodes of a graph that satisfy a test. *)
Definition countNodes (test : Node -> bool) (g : Graph) : nat :=
  List.length (filter test (nodes g)).

(** [l] lists, once each, the non-empty author strings of a graph. *)
Definition distinctAuthors (g : Graph) (l : list string) : Prop :=
  NoDup l /\
  forall a, In a l <-> (a <> "" /\ exists n, In n (nodes g) /\ author n = a).

(** Invariant of the collection loop: [seen] holds the shas of the working
    set, which are distinct, and every commit of the working set has a
    branch recorded in [commitToBranches]. *)
Record CollectInv (st : Collector.CState) : Prop := {
  ci_seen : forall s,
      In s (Collector.seen st) <-> In s (map sha (Collector.allCommits st));
  ci_distinct : NoDup (map sha (Collector.allCommits st));
  ci_member : forall c, In c (Collector.allCommits st) ->
      knownBranches (Collector.commitToBranches st) (sha c) <> []
}.

(** ** Example requests *)

Module Examples.

Definition commit (s : string) (ps : list string) : Commit :=
  mkCommit s "ann" "" "work" "2024-05-01T10:00:00Z" ps.

Definition firstPage (pages : string -> list Commit) (ref : string)
           (page : nat) : option (list Commit) :=
  match page with
  | 1%nat => Some (pages ref)
  | _ => Some []
  end.

(** Two branches that meet in [root]; [b1] is outside the window of the
    collector and is fetched as a missing parent. *)
Definition sharedRoot : Provider :=
  mkProvider
    (firstPage (fun ref =>
       if ref =? "main"
       then [commit "a2" ["a1"]; commit "a1" ["root"]; commit "root" []]
       else [commit "b2" ["b1"]; commit "b1" ["root"]; commit "root" []]))
    (fun s => if s =? "b1" then Some (commit "b1" ["root"]) else None).

(** One branch of four commits; no single commit can be fetched. *)
Definition longBranch : Provider :=
  mkProvider
    (firstPage (fun ref =>
       if ref =? "main"
       then [commit "m4" ["m3"]; commit "m3" ["m2"]; commit "m2" ["m1"];
             commit "m1" []]
       else [commit "d1" ["m1"]; commit "m1" []]))
    (fun _ => None).

(** A commit whose parent list names the same parent twice. *)
Definition repeatedParent : Provider :=
  mkProvider
    (firstPage (fun _ => [commit "m" ["p"; "p"]; commit "p" []]))
    (fun _ => None).

(** The window ends at [t2]; its parent [t1] is fetched, and names [t0],
    which is not. *)
Definition truncated : Provider :=
  mkProvider
    (firstPage (fun _ => [commit "t2" ["t1"]; commit "t1" ["t0"];
                          commit "t0" []]))
    (fun s => if s =? "t1" then Some (commit "t1" ["t0"]) else None).

(** Two short branches whose tips both lead to [p], which cannot be
    fetched: [x] over [c2] on [dev], and [c1] on [main]. *)
Definition twoChildren : Provider :=
  mkProvider
    (firstPage (fun ref =>
       if ref =? "dev" then [commit "x" ["c2"]] else [commit "c1" ["p"]]))
    (fun s => if s =? "c2" then Some (commit "c2" ["p"]) else None).

(** A repository with a branch named [__proto__]: [q1] is on it alone, over
    [m1], which [main] holds too. *)
Definition protoBranch : Provider :=
  mkProvider
    (firstPage (fun ref =>
       if ref =? "main" then [commit "m2" ["m1"]; commit "m1" []]
       else [commit "q1" ["m1"]; commit "m1" []]))
    (fun _ => None).

End Examples.

(** ** Branch selection of the handler *)

Module BranchRanker.

Record BranchInfo := mkBranchInfo {
  name : string;
  latestDate : option string
}.

(** [arr.findIndex(test)]; [None] is the source's -1. *)
Fixpoint findIndex (A : Type) (test : A -> bool) (l : list A) : option nat :=
  match l with
  | [] => None
  | x :: rest =>
      if test x then Some 0%nat else option_map S (findIndex test rest)
  end.

Definition MAX_BRANCHES : nat := 5.

(** [if (defaultBranch) { ... }] on the list [branchInfos.sort(...)] left:
    the default branch is moved, or put, in front.  [defaultBranch] is
    [None] when the repository could not be read.  [findIndex] only returns
    positions of the list, so [splice(idx, 1)] always removes an element. *)
Definition promoteDefault (defaultBranch : option string)
           (branchInfos : list BranchInfo) : list BranchInfo :=
  match defaultBranch with
  | Some d =>
      if truthy d then
        match findIndex (fun x => name x =? d) branchInfos with
        | Some idx =>
            match nth_error branchInfos idx with
            | Some df => df :: firstn idx branchInfos ++ skipn (S idx) branchInfos
            | None => branchInfos
            end
        | None => mkBranchInfo d None :: branchInfos
        end
      else branchInfos
  | None => branchInfos
  end.

(** [branchInfos.slice(0, MAX_BRANCHES).map((b) => b.name)] *)
Definition branchTips (defaultBranch : option string)
           (branchInfos : list BranchInfo) : list string :=
  map name (firstn MAX_BRANCHES (promoteDefault defaultBranch branchInfos)).

End BranchRanker.

(** The handler from the sorted branch list on. *)
Definition answer (prov : Provider) (maxCommits : Z)
           (defaultBranch : option string)
           (branchInfos : list BranchRanker.BranchInfo) : Outcome Payload :=
  buildGraph prov maxCommits (BranchRanker.branchTips defaultBranch branchInfos).

(** ** The frontend *)

(** [new Map(nodes.map(n => [n.id, n]))], as the graph component and the
    tests build it. *)
Definition nodeMapOf (ns : list Node) : JsMap Node :=
  fold_left (fun m n => map_set m (id n) n) ns [].

(** [arr.map(f)] for an [f] that threads a state and may run out of fuel. *)
Fixpoint mapM {A B S : Type} (body : A -> S -> option (B * S)) (l : list A)
         (s : S) : option (list B * S) :=
  match l with
  | [] => Some ([], s)
  | a :: l' =>
      match body a s with
      | Some (b, s1) =>
          match mapM body l' s1 with
          | Some (bs, s2) => Some (b :: bs, s2)
          | None => None
          end
      | None => None
      end
  end.

(** [x || y] for a number that may be missing: 0 and [undefined] are
    falsy. *)
Definition num_or (x : option nat) (y : nat) : nat :=
  match x with
  | Some (S n) => S n
  | _ => y
  end.

Module App.

(** [meta.stats?.totalCommits || meta.commits] *)
Definition totalCommitsShown (m : Meta) : nat :=
  num_or (Some (totalCommits (stats m))) (commits m).

(** [meta.stats?.branchCounts?.[branch] || meta.perBranchCounts[branch] || 0]
    on the two plain objects of the parsed reply. *)
Definition commitCount (m : Meta) (branch : string) : Read :=
  read_or (obj_read (branchCounts (stats m)) branch)
          (read_or (obj_read (metaPerBranchCounts m) branch) (Number 0)).

(** The update a branch button makes to [visibleBranches]. *)
Definition toggleBranch (prev : list string) (branch : string) : list string :=
  if includes prev branch
  then filter (fun b => negb (b =? branch)) prev
  else prev ++ [branch].

End App.

Module RepoGraph.

Definition directlyVisible (g : Graph) (visibleBranches : list string) : JsSet :=
  set_of_list
    (map id
       (filter (fun n => existsb (fun b => includes visibleBranches b)
                                 (branches n))
               (nodes g))).

(** [includeAncestors(nodeId)] on the set [nodesToInclude]; [fuel] bounds
    the depth of nested calls and [None] is fuel exhausted. *)
Fixpoint includeAncestors (fuel : nat) (nodeMap : JsMap Node)
         (nodeId : string) (nodesToInclude : JsSet) : option JsSet :=
  match fuel with
  | O => None
  | S fuel' =>
      match map_get nodeMap nodeId with
      | None => Some nodesToInclude
      | Some node =>
          forEachM (fun parentId inc =>
                      if set_has inc parentId then Some inc
                      else includeAncestors fuel' nodeMap parentId
                                            (set_add inc parentId))
                   (parentShas node) nodesToInclude
      end
  end.

(** [directlyVisible.forEach(id => includeAncestors(id))] on a copy of
    [directlyVisible]. *)
Definition nodesToInclude (g : Graph) (visibleBranches : list string)
  : option JsSet :=
  let direct := directlyVisible g visibleBranches in
  forEachM (includeAncestors (S (S (List.length (nodes g))))
                             (nodeMapOf (nodes g)))
           direct direct.

(** The nodes and links handed to the layout. *)
Definition shown (g : Graph) (visibleBranches : list string) : option Graph :=
  if (0 <? List.length visibleBranches)%nat then
    match nodesToInclude g visibleBranches with
    | Some inc =>
        Some (mkGraph
                (filter (fun n => set_has inc (id n)) (nodes g))
                (filter (fun l => set_has inc (source l)
                                  && set_has inc (target l)) (links g)))
    | None => None
    end
  else Some g.

(** The maps [layers] and [visited] of the layout. *)
Definition LState := (JsMap nat * JsSet)%type.

(** [getLayer(nodeId)]; [fuel] bounds the depth of nested calls and [None]
    is fuel exhausted. *)
Fixpoint getLayer (fuel : nat) (nodeMap : JsMap Node) (nodeId : string)
         (st : LState) : option (nat * LState) :=
  match fuel with
  | O => None
  | S fuel' =>
      match map_get (fst st) nodeId with
      | Some layer => Some (layer, st)
      | None =>
          if set_has (snd st) nodeId then Some (0%nat, st)
          else
            let visited1 := set_add (snd st) nodeId in
            match map_get nodeMap nodeId with
            | None => Some (0%nat, (fst st, visited1))
            | Some node =>
                if (List.length (childShas node) =? 0)%nat
                then Some (0%nat, (map_set (fst st) nodeId 0%nat, visited1))
                else
                  match mapM (getLayer fuel' nodeMap) (childShas node)
                             (fst st, visited1) with
                  | Some (childLayers, st2) =>
                      let layer := (list_max childLayers + 1)%nat in
                      Some (layer, (map_set (fst st2) nodeId layer, snd st2))
                  | None => None
                  end
            end
      end
  end.

(** [nodes.forEach(n => getLayer(n.id))] on the nodes handed to the
    layout; the result is the map [layers]. *)
Definition layersOf (ns : list Node) : option (JsMap nat) :=
  option_map fst
    (forEachM (fun n st =>
                 option_map snd
                   (getLayer (S (List.length ns)) (nodeMapOf ns) (id n) st))
              ns ([], [])).

(** [layers.get(n.id) || 0] *)
Definition layerOf (layers : JsMap nat) (nodeId : string) : nat :=
  num_or (map_get layers nodeId) 0.

End RepoGraph.

(** ** The checks of [unit-test.js] *)

Module GraphAccuracyTests.

(** The numbers of [stats] by key, as the JSON reply carries them. *)
Definition statsNumber (s : Stats) (key : string) : option nat :=
  if key =? "totalCommits" then Some (totalCommits s)
  else if key =? "pullRequests" then Some (pullRequests s)
  else if key =? "splitCommits" then Some (splitCommits s)
  else if key =? "authors" then Some (authors s)
  else None.

(** [testLinkIntegrity] *)
Fixpoint brokenLinksFrom (nodeIds : JsSet) (idx : nat) (ls : list Link)
  : list (nat * string * string) :=
  match ls with
  | [] => []
  | link :: rest =>
      (if set_has nodeIds (source link) then []
       else [(idx, "source", source link)])
      ++ (if set_has nodeIds (target link) then []
          else [(idx, "target", target link)])
      ++ brokenLinksFrom nodeIds (S idx) rest
  end.

Definition brokenLinks (data : Payload) : list (nat * string * string) :=
  brokenLinksFrom (set_of_list (map id (nodes (graph data)))) 0
                  (links (graph data)).

Definition allLinksReferenceExistingNodes (data : Payload) : bool :=
  (List.length (brokenLinks data) =? 0)%nat.

Definition linkKey (link : Link) : string :=
  source link ++ "->" ++ target link.

Fixpoint duplicatesFrom (linkKeys : JsSet) (ls : list Link) : list string :=
  match ls with
  | [] => []
  | link :: rest =>
      (if set_has linkKeys (linkKey link) then [linkKey link] else [])
      ++ duplicatesFrom (set_add linkKeys (linkKey link)) rest
  end.

Definition duplicates (data : Payload) : list string :=
  duplicatesFrom [] (links (graph data)).

Definition noDuplicateLinks (data : Payload) : bool :=
  (List.length (duplicates data) =? 0)%nat.

(** [testParentChildRelationships]: what one node adds to
    [inconsistencies]. *)
Definition inconsistenciesOf (nodeMap : JsMap Node) (node : Node) : nat :=
  List.length
    (filter (fun parentId =>
               match map_get nodeMap parentId with
               | Some parent => negb (includes (childShas parent) (id node))
               | None => false
               end)
            (parentShas node))
  + List.length
      (filter (fun childId =>
                 match map_get nodeMap childId with
                 | Some child => negb (includes (parentShas child) (id node))
                 | None => false
                 end)
              (childShas node)).

Definition inconsistencies (data : Payload) : nat :=
  list_sum (map (inconsistenciesOf (nodeMapOf (nodes (graph data))))
                (nodes (graph data))).

Definition relationshipsBidirectional (data : Payload) : bool :=
  (inconsistencies data =? 0)%nat.

(** [testMergeDetection] *)
Definition incorrectMerges (data : Payload) : nat :=
  List.length
    (filter (fun node =>
               negb (Bool.eqb (isMerge node)
                              (1 <? List.length (parentShas node))%nat))
            (nodes (graph data))).

Definition mergesCorrectlyIdentified (data : Payload) : bool :=
  (incorrectMerges data =? 0)%nat.

Definition mergeCount (data : Payload) : nat :=
  List.length (filter isMerge (nodes (graph data))).

(** [data.meta.stats?.mergeCommits || 0] *)
Definition statsCount (data : Payload) : nat :=
  num_or (statsNumber (stats (meta data)) "mergeCommits") 0.

Definition mergeCountMatchesStats (data : Payload) : bool :=
  (mergeCount data =? statsCount data)%nat.

(** [testSplitDetection] *)
Definition incorrectSplits (data : Payload) : nat :=
  List.length
    (filter (fun node =>
               negb (Bool.eqb (isSplit node)
                              (1 <? List.length (childShas node))%nat))
            (nodes (graph data))).

Definition splitsCorrectlyIdentified (data : Payload) : bool :=
  (incorrectSplits data =? 0)%nat.

(** [testLinkDirection] *)
Definition incorrectDirections (data : Payload) : nat :=
  let nodeMap := nodeMapOf (nodes (graph data)) in
  List.length
    (filter (fun link =>
               match map_get nodeMap (source link),
                     map_get nodeMap (target link) with
               | Some sourceNode, Some _ =>
                   negb (includes (parentShas sourceNode) (target link))
               | _, _ => false
               end)
            (links (graph data))).

Definition linksPointFromChildToParent (data : Payload) : bool :=
  (incorrectDirections data =? 0)%nat.

(** [testMetadataAccuracy], the checks on the counts. *)
Definition totalMatchesNodeCount (data : Payload) : bool :=
  (List.length (nodes (graph data))
   =? num_or (statsNumber (stats (meta data)) "totalCommits") 0)%nat.

Definition branchCountsAccurate (data : Payload) : bool :=
  forallb (fun entry =>
             (List.length
                (filter (fun n => includes (branches n) (fst entry))
                        (nodes (graph data)))
              =? snd entry)%nat)
          (branchCounts (stats (meta data))).

(** [testAuthorTracking] *)
Definition uniqueAuthors (data : Payload) : JsSet :=
  set_of_list
    (filter (fun a => truthy a && negb (a =? ""))
            (map author (nodes (graph data)))).

Definition authorCountMatches (data : Payload) : bool :=
  (List.length (uniqueAuthors data)
   =? num_or (statsNumber (stats (meta data)) "authors") 0)%nat.

End GraphAccuracyTests.

(** Second invariant of the collection loop, for the fetch plan [tips]:
    the membership sets hold branches of the plan, once each, and the count
    kept for a branch is covered by the commits of the working set recorded
    on that branch. *)
Record MembershipInv (tips : list string) (st : Collector.CState) : Prop := {
  mi_from : forall s b,
      In b (knownBranches (Collector.commitToBranches st) s) -> In b tips;
  mi_distinct : forall s,
      NoDup (knownBranches (Collector.commitToBranches st) s);
  mi_keys : forall b k,
      map_get (Collector.perBranchCounts st) b = Some k -> In b tips;
  mi_counts : forall b k,
      map_get (Collector.perBranchCounts st) b = Some k ->
      k <= List.length
             (filter (fun c =>
                        includes (knownBranches (Collector.commitToBranches st)
                                                (sha c)) b)
                     (Collector.allCommits st))
}.

(** The counts kept per branch add up to the size of the working set. *)
Definition countsAddUp (st : Collector.CState) : Prop :=
  list_sum (map_values (Collector.perBranchCounts st))
  = List.length (Collector.allCommits st).

(** The counts kept per branch stay within the size of the working set. *)
Definition countsBelow (st : Collector.CState) : Prop :=
  list_sum (map_values (Collector.perBranchCounts st))
  <= List.length (Collector.allCommits st).

(** The ids the branch filter of the graph component is to keep: what is
    reached, along [parentShas], from a node that carries a visible
    branch. *)
Definition keptByFilter (g : Graph) (visibleBranches : list string)
           (k : string) : Prop :=
  exists a b, In a (nodes g) /\ In b (branches a) /\ In b visibleBranches /\
              reachable g (id a) k.

(** Number of keys of a node map that a set of ids does not hold. *)
Definition uncovered (nodeMap : JsMap Node) (inc : JsSet) : nat :=
  List.length (filter (fun k => negb (set_has inc k)) (map_keys nodeMap)).

(** The layer the layout gives a node, from the layers of its children. *)
Definition layerFormula (layers : JsMap nat) (n : Node) : nat :=
  match childShas n with
  | [] => 0
  | _ => list_max (map (RepoGraph.layerOf layers) (childShas n)) + 1
  end.

(** Invariant of the layering, for the calls of [getLayer] in progress
    [stack]: a layer that is set is the one of the formula and the children
    in the map have theirs; a visited node without layer is in progress. *)
Record LayerInv (nodeMap : JsMap Node) (stack : list string)
       (st : RepoGraph.LState) : Prop := {
  ly_entries : forall k l, map_get (fst st) k = Some l ->
      exists n, map_get nodeMap k = Some n /\ l = layerFormula (fst st) n /\
        forall c, In c (childShas n) -> map_has nodeMap c = true ->
                  map_has (fst st) c = true;
  ly_visited : forall k, In k (snd st) -> map_has nodeMap k = true ->
      map_has (fst st) k = true \/ In k stack
}.

(** How a call of [getLayer] may change the state: layers are added, never
    changed, and never for an id that was visited before the call. *)
Record LayerExt (st st' : RepoGraph.LState) : Prop := {
  le_visited : incl (snd st) (snd st');
  le_kept : forall k l, map_get (fst st) k = Some l ->
                        map_get (fst st') k = Some l;
  le_none : forall k, In k (snd st) -> map_get (fst st) k = None ->
                      map_get (fst st') k = None
}.

(** * Properties *)

Unset Implicit Arguments.

(** ** Facts about the containers *)

Section SetFacts.

Lemma includes_In (l : list string) (x : string) :
  includes l x = true <-> In x l.
Proof.
  unfold includes. rewrite existsb_exists. split.
  - intros [y [Hy Heq]]. apply String.eqb_eq in Heq. now subst.
  - intros H. exists x. split; [assumption | apply String.eqb_refl].
Qed.

Lemma includes_false (l : list string) (x : string) :
  includes l x = false <-> ~ In x l.
Proof.
  rewrite <- includes_In. destruct (includes l x); split; congruence.
Qed.

Lemma set_add_In (s : JsSet) (x y : string) :
  In y (set_add s x) <-> In y s \/ y = x.
Proof.
  unfold set_add, set_has. destruct (includes s x) eqn:E.
  - apply includes_In in E. split; [tauto | intros [H | ->]; assumption].
  - rewrite in_app_iff. simpl. split; intros [H | H]; auto.
    + destruct H as [H | []]; auto.
Qed.

Lemma set_add_NoDup (s : JsSet) (x : string) :
  NoDup s -> NoDup (set_add s x).
Proof.
  intros H. unfold set_add, set_has. destruct (includes s x) eqn:E; [assumption|].
  apply includes_false in E.
  apply NoDup_app; [assumption | repeat constructor; auto | ].
  intros a Ha [<- | []]. contradiction.
Qed.

Lemma fold_set_add_In (l : list string) (s : JsSet) (y : string) :
  In y (fold_left set_add l s) <-> In y s \/ In y l.
Proof.
  revert s. induction l as [| a l IH]; intros s; simpl.
  - tauto.
  - rewrite IH, set_add_In. intuition auto.
Qed.

Lemma fold_set_add_NoDup (l : list string) (s : JsSet) :
  NoDup s -> NoDup (fold_left set_add l s).
Proof.
  revert s. induction l as [| a l IH]; intros s H; simpl; auto using set_add_NoDup.
Qed.

Lemma set_of_list_In (l : list string) (y : string) :
  In y (set_of_list l) <-> In y l.
Proof. unfold set_of_list. rewrite fold_set_add_In. simpl. tauto. Qed.

Lemma set_of_list_NoDup (l : list string) : NoDup (set_of_list l).
Proof. apply fold_set_add_NoDup. constructor. Qed.

End SetFacts.

Section MapFacts.
Variable V : Type.
Implicit Types (m : JsMap V) (k : string) (v : V).

Lemma map_get_set_same m k v : map_get (map_set m k v) k = Some v.
Proof.
  induction m as [| [k' v'] m IH]; simpl.
  - now rewrite String.eqb_refl.
  - destruct (k' =? k) eqn:E; simpl; rewrite E; auto.
Qed.

Lemma map_get_set_other m k k' v :
  k <> k' -> map_get (map_set m k v) k' = map_get m k'.
Proof.
  intros Hne. induction m as [| [k0 v0] m IH]; simpl.
  - apply String.eqb_neq in Hne. now rewrite Hne.
  - destruct (k0 =? k) eqn:E; simpl.
    + apply String.eqb_eq in E. subst k0.
      apply String.eqb_neq in Hne. now rewrite Hne.
    + now rewrite IH.
Qed.

Lemma map_get_set m k k' v :
  map_get (map_set m k v) k' = if k =? k' then Some v else map_get m k'.
Proof.
  destruct (k =? k') eqn:E.
  - apply String.eqb_eq in E. subst. apply map_get_set_same.
  - apply String.eqb_neq in E. now apply map_get_set_other.
Qed.

Lemma map_has_keys m k : map_has m k = true <-> In k (map_keys m).
Proof.
  unfold map_has. induction m as [| [k' v'] m IH]; simpl.
  - split; [discriminate | tauto].
  - destruct (k' =? k) eqn:E.
    + apply String.eqb_eq in E. subst. tauto.
    + apply String.eqb_neq in E. rewrite IH. tauto.
Qed.

Lemma map_get_keys m k v : map_get m k = Some v -> In k (map_keys m).
Proof. intros H. apply map_has_keys. unfold map_has. now rewrite H. Qed.

Lemma map_get_none_keys m k : map_get m k = None <-> ~ In k (map_keys m).
Proof.
  rewrite <- map_has_keys. unfold map_has.
  destruct (map_get m k); split; congruence.
Qed.

Lemma map_keys_set m k v :
  map_keys (map_set m k v) =
  if map_has m k then map_keys m else map_keys m ++ [k].
Proof.
  unfold map_has. induction m as [| [k' v'] m IH]; simpl.
  - reflexivity.
  - destruct (k' =? k) eqn:E; simpl.
    + reflexivity.
    + rewrite IH. now destruct (map_get m k).
Qed.

Lemma map_keys_set_present m k v :
  In k (map_keys m) -> map_keys (map_set m k v) = map_keys m.
Proof.
  intros H. rewrite map_keys_set. apply map_has_keys in H. now rewrite H.
Qed.

Lemma map_set_length_present m k v :
  In k (map_keys m) -> List.length (map_set m k v) = List.length m.
Proof.
  intros H. apply map_keys_set_present with (v := v) in H.
  unfold map_keys in H. apply (f_equal (@List.length _)) in H.
  now rewrite !length_map in H.
Qed.

Lemma map_keys_set_In m k v k' :
  In k' (map_keys (map_set m k v)) <-> In k' (map_keys m) \/ k' = k.
Proof.
  rewrite map_keys_set. destruct (map_has m k) eqn:E.
  - apply map_has_keys in E. split; [tauto | intros [H | ->]; assumption].
  - rewrite in_app_iff. simpl. intuition auto.
Qed.

Lemma map_keys_set_NoDup m k v :
  NoDup (map_keys m) -> NoDup (map_keys (map_set m k v)).
Proof.
  intros H. rewrite map_keys_set. destruct (map_has m k) eqn:E; [assumption|].
  assert (~ In k (map_keys m)) by (rewrite <- map_has_keys; congruence).
  apply NoDup_app; [assumption | repeat constructor; auto | ].
  intros a Ha [<- | []]. contradiction.
Qed.

Lemma map_get_In m k v : map_get m k = Some v -> In (k, v) m.
Proof.
  induction m as [| [k' v'] m IH]; simpl; [discriminate|].
  destruct (k' =? k) eqn:E.
  - apply String.eqb_eq in E. intros [= ->]. subst. now left.
  - auto.
Qed.

Lemma map_In_get m k v :
  NoDup (map_keys m) -> In (k, v) m -> map_get m k = Some v.
Proof.
  induction m as [| [k' v'] m IH]; simpl; [tauto|].
  intros Hnd [Heq | Hin].
  - injection Heq as -> ->. now rewrite String.eqb_refl.
  - inversion Hnd as [| ? ? Hnotin Hnd']; subst.
    destruct (k' =? k) eqn:E.
    + apply String.eqb_eq in E. subst. exfalso. apply Hnotin.
      change (In (fst (k, v)) (map fst m)). now apply in_map.
    + auto.
Qed.

Lemma map_values_In m v :
  In v (map_values m) <-> exists k, In (k, v) m.
Proof.
  unfold map_values. rewrite in_map_iff. split.
  - intros [[k v'] [Heq Hin]]. simpl in Heq. subst. eauto.
  - intros [k Hin]. exists (k, v). auto.
Qed.

(** Assignments on a plain object. *)
Lemma obj_get_set m k k' v :
  map_get (obj_set m k v) k' =
  if k =? "__proto__" then map_get m k'
  else if k =? k' then Some v else map_get m k'.
Proof.
  unfold obj_set. destruct (k =? "__proto__"); [reflexivity|].
  apply map_get_set.
Qed.

Lemma obj_get_set_same m k v :
  k <> "__proto__" -> map_get (obj_set m k v) k = Some v.
Proof.
  intros H. rewrite obj_get_set. apply String.eqb_neq in H. rewrite H.
  now rewrite String.eqb_refl.
Qed.

Lemma obj_get_set_other m k k' v :
  k <> k' -> map_get (obj_set m k v) k' = map_get m k'.
Proof.
  intros H. rewrite obj_get_set. apply String.eqb_neq in H. rewrite H.
  now destruct (k =? "__proto__").
Qed.

Lemma obj_set_no_proto m k v :
  map_get m "__proto__" = None -> map_get (obj_set m k v) "__proto__" = None.
Proof.
  intros H. rewrite obj_get_set. now destruct (k =? "__proto__").
Qed.

End MapFacts.


(** ** The first two passes of [buildGraphFromCommits] *)

Section Linking.

Variable commitToBranches : BranchIndex.

Lemma find_app (A : Type) (f : A -> bool) (l1 l2 : list A) :
  find f (l1 ++ l2) =
  match find f l1 with Some x => Some x | None => find f l2 end.
Proof.
  induction l1 as [| a l1 IH]; simpl; [reflexivity|].
  destruct (f a); auto.
Qed.

Lemma find_none_iff (A : Type) (f : A -> bool) (l : list A) :
  find f l = None <-> forall x, In x l -> f x = false.
Proof.
  split.
  - apply find_none.
  - induction l as [| a l IH]; simpl; intros H; [reflexivity|].
    rewrite (H a (or_introl eq_refl)). apply IH. auto.
Qed.

Lemma with_childShas_id (n : Node) : with_childShas n (childShas n) = n.
Proof. now destruct n. Qed.

Lemma with_childShas_twice (n : Node) (a b : list string) :
  with_childShas (with_childShas n a) b = with_childShas n b.
Proof. reflexivity. Qed.

(** *** Pass 1 *)

Lemma createNodes_fold (cs : list Commit) :
  createNodes cs commitToBranches = fold_left (addNode commitToBranches) cs [].
Proof. reflexivity. Qed.

Lemma addNodes_keys (cs : list Commit) (m : NodeMap) (k : string) :
  In k (map_keys (fold_left (addNode commitToBranches) cs m)) <->
  In k (map_keys m) \/ In k (map sha cs).
Proof.
  revert m. induction cs as [| c cs IH]; intros m; simpl.
  - tauto.
  - rewrite IH. unfold addNode. rewrite map_keys_set_In.
    intuition auto.
Qed.

Lemma addNodes_NoDup (cs : list Commit) (m : NodeMap) :
  NoDup (map_keys m) -> NoDup (map_keys (fold_left (addNode commitToBranches) cs m)).
Proof.
  revert m. induction cs as [| c cs IH]; intros m H; simpl; [assumption|].
  apply IH. now apply map_keys_set_NoDup.
Qed.

Lemma addNodes_get (cs : list Commit) (m : NodeMap) (k : string) (n : Node) :
  map_get (fold_left (addNode commitToBranches) cs m) k = Some n ->
  map_get m k = Some n \/
  exists c, In c cs /\ sha c = k /\ n = nodeOfCommit commitToBranches c.
Proof.
  revert m. induction cs as [| c cs IH]; intros m; simpl; [now left|].
  intros H. apply IH in H. destruct H as [H | [c' [Hin [Hs Hn]]]].
  - unfold addNode in H. rewrite map_get_set in H.
    destruct (sha c =? k) eqn:E.
    + apply String.eqb_eq in E. injection H as <-. right. exists c. auto.
    + now left.
  - right. exists c'. auto.
Qed.

Lemma addNodes_get_unique (cs : list Commit) (m : NodeMap) (c : Commit) :
  NoDup (map sha cs) -> In c cs ->
  map_get (fold_left (addNode commitToBranches) cs m) (sha c) =
  Some (nodeOfCommit commitToBranches c).
Proof.
  revert m. induction cs as [| c' cs IH]; intros m Hnd Hin; simpl in *; [tauto|].
  inversion Hnd as [| ? ? Hnotin Hnd']; subst.
  destruct Hin as [-> | Hin].
  - destruct (map_get (fold_left (addNode commitToBranches) cs (addNode commitToBranches m c)) (sha c)) eqn:G.
    + apply addNodes_get in G. destruct G as [G | [c' [Hin' [Hs Hn]]]].
      * unfold addNode in G. rewrite map_get_set_same in G. now symmetry.
      * exfalso. apply Hnotin. rewrite <- Hs. now apply in_map.
    + apply map_get_none_keys in G. exfalso. apply G.
      apply addNodes_keys. left. unfold addNode.
      apply map_keys_set_In. now right.
  - now apply IH.
Qed.

(** What the first pass leaves in the map: one node per distinct sha,
    built from a commit of that sha. *)
Lemma createNodes_real (cs : list Commit) (k : string) (n : Node) :
  map_get (createNodes cs commitToBranches) k = Some n ->
  exists c, In c cs /\ sha c = k /\ n = nodeOfCommit commitToBranches c.
Proof.
  rewrite createNodes_fold. intros H. apply addNodes_get in H.
  destruct H as [H | H]; [discriminate | exact H].
Qed.

Lemma createNodes_has (cs : list Commit) (k : string) :
  In k (map sha cs) <->
  exists n, map_get (createNodes cs commitToBranches) k = Some n.
Proof.
  rewrite createNodes_fold. split.
  - intros H.
    destruct (map_get (fold_left (addNode commitToBranches) cs []) k) eqn:G; [eauto|].
    apply map_get_none_keys in G. exfalso. apply G.
    apply addNodes_keys. now right.
  - intros [n H]. apply map_get_keys in H. apply addNodes_keys in H.
    destruct H as [[] | H]. exact H.
Qed.

(** *** Pass 2 *)

Lemma pushChild_In (n : Node) (B B' : string) :
  In B' (childShas (pushChild n B)) <-> In B' (childShas n) \/ B' = B.
Proof.
  unfold pushChild. simpl. destruct (includes (childShas n) B) eqn:E.
  - apply includes_In in E. split; [tauto | intros [H | ->]; assumption].
  - rewrite in_app_iff. simpl. intuition auto.
Qed.

Lemma linkParent_spec (B : string) (inh : list string) (m : NodeMap)
      (ls : list Link) (p : string) :
  let n := match map_get m p with
           | Some n => n
           | None => placeholder p inh
           end in
  let r := linkParent B inh (m, ls) p in
  snd r = ls ++ [mkLink B p] /\
  map_get (fst r) p = Some (pushChild n B) /\
  (forall k, k <> p -> map_get (fst r) k = map_get m k) /\
  (NoDup (map_keys m) -> NoDup (map_keys (fst r))).
Proof.
  unfold linkParent, map_has. destruct (map_get m p) as [n0 |] eqn:G; simpl.
  - rewrite G. unfold pushChild.
    destruct (includes (childShas n0) B) eqn:I; simpl.
    + rewrite with_childShas_id. auto.
    + rewrite map_get_set_same.
      repeat split; auto using map_keys_set_NoDup.
      intros k Hk. now apply map_get_set_other.
  - rewrite map_get_set_same. simpl. rewrite map_get_set_same.
    repeat split; auto using map_keys_set_NoDup.
    intros k Hk. rewrite !map_get_set_other; auto.
Qed.

Lemma LinkInv_step (m0 : NodeMap) (E : list Edge)
      (acc : NodeMap * list Link) (B p : string) (inh : list string) :
  LinkInv commitToBranches m0 E acc ->
  inh = knownBranches commitToBranches B ->
  LinkInv commitToBranches m0 (E ++ [(B, p)]) (linkParent B inh acc p).
Proof.
  intros Inv ->. destruct acc as [m ls].
  pose proof (linkParent_spec B (knownBranches commitToBranches B) m ls p)
    as H.
  cbv zeta in H.
  remember (linkParent B (knownBranches commitToBranches B) (m, ls) p)
    as r eqn:Hr.
  clear Hr. destruct H as (Hls & Hp & Hother & Hnd).
  destruct Inv as [Hreal Hph Hchild Hexist Hlinks Hnodup]. simpl in *.
  constructor.
  - (* real nodes *)
    intros k n0 Hk. destruct (Hreal k n0 Hk) as [cs Hget].
    destruct (string_dec k p) as [-> | Hne].
    + rewrite Hp, Hget. eexists. unfold pushChild. reflexivity.
    + rewrite (Hother k Hne). eauto.
  - (* placeholders *)
    intros k n Hk Hget. rewrite find_app.
    destruct (string_dec k p) as [-> | Hne].
    + rewrite Hp in Hget. injection Hget as <-.
      destruct (map_get m p) as [n1 |] eqn:G.
      * destruct (Hph p n1 Hk G) as (B1 & cs & Hfind & ->).
        rewrite Hfind. exists B1. eexists. split; [reflexivity|].
        unfold pushChild. reflexivity.
      * assert (Hnone : find (targets p) E = None).
        { apply find_none_iff. intros [B1 p1] Hin. unfold targets. simpl.
          apply String.eqb_neq. intros ->.
          apply Hexist in Hin. unfold map_has in Hin. now rewrite G in Hin. }
        rewrite Hnone. simpl. unfold targets. simpl.
        rewrite String.eqb_refl. exists B. eexists. split; [reflexivity|].
        unfold pushChild. reflexivity.
    + rewrite (Hother k Hne) in Hget.
      destruct (Hph k n Hk Hget) as (B1 & cs & Hfind & ->).
      rewrite Hfind. eauto.
  - (* child sets *)
    intros k n Hget B'. rewrite in_app_iff. simpl.
    destruct (string_dec k p) as [-> | Hne].
    + rewrite Hp in Hget. injection Hget as <-. rewrite pushChild_In.
      destruct (map_get m p) as [n1 |] eqn:G.
      * rewrite (Hchild p n1 G B'). split.
        -- intros [H | ->]; auto.
        -- intros [H | [H | []]]; auto. injection H as ->. auto.
      * simpl. split.
        -- intros [[] | ->]. auto.
        -- intros [H | [H | []]].
           ++ apply Hexist in H. unfold map_has in H. now rewrite G in H.
           ++ injection H as ->. auto.
    + rewrite (Hother k Hne) in Hget. rewrite (Hchild k n Hget B'). split.
      * auto.
      * intros [H | [H | []]]; auto. injection H as _ ->. contradiction.
  - (* parents have nodes *)
    intros B' p' Hin. apply in_app_iff in Hin. simpl in Hin.
    unfold map_has. destruct (string_dec p' p) as [-> | Hne].
    + now rewrite Hp.
    + rewrite (Hother p' Hne). destruct Hin as [Hin | [Hin | []]].
      * apply Hexist in Hin. exact Hin.
      * injection Hin as _ ->. contradiction.
  - (* links *)
    rewrite Hls, Hlinks, map_app. reflexivity.
  - auto.
Qed.

Lemma LinkInv_parents (m0 : NodeMap) (B : string) (inh : list string)
      (ps : list string) (E : list Edge) (acc : NodeMap * list Link) :
  LinkInv commitToBranches m0 E acc ->
  inh = knownBranches commitToBranches B ->
  LinkInv commitToBranches m0 (E ++ map (fun p => (B, p)) ps)
          (fold_left (linkParent B inh) ps acc).
Proof.
  revert E acc. induction ps as [| p ps IH]; intros E acc Inv Hinh; simpl.
  - now rewrite app_nil_r.
  - change ((B, p) :: map (fun p0 => (B, p0)) ps)
      with ([(B, p)] ++ map (fun p0 => (B, p0)) ps).
    rewrite app_assoc. apply IH; [| assumption].
    now apply LinkInv_step.
Qed.

Lemma LinkInv_commits (cs0 cs : list Commit) (E : list Edge)
      (acc : NodeMap * list Link) :
  LinkInv commitToBranches (createNodes cs0 commitToBranches) E acc ->
  incl cs cs0 ->
  LinkInv commitToBranches (createNodes cs0 commitToBranches)
          (E ++ edges cs) (fold_left linkCommit cs acc).
Proof.
  revert E acc. induction cs as [| c cs IH]; intros E acc Inv Hincl; simpl.
  - now rewrite app_nil_r.
  - rewrite app_assoc. apply IH.
    + unfold linkCommit, edgesOf. apply LinkInv_parents; [assumption|].
      assert (Hc : In (sha c) (map sha cs0)).
      { apply in_map, Hincl. now left. }
      apply createNodes_has in Hc. destruct Hc as [n0 Hn0].
      destruct (li_real Inv _ Hn0) as [chs Hget]. rewrite Hget. simpl.
      apply createNodes_real in Hn0. destruct Hn0 as (c' & _ & Hs & ->).
      simpl. now rewrite Hs.
    + intros x Hx. apply Hincl. now right.
Qed.

Lemma LinkInv_initial (cs : list Commit) :
  LinkInv commitToBranches (createNodes cs commitToBranches) []
          (createNodes cs commitToBranches, []).
Proof.
  constructor; simpl.
  - intros k n0 H. exists (childShas n0). now rewrite with_childShas_id.
  - intros k n H1 H2. congruence.
  - intros k n H B. apply createNodes_real in H.
    destruct H as (c & _ & _ & ->). simpl. tauto.
  - intros B p [].
  - reflexivity.
  - rewrite createNodes_fold. apply addNodes_NoDup. constructor.
Qed.

(** The state after the second pass. *)
Theorem linkNodes_inv (cs : list Commit) :
  LinkInv commitToBranches (createNodes cs commitToBranches) (edges cs)
          (linkNodes cs (createNodes cs commitToBranches)).
Proof.
  unfold linkNodes.
  change (edges cs) with ([] ++ edges cs).
  apply LinkInv_commits; [apply LinkInv_initial | apply incl_refl].
Qed.

End Linking.

(** ** The third pass: branch propagation *)

Section Propagation.

Lemma with_branches_id (n : Node) : with_branches n (branches n) = n.
Proof. now destruct n. Qed.

Lemma Grow_refl (st : PState) : Grow st st.
Proof.
  constructor.
  - reflexivity.
  - apply incl_refl.
  - intros k n H. exists (branches n). rewrite with_branches_id.
    auto using incl_refl.
Qed.

Lemma Grow_trans (st1 st2 st3 : PState) :
  Grow st1 st2 -> Grow st2 st3 -> Grow st1 st3.
Proof.
  intros [K1 V1 N1] [K2 V2 N2]. constructor.
  - congruence.
  - eapply incl_tran; eauto.
  - intros k n H. destruct (N1 k n H) as (bs1 & G1 & I1 & U1).
    destruct (N2 k _ G1) as (bs2 & G2 & I2 & U2). simpl in *.
    exists bs2. repeat split.
    + exact G2.
    + eapply incl_tran; eauto.
    + intros Hc. assert (bs1 = branches n) as ->.
      { apply U1. destruct Hc as [Hc | Hc]; [now left | right].
        intros Hin. apply Hc. now apply V2. }
      apply U2. destruct Hc as [Hc | Hc]; [left | now right].
      now apply V1.
Qed.

Lemma Grow_back (st st' : PState) (k : string) (n' : Node) :
  Grow st st' -> map_get (fst st') k = Some n' ->
  exists n, map_get (fst st) k = Some n /\
            n' = with_branches n (branches n') /\
            incl (branches n) (branches n') /\
            (In k (snd st) \/ ~ In k (snd st') -> n' = n).
Proof.
  intros [K V N] H.
  assert (Hk : In k (map_keys (fst st))).
  { rewrite <- K. eapply map_get_keys; eauto. }
  apply map_has_keys in Hk. unfold map_has in Hk.
  destruct (map_get (fst st) k) as [n |] eqn:G; [| discriminate].
  destruct (N k n G) as (bs & G' & I & U). rewrite H in G'.
  injection G' as ->. exists n. simpl. repeat split; auto.
  intros Hc. rewrite (U Hc). apply with_branches_id.
Qed.

Lemma Fresh_refl (brs : list string) (st : PState) : Fresh brs st st.
Proof. intros k n' H1 H2. contradiction. Qed.

Lemma Fresh_trans (brs : list string) (st1 st2 st3 : PState) :
  Fresh brs st1 st2 -> Grow st2 st3 -> Fresh brs st2 st3 ->
  Fresh brs st1 st3.
Proof.
  intros F1 G F2 k n3 Hin3 Hnin1 Hget.
  destruct (in_dec string_dec k (snd st2)) as [Hin2 | Hnin2].
  - destruct (Grow_back _ _ k _ G Hget) as (n2 & G2 & _ & _ & U).
    rewrite (U (or_introl Hin2)).
    destruct (F1 k n2 Hin2 Hnin1 G2) as [I P]. split; [assumption|].
    intros p Hp. apply (g_visited G). auto.
  - exact (F2 k n3 Hin3 Hnin2 Hget).
Qed.

(** The loop over the parents, given the specification of the calls. *)
Lemma parents_loop_spec (fuel : nat) (brs : list string) :
  (forall s st st', propagateBranchInfo fuel s brs st = Some st' ->
     Grow st st' /\ Fresh brs st st' /\ (brs <> [] -> In s (snd st'))) ->
  forall ps st st',
    forEachM (fun p st1 => propagateBranchInfo fuel p brs st1) ps st = Some st' ->
    Grow st st' /\ Fresh brs st st' /\
    (brs <> [] -> forall p, In p ps -> In p (snd st')).
Proof.
  intros IH ps. induction ps as [| p ps IHps]; intros st st' H; simpl in H.
  - injection H as <-. split; [| split]; auto using Grow_refl, Fresh_refl.
    intros _ p [].
  - destruct (propagateBranchInfo fuel p brs st) as [st1 |] eqn:E;
      [| discriminate].
    destruct (IH _ _ _ E) as (G1 & F1 & S1).
    destruct (IHps _ _ H) as (G2 & F2 & S2).
    split; [| split].
    + eapply Grow_trans; eauto.
    + eapply Fresh_trans; eauto.
    + intros Hb q [<- | Hq]; [| now apply S2].
      apply (g_visited G2). now apply S1.
Qed.

Lemma branches_after_visit (brs old : list string) :
  incl old (fold_left set_add brs (set_of_list old)) /\
  incl brs (fold_left set_add brs (set_of_list old)).
Proof.
  split; intros x Hx; apply fold_set_add_In.
  - left. now apply set_of_list_In.
  - now right.
Qed.

(** The step that marks [s] visited and gives its node the branches. *)
Lemma visit_Grow (m : NodeMap) (vis : JsSet) (s : string) (node : Node)
      (bs : list string) :
  map_get m s = Some node -> ~ In s vis -> incl (branches node) bs ->
  Grow (m, vis) (map_set m s (with_branches node bs), set_add vis s).
Proof.
  intros G Hnin I. constructor; simpl.
  - apply map_keys_set_present. eapply map_get_keys; eauto.
  - intros x Hx. apply set_add_In. now left.
  - intros k n Hk. rewrite map_get_set.
    destruct (s =? k) eqn:E.
    + apply String.eqb_eq in E. subst k. rewrite G in Hk. injection Hk as <-.
      exists bs. repeat split; auto.
      intros [H | H]; [contradiction|]. exfalso. apply H.
      apply set_add_In. now right.
    + exists (branches n). rewrite with_branches_id. auto using incl_refl.
Qed.

(** Specification of [propagateBranchInfo]. *)
Lemma propagateBranchInfo_spec (fuel : nat) :
  forall s brs st st',
    propagateBranchInfo fuel s brs st = Some st' ->
    Grow st st' /\ Fresh brs st st' /\ (brs <> [] -> In s (snd st')).
Proof.
  induction fuel as [| fuel IH]; intros s brs st st' H; simpl in H;
    [discriminate|].
  destruct st as [m vis]. simpl in H.
  destruct (set_has vis s) eqn:Hs; simpl in H.
  { injection H as <-. split; [| split]; auto using Grow_refl, Fresh_refl.
    intros _. now apply includes_In. }
  destruct (List.length brs =? 0)%nat eqn:Hb.
  { injection H as <-. split; [| split]; auto using Grow_refl, Fresh_refl.
    intros Hne. apply Nat.eqb_eq in Hb. destruct brs; [congruence | discriminate]. }
  apply includes_false in Hs.
  destruct (map_get m s) as [node |] eqn:G.
  - destruct (branches_after_visit brs (branches node)) as [Iold Inew].
    set (eb := fold_left set_add brs (set_of_list (branches node))) in *.
    pose proof (visit_Grow m vis s node eb G Hs Iold) as G1.
    destruct (parents_loop_spec fuel brs (fun s0 st0 st0' => IH s0 brs st0 st0') _ _ _ H)
      as (G2 & F2 & S2).
    assert (Hin1 : In s (set_add vis s)) by (apply set_add_In; now right).
    split; [| split].
    + eapply Grow_trans; eauto.
    + intros k n' Hin' Hnin Hget. simpl in Hnin.
      destruct (string_dec k s) as [-> | Hne].
      * destruct (g_node G2 s (n := with_branches node eb)) as (bs & G' & _ & U).
        { simpl. apply map_get_set_same. }
        rewrite Hget in G'. injection G' as ->.
        rewrite (U (or_introl Hin1)). simpl. split; [assumption|].
        intros p Hp. apply S2; [| assumption].
        intros ->. apply Nat.eqb_neq in Hb. simpl in Hb. congruence.
      * apply (F2 k n' Hin'); [| assumption].
        simpl. intros Hc. apply set_add_In in Hc. tauto.
    + intros _. apply (g_visited G2). exact Hin1.
  - injection H as <-. split; [| split].
    + constructor; simpl.
      * reflexivity.
      * intros x Hx. apply set_add_In. now left.
      * intros k n Hk. exists (branches n). rewrite with_branches_id.
        auto using incl_refl.
    + intros k n' Hin' Hnin Hget. simpl in *.
      apply set_add_In in Hin'. destruct Hin' as [Hin' | ->];
        [contradiction | congruence].
    + intros _. simpl. apply set_add_In. now right.
Qed.

(** *** The walks terminate within the fuel given *)

Lemma filter_length_mono (A : Type) (f g : A -> bool) (l : list A) :
  (forall x, f x = true -> g x = true) ->
  List.length (filter f l) <= List.length (filter g l).
Proof.
  intros H. induction l as [| a l IH]; simpl; [lia|].
  destruct (f a) eqn:F.
  - rewrite (H a F). simpl. lia.
  - destruct (g a); simpl; lia.
Qed.

Lemma filter_length_strict (A : Type) (f g : A -> bool) (l : list A) (a : A) :
  (forall x, f x = true -> g x = true) ->
  In a l -> f a = false -> g a = true ->
  List.length (filter f l) < List.length (filter g l).
Proof.
  intros H Hin Hf Hg. induction l as [| b l IH]; simpl; [contradiction|].
  pose proof (filter_length_mono A f g l H) as Hle.
  destruct Hin as [-> | Hin].
  - rewrite Hf, Hg. simpl. lia.
  - specialize (IH Hin). destruct (f b) eqn:F.
    + rewrite (H b F). simpl. lia.
    + destruct (g b); simpl; lia.
Qed.

Lemma unvisited_Grow (st st' : PState) :
  Grow st st' -> unvisited st' <= unvisited st.
Proof.
  intros [K V _]. unfold unvisited. rewrite K. apply filter_length_mono.
  intros x Hx. apply negb_true_iff in Hx. apply negb_true_iff.
  apply includes_false in Hx. apply includes_false. auto.
Qed.

Lemma unvisited_visit (m m' : NodeMap) (vis : JsSet) (s : string) :
  map_keys m' = map_keys m -> In s (map_keys m) -> ~ In s vis ->
  unvisited (m', set_add vis s) < unvisited (m, vis).
Proof.
  intros K Hin Hnin. unfold unvisited. simpl. rewrite K.
  apply filter_length_strict with (a := s); auto.
  - intros x Hx. apply negb_true_iff in Hx. apply negb_true_iff.
    apply includes_false in Hx. apply includes_false.
    intros Hc. apply Hx. apply set_add_In. now left.
  - apply negb_false_iff. apply includes_In. apply set_add_In. now right.
  - apply negb_true_iff. now apply includes_false.
Qed.

Lemma unvisited_le_length (st : PState) :
  unvisited st <= List.length (fst st).
Proof.
  unfold unvisited. etransitivity; [apply List.filter_length_le |].
  unfold map_keys. now rewrite length_map.
Qed.

Lemma parents_loop_total (fuel : nat) (brs : list string) :
  (forall s st, unvisited st < fuel ->
     exists st', propagateBranchInfo fuel s brs st = Some st') ->
  forall ps st, unvisited st < fuel ->
    exists st',
      forEachM (fun p st1 => propagateBranchInfo fuel p brs st1) ps st = Some st'.
Proof.
  intros IH ps. induction ps as [| p ps IHps]; intros st Hlt; simpl.
  - eauto.
  - destruct (IH p st Hlt) as [st1 E]. rewrite E.
    apply IHps. apply propagateBranchInfo_spec in E.
    destruct E as (G & _). apply unvisited_Grow in G. lia.
Qed.

(** Fuel above the number of unvisited keys is never exhausted. *)
Theorem propagateBranchInfo_total (fuel : nat) :
  forall s brs st, unvisited st < fuel ->
    exists st', propagateBranchInfo fuel s brs st = Some st'.
Proof.
  induction fuel as [| fuel IH]; intros s brs st Hlt; [lia|].
  destruct st as [m vis]. simpl.
  destruct (set_has vis s) eqn:Hs; simpl; [eauto|].
  destruct (List.length brs =? 0)%nat; [eauto|].
  destruct (map_get m s) as [node |] eqn:G; [| eauto].
  apply parents_loop_total; [intros; now apply IH|].
  apply includes_false in Hs.
  assert (unvisited
            (map_set m s
               (with_branches node
                  (fold_left set_add brs (set_of_list (branches node)))),
             set_add vis s) < unvisited (m, vis)); [| lia].
  apply unvisited_visit; auto.
  - apply map_keys_set_present. eapply map_get_keys; eauto.
  - eapply map_get_keys; eauto.
Qed.

(** *** The seeding loop *)

Lemma fuel_enough (m : NodeMap) (st : PState) :
  Grow (m, []) st -> unvisited st < S (List.length m).
Proof.
  intros G. pose proof (unvisited_Grow _ _ G) as H1.
  pose proof (unvisited_le_length (m, [])) as H2. simpl in H2. lia.
Qed.

(** In the seeding loop the call never runs out of fuel. *)
Lemma propagateFrom_total (m : NodeMap) (st : PState) (s : string)
      (brs : list string) :
  Grow (m, []) st ->
  exists st', propagateBranchInfo (S (List.length m)) s brs st = Some st'.
Proof.
  intros G. apply propagateBranchInfo_total. now apply fuel_enough.
Qed.

Lemma propagateFrom_Grow (fuel : nat) (st : PState) (s : string) :
  Grow st (propagateFrom fuel st s).
Proof.
  unfold propagateFrom. destruct (map_get (fst st) s) as [node |];
    [| apply Grow_refl].
  destruct (0 <? List.length (branches node))%nat; [| apply Grow_refl].
  destruct (propagateBranchInfo fuel s (branches node) st) as [st' |] eqn:E;
    [| apply Grow_refl].
  now apply propagateBranchInfo_spec in E.
Qed.


Lemma SeedInv_step (m : NodeMap) (done : list string) (st : PState)
      (s : string) :
  SeedInv m done st ->
  SeedInv m (done ++ [s]) (propagateFrom (S (List.length m)) st s).
Proof.
  intros [G C Sd].
  pose proof (propagateFrom_Grow (S (List.length m)) st s) as G'.
  unfold propagateFrom in *.
  destruct (map_get (fst st) s) as [node |] eqn:Hn.
  2:{ constructor; auto. intros k n Hin Hk Hb.
      apply in_app_iff in Hin. destruct Hin as [Hin | [<- | []]]; eauto.
      congruence. }
  destruct (0 <? List.length (branches node))%nat eqn:Hlen.
  2:{ constructor; auto. intros k n Hin Hk Hb.
      apply in_app_iff in Hin. destruct Hin as [Hin | [<- | []]]; eauto.
      rewrite Hn in Hk. injection Hk as <-. apply Nat.ltb_ge in Hlen.
      destruct (branches node); [congruence | simpl in Hlen; lia]. }
  destruct (propagateBranchInfo_total (S (List.length m)) s (branches node) st
              (fuel_enough m st G)) as [st' E].
  rewrite E in *. apply propagateBranchInfo_spec in E.
  destruct E as (_ & F & Hs).
  assert (Hne : branches node <> []).
  { apply Nat.ltb_lt in Hlen. intros Hc. rewrite Hc in Hlen. simpl in Hlen. lia. }
  constructor.
  - eapply Grow_trans; eauto.
  - intros k n Hin Hk.
    destruct (in_dec string_dec k (snd st)) as [Hold | Hnew].
    + destruct (Grow_back _ _ k _ G' Hk) as (n1 & G1 & _ & _ & U).
      rewrite (U (or_introl Hold)). destruct (C k n1 Hold G1) as [Hb Hp].
      split; [assumption|]. intros p Hp'. apply (g_visited G'). auto.
    + destruct (F k n Hin Hnew Hk) as [I P]. split; [| assumption].
      intros Hc. rewrite Hc in I. destruct (branches node) as [| b bs];
        [congruence|]. apply (I b). now left.
  - intros k n Hin Hk Hb. apply in_app_iff in Hin.
    destruct Hin as [Hin | [<- | []]]; [| now apply Hs].
    destruct (in_dec string_dec k (snd st')) as [Hv | Hnv]; [assumption|].
    destruct (Grow_back _ _ k _ G' Hk) as (n1 & G1 & _ & _ & U).
    rewrite (U (or_intror Hnv)) in Hb.
    apply (g_visited G'). eauto.
Qed.

Lemma SeedInv_fold (m : NodeMap) (l done : list string) (st : PState) :
  SeedInv m done st ->
  SeedInv m (done ++ l) (fold_left (propagateFrom (S (List.length m))) l st).
Proof.
  revert done st. induction l as [| s l IH]; intros done st Inv; simpl.
  - now rewrite app_nil_r.
  - change (s :: l) with ([s] ++ l). rewrite app_assoc. apply IH.
    now apply SeedInv_step.
Qed.

(** The state after the third pass. *)
Theorem propagateAll_inv (m : NodeMap) :
  SeedInv m (map_keys m) (propagateAll m).
Proof.
  unfold propagateAll. change (map_keys m) with ([] ++ map_keys m) at 1.
  apply SeedInv_fold. constructor.
  - apply Grow_refl.
  - intros k n [].
  - intros k n [].
Qed.


End Propagation.

(** ** The graph [buildGraphFromCommits] returns *)

Section BuiltGraph.

Variable cs : list Commit.
Variable commitToBranches : BranchIndex.

Local Abbreviation m2 := (linkedNodes cs commitToBranches).
Local Abbreviation m3 := (propagatedNodes cs commitToBranches).
Local Abbreviation g := (buildGraphFromCommits cs commitToBranches).

Lemma build_nodes : nodes g = map classify (map_values m3).
Proof.
  unfold buildGraphFromCommits, propagatedNodes, linkedNodes.
  destruct (linkNodes cs (createNodes cs commitToBranches)) as [m ls].
  simpl. now destruct (propagateAll m).
Qed.

Lemma build_links : links g = map linkOf (edges cs).
Proof.
  unfold buildGraphFromCommits.
  pose proof (li_links (linkNodes_inv commitToBranches cs)) as H.
  destruct (linkNodes cs (createNodes cs commitToBranches)) as [m ls].
  simpl in *. now destruct (propagateAll m).
Qed.

Lemma edges_In (B p : string) :
  In (B, p) (edges cs) <-> exists c, In c cs /\ sha c = B /\ In p (parents c).
Proof.
  unfold edges, edgesOf. rewrite in_flat_map. split.
  - intros (c & Hc & Hin). apply in_map_iff in Hin.
    destruct Hin as (q & Heq & Hq). injection Heq as <- <-. eauto.
  - intros (c & Hc & <- & Hp). exists c. split; [assumption|].
    apply in_map_iff. eauto.
Qed.

(** The second pass, read off the invariant. *)

Lemma linked_real (k : string) :
  In k (map sha cs) ->
  exists c chs, In c cs /\ sha c = k /\
    map_get m2 k = Some (with_childShas (nodeOfCommit commitToBranches c) chs).
Proof.
  intros Hk. apply (createNodes_has commitToBranches) in Hk.
  destruct Hk as [n0 Hn0].
  destruct (li_real (linkNodes_inv commitToBranches cs) _ Hn0) as [chs H].
  apply createNodes_real in Hn0. destruct Hn0 as (c & Hc & Hs & ->).
  exists c, chs. auto.
Qed.

Lemma linked_real_unique (c : Commit) :
  NoDup (map sha cs) -> In c cs ->
  exists chs,
    map_get m2 (sha c) =
    Some (with_childShas (nodeOfCommit commitToBranches c) chs).
Proof.
  intros Hnd Hc.
  pose proof (addNodes_get_unique commitToBranches cs [] c Hnd Hc) as H0.
  rewrite <- createNodes_fold in H0.
  exact (li_real (linkNodes_inv commitToBranches cs) _ H0).
Qed.

Lemma find_targets_edgesOf (c : Commit) (p : string) :
  find (targets p) (edgesOf c) =
  if includes (parents c) p then Some (sha c, p) else None.
Proof.
  unfold edgesOf, includes, targets.
  induction (parents c) as [| q qs IH]; simpl; [reflexivity|].
  rewrite (String.eqb_sym p q). destruct (q =? p) eqn:E; simpl.
  - apply String.eqb_eq in E. now subst.
  - exact IH.
Qed.

Lemma find_targets_edges (l : list Commit) (p : string) :
  find (targets p) (edges l) =
  match discoverer l p with
  | Some d => Some (sha d, p)
  | None => None
  end.
Proof.
  unfold discoverer. induction l as [| c l IH]; simpl; [reflexivity|].
  rewrite find_app, find_targets_edgesOf.
  destruct (includes (parents c) p); [reflexivity | exact IH].
Qed.

Lemma linked_placeholder (k : string) (n : Node) :
  ~ In k (map sha cs) -> map_get m2 k = Some n ->
  exists d chs, discoverer cs k = Some d /\
    n = with_childShas
          (placeholder k (knownBranches commitToBranches (sha d))) chs.
Proof.
  intros Hk Hn.
  assert (H0 : map_get (createNodes cs commitToBranches) k = None).
  { destruct (map_get (createNodes cs commitToBranches) k) eqn:E; [| reflexivity].
    exfalso. apply Hk. apply (createNodes_has commitToBranches). eauto. }
  destruct (li_placeholder (linkNodes_inv commitToBranches cs) _ H0 Hn)
    as (B & chs & Hfind & ->).
  rewrite find_targets_edges in Hfind.
  destruct (discoverer cs k) as [d |]; [| discriminate].
  injection Hfind as <-. eauto.
Qed.

Lemma linked_children (k : string) (n : Node) (B : string) :
  map_get m2 k = Some n ->
  (In B (childShas n) <-> exists c, In c cs /\ sha c = B /\ In k (parents c)).
Proof.
  intros Hn. rewrite <- edges_In.
  exact (li_child (linkNodes_inv commitToBranches cs) _ Hn B).
Qed.

Lemma linked_parent_exists (c : Commit) (p : string) :
  In c cs -> In p (parents c) -> exists n, map_get m2 p = Some n.
Proof.
  intros Hc Hp.
  assert (He : In (sha c, p) (edges cs)) by (apply edges_In; eauto).
  apply (li_exist (linkNodes_inv commitToBranches cs)) in He.
  unfold map_has in He. fold m2 in He.
  destruct (map_get m2 p); [eauto | discriminate].
Qed.

Lemma linked_id (k : string) (n : Node) : map_get m2 k = Some n -> id n = k.
Proof.
  intros Hn. destruct (in_dec string_dec k (map sha cs)) as [Hk | Hk].
  - destruct (linked_real k Hk) as (c & chs & _ & Hs & H).
    rewrite H in Hn. injection Hn as <-. exact Hs.
  - destruct (linked_placeholder k n Hk Hn) as (d & chs & _ & ->). reflexivity.
Qed.

Lemma linked_parents_closed (k : string) (n : Node) (p : string) :
  map_get m2 k = Some n -> In p (parentShas n) ->
  exists np, map_get m2 p = Some np.
Proof.
  intros Hn Hp. destruct (in_dec string_dec k (map sha cs)) as [Hk | Hk].
  - destruct (linked_real k Hk) as (c & chs & Hc & Hs & H).
    rewrite H in Hn. injection Hn as <-. simpl in Hp.
    eapply linked_parent_exists; eauto.
  - destruct (linked_placeholder k n Hk Hn) as (d & chs & _ & ->).
    simpl in Hp. contradiction.
Qed.

Lemma linked_NoDup : NoDup (map_keys m2).
Proof. exact (li_nodup (linkNodes_inv commitToBranches cs)). Qed.

(** The third pass on top of it. *)

Lemma propagated_inv : SeedInv m2 (map_keys m2) (propagateAll m2).
Proof. apply propagateAll_inv. Qed.

Lemma propagated_back (k : string) (n3 : Node) :
  map_get m3 k = Some n3 ->
  exists n2, map_get m2 k = Some n2 /\
             n3 = with_branches n2 (branches n3) /\
             incl (branches n2) (branches n3).
Proof.
  intros H.
  destruct (Grow_back _ _ k n3 (si_grow propagated_inv) H)
    as (n2 & H2 & E & I & _).
  eauto.
Qed.

Lemma propagated_forth (k : string) (n2 : Node) :
  map_get m2 k = Some n2 ->
  exists bs, map_get m3 k = Some (with_branches n2 bs) /\
             incl (branches n2) bs.
Proof.
  intros H.
  destruct (g_node (si_grow propagated_inv) k H) as (bs & H3 & I & _).
  eauto.
Qed.

Lemma propagated_keys : map_keys m3 = map_keys m2.
Proof. exact (g_keys (si_grow propagated_inv)). Qed.

Lemma propagated_id (k : string) (n : Node) :
  In (k, n) m3 -> id n = k.
Proof.
  intros Hin.
  assert (Hnd : NoDup (map_keys m3)) by (rewrite propagated_keys; apply linked_NoDup).
  apply map_In_get in Hin; [| exact Hnd].
  destruct (propagated_back k n Hin) as (n2 & H2 & -> & _).
  simpl. eapply linked_id; eauto.
Qed.

(** The fourth pass and the node list. *)

Lemma find_by_id (m : NodeMap) (k : string) :
  (forall k' n, In (k', n) m -> id n = k') ->
  find (fun n => id n =? k) (map classify (map_values m)) =
  option_map classify (map_get m k).
Proof.
  induction m as [| [k' n] m IH]; intros Hid; simpl; [reflexivity|].
  rewrite (Hid k' n (or_introl eq_refl)).
  destruct (k' =? k); [reflexivity|].
  apply IH. intros k0 n0 H0. apply Hid. now right.
Qed.

Lemma node_at_build (k : string) :
  node_at g k = option_map classify (map_get m3 k).
Proof.
  unfold node_at. rewrite build_nodes. apply find_by_id.
  exact propagated_id.
Qed.

Lemma node_in_build (n : Node) :
  In n (nodes g) <-> node_at g (id n) = Some n.
Proof.
  rewrite node_at_build, build_nodes.
  assert (Hnd : NoDup (map_keys m3)) by (rewrite propagated_keys; apply linked_NoDup).
  split.
  - intros H. apply in_map_iff in H. destruct H as (n3 & <- & H3).
    apply map_values_In in H3. destruct H3 as [k H3].
    pose proof (propagated_id k n3 H3) as Hid.
    apply map_In_get in H3; [| exact Hnd]. simpl. rewrite Hid, H3. reflexivity.
  - intros H. destruct (map_get m3 (id n)) as [n3 |] eqn:E; [| discriminate].
    simpl in H. injection H as <-. apply in_map. apply map_values_In.
    exists (id (classify n3)). now apply map_get_In.
Qed.

(** No two nodes of the graph share an id. *)
Lemma node_ids_distinct : NoDup (map id (nodes g)).
Proof.
  rewrite build_nodes.
  assert (E : map id (map classify (map_values m3)) = map_keys m3).
  { unfold map_values, map_keys. rewrite !map_map. apply map_ext_in.
    intros [k n] Hin. simpl. now apply propagated_id. }
  rewrite E, propagated_keys. apply linked_NoDup.
Qed.

(** A node of the graph, traced back through the passes. *)
Lemma node_at_inv (k : string) (n : Node) :
  node_at g k = Some n ->
  exists n2, map_get m2 k = Some n2 /\ map_get m3 k = Some (with_branches n2 (branches n)) /\
    n = classify (with_branches n2 (branches n)) /\
    incl (branches n2) (branches n).
Proof.
  rewrite node_at_build. intros H.
  destruct (map_get m3 k) as [n3 |] eqn:E; [| discriminate].
  simpl in H. injection H as <-.
  destruct (propagated_back k n3 E) as (n2 & H2 & E3 & I).
  exists n2. simpl. rewrite <- E3. auto.
Qed.

End BuiltGraph.

Section GraphFacts.

Variable cs : list Commit.
Variable commitToBranches : BranchIndex.

Local Abbreviation m2 := (linkedNodes cs commitToBranches).
Local Abbreviation m3 := (propagatedNodes cs commitToBranches).
Local Abbreviation g := (buildGraphFromCommits cs commitToBranches).

(** Every parent id a commit names has a node. *)
Lemma parent_has_node (c : Commit) (p : string) :
  In c cs -> In p (parents c) ->
  exists n, node_at g p = Some n /\ In n (nodes g) /\ id n = p.
Proof.
  intros Hc Hp.
  destruct (linked_parent_exists cs commitToBranches c p Hc Hp) as [n2 H2].
  destruct (propagated_forth cs commitToBranches p n2 H2) as (bs & H3 & _).
  assert (Hat : node_at g p = Some (classify (with_branches n2 bs))).
  { rewrite node_at_build, H3. reflexivity. }
  assert (Hid : id (classify (with_branches n2 bs)) = p).
  { simpl. eapply linked_id; eauto. }
  eexists. split; [exact Hat|]. split; [| exact Hid].
  apply node_in_build. now rewrite Hid.
Qed.

(** A node whose id is the sha of no commit is a placeholder: it has the
    fields the second pass gave it, and at least the branches of the
    child that discovered it. *)
Lemma placeholder_node (n : Node) :
  In n (nodes g) -> ~ In (id n) (map sha cs) ->
  author n = "" /\ message n = "(parent)" /\ date n = "" /\
  parentShas n = [] /\ isMerge n = false /\
  exists d n2,
    discoverer cs (id n) = Some d /\
    map_get m2 (id n) = Some n2 /\
    branches n2 = knownBranches commitToBranches (sha d) /\
    incl (branches n2) (branches n).
Proof.
  intros Hin Hk. apply node_in_build in Hin.
  destruct (node_at_inv cs commitToBranches (id n) n Hin)
    as (n2 & H2 & _ & En & I).
  destruct (linked_placeholder cs commitToBranches (id n) n2 Hk H2)
    as (d & chs & Hd & E2).
  rewrite En. rewrite E2 in *. simpl. repeat split; try reflexivity.
  exists d. eexists. repeat split; [exact Hd | exact H2 | | exact I].
  reflexivity.
Qed.

(** Parent and child adjacency agree when the commits have distinct shas. *)
Lemma adjacency_agrees (A B : string) (nA nB : Node) :
  NoDup (map sha cs) ->
  node_at g A = Some nA -> node_at g B = Some nB ->
  (In A (parentShas nB) <-> In B (childShas nA)).
Proof.
  intros Hnd HA HB.
  destruct (node_at_inv cs commitToBranches A nA HA) as (a2 & Ha2 & _ & EA & _).
  destruct (node_at_inv cs commitToBranches B nB HB) as (b2 & Hb2 & _ & EB & _).
  assert (Hc : In B (childShas nA) <->
               exists c, In c cs /\ sha c = B /\ In A (parents c)).
  { rewrite EA. simpl. exact (linked_children cs commitToBranches A a2 B Ha2). }
  rewrite Hc. rewrite EB. simpl.
  destruct (in_dec string_dec B (map sha cs)) as [Hk | Hk].
  - apply in_map_iff in Hk. destruct Hk as (c & Hs & Hin).
    destruct (linked_real_unique cs commitToBranches c Hnd Hin) as [chs H].
    rewrite Hs, Hb2 in H. injection H as ->. simpl. split.
    + intros HA'. exists c. auto.
    + intros (c' & Hin' & Hs' & HA').
      destruct (linked_real_unique cs commitToBranches c' Hnd Hin') as [chs' H'].
      rewrite Hs', Hb2 in H'.
      assert (E : parents c = parents c').
      { change (parents c) with
          (parentShas (with_childShas (nodeOfCommit commitToBranches c) chs)).
        change (parents c') with
          (parentShas (with_childShas (nodeOfCommit commitToBranches c') chs')).
        congruence. }
      now rewrite E.
  - destruct (linked_placeholder cs commitToBranches B b2 Hk Hb2)
      as (d & chs & _ & ->). simpl. split; [contradiction|].
    intros (c & Hin & Hs & _). exfalso. apply Hk. rewrite <- Hs.
    now apply in_map.
Qed.

(** Parents of a node of the graph are nodes of the graph. *)
Lemma node_parents_exist (k : string) (n : Node) (p : string) :
  node_at g k = Some n -> In p (parentShas n) ->
  exists np, node_at g p = Some np.
Proof.
  intros Hn Hp.
  destruct (node_at_inv cs commitToBranches k n Hn) as (n2 & H2 & _ & En & _).
  rewrite En in Hp. simpl in Hp.
  destruct (linked_parents_closed cs commitToBranches k n2 p H2 Hp) as [p2 Hp2].
  destruct (propagated_forth cs commitToBranches p p2 Hp2) as (bs & H3 & _).
  rewrite node_at_build, H3. simpl. eauto.
Qed.





End GraphFacts.

(** ** [ensureParents] *)

Section Expansion.

Lemma map_set_absent (V : Type) (m : JsMap V) (k : string) (v : V) :
  ~ In k (map_keys m) -> map_set m k v = m ++ [(k, v)].
Proof.
  induction m as [| [k' v'] m IH]; simpl; intros H; [reflexivity|].
  destruct (k' =? k) eqn:E.
  - apply String.eqb_eq in E. subst. tauto.
  - rewrite IH; tauto.
Qed.

Lemma indexBySha_fold (cs : list Commit) (m : CommitMap) :
  NoDup (map_keys m ++ map sha cs) ->
  fold_left (fun m c => map_set m (sha c) c) cs m = m ++ map entryOf cs.
Proof.
  revert m. induction cs as [| c cs IH]; intros m Hnd; simpl.
  - now rewrite app_nil_r.
  - assert (Hc : ~ In (sha c) (map_keys m)).
    { intros Hin. apply NoDup_remove_2 in Hnd. apply Hnd.
      apply in_app_iff. now left. }
    rewrite (map_set_absent _ m (sha c) c Hc). rewrite IH.
    + now rewrite <- app_assoc.
    + unfold map_keys. rewrite map_app. simpl. rewrite <- app_assoc. exact Hnd.
Qed.

Lemma indexBySha_distinct (cs : list Commit) :
  NoDup (map sha cs) -> indexBySha cs = map entryOf cs.
Proof. intros H. unfold indexBySha. now rewrite indexBySha_fold. Qed.

Lemma keys_entries (cs : list Commit) : map_keys (map entryOf cs) = map sha cs.
Proof. unfold map_keys. rewrite map_map. reflexivity. Qed.

Lemma values_entries (cs : list Commit) : map_values (map entryOf cs) = cs.
Proof. unfold map_values. rewrite map_map. apply map_id. Qed.

(** The keys of an index are distinct, whatever the list. *)
Lemma indexBySha_keys (cs : list Commit) (m : CommitMap) :
  NoDup (map_keys m) -> (forall k c, In (k, c) m -> sha c = k) ->
  let r := fold_left (fun m c => map_set m (sha c) c) cs m in
  NoDup (map_keys r) /\ (forall k c, In (k, c) r -> sha c = k).
Proof.
  revert m. induction cs as [| c cs IH]; intros m Hnd Hk; simpl; [auto|].
  apply IH.
  - now apply map_keys_set_NoDup.
  - intros k c' Hin.
    assert (Hnd' : NoDup (map_keys (map_set m (sha c) c)))
      by now apply map_keys_set_NoDup.
    apply map_In_get in Hin; [| exact Hnd'].
    rewrite map_get_set in Hin. destruct (sha c =? k) eqn:E.
    + apply String.eqb_eq in E. now injection Hin as <-.
    + apply map_get_In in Hin. eauto.
Qed.


(** *** The batches cover the pool, and the [maxFetch] break never cuts *)

Lemma slices_concat (fuel : nat) (l : list string) :
  List.length l <= fuel -> List.concat (slices fuel l) = l.
Proof.
  revert l. induction fuel as [| fuel IH]; intros l Hl.
  - destruct l; [reflexivity | simpl in Hl; lia].
  - destruct l as [| a l]; [reflexivity|].
    cbn [slices List.concat]. rewrite IH.
    + apply firstn_skipn.
    + rewrite length_skipn. simpl in *. unfold batchSize. lia.
Qed.

Lemma storeAll_app (getCommit : string -> option Commit)
      (acc : CommitMap * nat) (l1 l2 : list string) :
  storeAll getCommit acc (l1 ++ l2) =
  storeAll getCommit (storeAll getCommit acc l1) l2.
Proof. unfold storeAll. now rewrite map_app, fold_left_app. Qed.

Lemma storeAll_count (getCommit : string -> option Commit)
      (ids : list string) (acc : CommitMap * nat) :
  snd (storeAll getCommit acc ids) <= snd acc + List.length ids.
Proof.
  unfold storeAll. revert acc. induction ids as [| i ids IH]; intros acc; simpl.
  - lia.
  - etransitivity; [apply IH|]. unfold storeResult.
    destruct (getCommit i) as [c |]; [| lia].
    destruct (map_has (fst acc) (sha c)); simpl; lia.
Qed.

Lemma fetchBatches_all (getCommit : string -> option Commit) (maxFetch : nat)
      (batches : list (list string)) (acc : CommitMap * nat) :
  snd acc + List.length (List.concat batches) <= maxFetch ->
  fetchBatches getCommit maxFetch batches acc =
  storeAll getCommit acc (List.concat batches).
Proof.
  revert acc. induction batches as [| b bs IH]; intros acc Hle; simpl.
  - reflexivity.
  - rewrite storeAll_app. fold (storeAll getCommit acc b).
    cbn [List.concat] in Hle. rewrite length_app in Hle.
    pose proof (storeAll_count getCommit b acc) as Hc.
    destruct (maxFetch <=? snd (storeAll getCommit acc b))%nat eqn:E.
    + apply Nat.leb_le in E.
      assert (Hnil : List.concat bs = []).
      { destruct (List.concat bs); [reflexivity | simpl in Hle; lia]. }
      now rewrite Hnil.
    + apply IH. lia.
Qed.

(** *** What is stored *)

Lemma storeAll_spec (getCommit : string -> option Commit) (ids : list string)
      (m : CommitMap) (f : nat) :
  NoDup (map_keys m) ->
  exists extra,
    fst (storeAll getCommit (m, f) ids) = m ++ map entryOf extra /\
    NoDup (map_keys m ++ map sha extra) /\
    (forall c, In c extra -> exists s, In s ids /\ getCommit s = Some c) /\
    (forall s c, In s ids -> getCommit s = Some c ->
                 In (sha c) (map_keys m ++ map sha extra)).
Proof.
  revert m f. induction ids as [| i ids IH]; intros m f Hnd.
  - exists []. simpl. rewrite !app_nil_r. repeat split; auto.
    + intros c [].
    + intros s c [].
  - assert (Hstep : storeAll getCommit (m, f) (i :: ids) =
                    storeAll getCommit (storeResult (m, f) (getCommit i)) ids)
      by reflexivity.
    rewrite Hstep. unfold storeResult. cbn [fst snd].
    destruct (getCommit i) as [c |] eqn:Gi.
    + destruct (map_has m (sha c)) eqn:Hhas.
      * destruct (IH m f Hnd) as (extra & E & N & A & B).
        exists extra. repeat split; auto.
        -- intros c' Hc'. destruct (A c' Hc') as (s & Hs & Gs).
           exists s. split; [now right | assumption].
        -- intros s c' [<- | Hs] Gs; [| now apply (B s c')].
           rewrite Gi in Gs. injection Gs as <-.
           apply in_app_iff. left. now apply map_has_keys.
      * assert (Hc : ~ In (sha c) (map_keys m)).
        { rewrite <- map_has_keys. congruence. }
        rewrite (map_set_absent _ m (sha c) c Hc).
        destruct (IH (m ++ [(sha c, c)]) (S f)) as (extra & E & N & A & B).
        { unfold map_keys. rewrite map_app. simpl.
          apply NoDup_app; [assumption | repeat constructor; auto |].
          intros a Ha [<- | []]. contradiction. }
        exists (c :: extra).
        unfold map_keys in *. rewrite map_app in N, B. simpl in N, B.
        rewrite <- app_assoc in N, B. simpl in N, B.
        repeat split.
        -- etransitivity; [exact E|]. rewrite <- app_assoc. reflexivity.
        -- exact N.
        -- intros c' [<- | Hc']; [exists i; split; [now left | assumption]|].
           destruct (A c' Hc') as (s & Hs & Gs).
           exists s. split; [now right | assumption].
        -- intros s c' [<- | Hs] Gs; [| now apply (B s c')].
           rewrite Gi in Gs. injection Gs as <-.
           apply in_app_iff. right. now left.
    + destruct (IH m f Hnd) as (extra & E & N & A & B).
      exists extra. repeat split; auto.
      * intros c' Hc'. destruct (A c' Hc') as (s & Hs & Gs).
           exists s. split; [now right | assumption].
      * intros s c' [<- | Hs] Gs; [congruence | now apply (B s c')].
Qed.

Lemma missingParents_In (init : list Commit) (seen : CommitMap) (s : string) :
  In s (missingParents init seen) ->
  map_has seen s = false /\ exists c, In c init /\ In s (parents c).
Proof.
  unfold missingParents.
  assert (Hgen : forall acc,
    In s (fold_left
            (fun missing c =>
               fold_left
                 (fun missing' p =>
                    if truthy p && negb (map_has seen p)
                    then set_add missing' p else missing')
                 (parents c) missing) init acc) ->
    In s acc \/
    (map_has seen s = false /\ exists c, In c init /\ In s (parents c))).
  { induction init as [| c init IH]; intros acc H; simpl in H; [now left|].
    apply IH in H. destruct H as [H | (Hs & c' & Hc' & Hp)].
    - assert (Hin : forall ps acc0,
        In s (fold_left
                (fun missing' p =>
                   if truthy p && negb (map_has seen p)
                   then set_add missing' p else missing') ps acc0) ->
        In s acc0 \/ (map_has seen s = false /\ In s ps)).
      { clear. induction ps as [| p ps IHp]; intros acc0 H; simpl in H;
          [now left|].
        apply IHp in H. destruct H as [H | [Hs Hp]].
        - destruct (truthy p && negb (map_has seen p)) eqn:E; [| now left].
          apply set_add_In in H. destruct H as [H | ->]; [now left|].
          right. apply andb_true_iff in E. destruct E as [_ E].
          apply negb_true_iff in E. split; [assumption | now left].
        - right. split; [assumption | now right]. }
      apply Hin in H. destruct H as [H | [Hs Hp]]; [now left|].
      right. split; [assumption|]. exists c. split; [now left | assumption].
    - right. split; [assumption|]. exists c'. split; [now right | assumption]. }
  intros H. apply Hgen in H. destruct H as [[] | H]. exact H.
Qed.

Lemma firstn_incl (A : Type) (n : nat) (l : list A) (x : A) :
  In x (firstn n l) -> In x l.
Proof.
  intros H. rewrite <- (firstn_skipn n l). apply in_app_iff. now left.
Qed.

Lemma parentsToFetch_In (init : list Commit) (maxFetch : nat) (s : string) :
  In s (parentsToFetch init maxFetch) ->
  map_has (indexBySha init) s = false /\
  exists c, In c init /\ In s (parents c).
Proof.
  unfold parentsToFetch. intros H. apply firstn_incl in H.
  now apply missingParents_In.
Qed.

Lemma parentsToFetch_length (init : list Commit) (maxFetch : nat) :
  List.length (parentsToFetch init maxFetch) <= maxFetch.
Proof.
  unfold parentsToFetch. rewrite length_firstn. lia.
Qed.

(** [ensureParents] without its loop structure. *)
Lemma ensureParents_flat (getCommit : string -> option Commit)
      (init : list Commit) (maxFetch : nat) :
  ensureParents getCommit init maxFetch =
  map_values
    (fst (storeAll getCommit (indexBySha init, 0%nat)
                   (parentsToFetch init maxFetch))).
Proof.
  unfold ensureParents, batchesOf.
  rewrite fetchBatches_all.
  - now rewrite slices_concat.
  - rewrite slices_concat by lia. simpl. apply parentsToFetch_length.
Qed.

(** The output has distinct shas, whatever the input. *)
Lemma ensureParents_distinct (getCommit : string -> option Commit)
      (init : list Commit) (maxFetch : nat) :
  NoDup (map sha (ensureParents getCommit init maxFetch)).
Proof.
  rewrite ensureParents_flat.
  destruct (indexBySha_keys init [] (NoDup_nil _)) as [Hnd Hk].
  { intros k c []. }
  cbv zeta in Hnd, Hk. fold (indexBySha init) in Hnd, Hk.
  destruct (storeAll_spec getCommit (parentsToFetch init maxFetch)
                          (indexBySha init) 0%nat Hnd)
    as (extra & E & N & _ & _).
  rewrite E. unfold map_values. rewrite map_app, map_app.
  fold (map_values (map entryOf extra)). rewrite values_entries.
  assert (Ek : map sha (map snd (indexBySha init)) = map_keys (indexBySha init)).
  { unfold map_keys. rewrite map_map. apply map_ext_in.
    intros [k c] Hin. simpl. eauto. }
  now rewrite Ek.
Qed.

End Expansion.

(** ** The first seed *)

Section FirstSeed.

Variable commitToBranches : BranchIndex.






End FirstSeed.

(** ** The collection loop *)

Section Collection.

Import Collector.

Variable prov : Provider.
Variable maxCommits : Z.

Lemma budgetReached_true (st : CState) :
  budgetReached maxCommits st = true <-> (maxCommits <= accepted st)%Z.
Proof. unfold budgetReached, accepted. apply Z.leb_le. Qed.

Lemma budgetReached_false (st : CState) :
  budgetReached maxCommits st = false <-> (accepted st < maxCommits)%Z.
Proof. unfold budgetReached, accepted. apply Z.leb_gt. Qed.

Lemma accepted_recordBranch (b : string) (c : Commit) (st : CState) :
  accepted (recordBranch b c st) = accepted st.
Proof. reflexivity. Qed.

Lemma accepted_accept (b : string) (c : Commit) (st : CState) :
  accepted (accept b c st) = (accepted st + 1)%Z.
Proof. unfold accepted, accept. simpl. rewrite length_app. simpl. lia. Qed.

Lemma accepted_startBranch (b : string) (st : CState) :
  accepted (startBranch b st) = accepted st.
Proof. reflexivity. Qed.

(** One page: the set grows, by at most what the budget leaves. *)
Lemma processPage_accepted (b : string) (page : list Commit) :
  forall st saw,
    (accepted st < maxCommits)%Z ->
    (accepted st <= accepted (fst (processPage maxCommits b page st saw))
     <= maxCommits)%Z.
Proof.
  induction page as [| c rest IH]; intros st saw Hlt; simpl; [lia|].
  set (st2 := if set_has (seen st) (sha c) then recordBranch b c st
              else accept b c (recordBranch b c st)).
  assert (H2 : (accepted st <= accepted st2 <= accepted st + 1)%Z).
  { unfold st2. destruct (set_has (seen st) (sha c)).
    - rewrite accepted_recordBranch. lia.
    - rewrite accepted_accept, accepted_recordBranch. lia. }
  destruct (budgetReached maxCommits st2) eqn:E; simpl.
  - lia.
  - apply budgetReached_false in E.
    pose proof (IH st2 (if set_has (seen st) (sha c) then true else saw) E).
    lia.
Qed.

Lemma processPage_saw (b : string) (page : list Commit) :
  forall st, snd (processPage maxCommits b page st true) = true.
Proof.
  induction page as [| c rest IH]; intros st; simpl; [reflexivity|].
  match goal with |- context [if ?x then true else true] =>
    replace (if x then true else true) with true by now destruct x end.
  destruct (budgetReached maxCommits _); [reflexivity | apply IH].
Qed.

(** A page that ends without having met a known sha added a commit. *)
Lemma processPage_progress (b : string) (c : Commit) (rest : list Commit)
      (st : CState) (saw : bool) :
  (accepted st < maxCommits)%Z ->
  snd (processPage maxCommits b (c :: rest) st saw) = false ->
  (accepted st + 1 <= accepted (fst (processPage maxCommits b (c :: rest) st saw)))%Z.
Proof.
  intros Hlt. simpl. destruct (set_has (seen st) (sha c)) eqn:Hs.
  - destruct (budgetReached maxCommits (recordBranch b c st)); simpl;
      [discriminate|].
    now rewrite processPage_saw.
  - intros Hsaw.
    assert (Ha : accepted (accept b c (recordBranch b c st)) = (accepted st + 1)%Z)
      by now rewrite accepted_accept, accepted_recordBranch.
    destruct (budgetReached maxCommits (accept b c (recordBranch b c st))) eqn:E;
      simpl in *.
    + lia.
    + apply budgetReached_false in E.
      pose proof (processPage_accepted b rest _ saw E). lia.
Qed.

(** The pages of one branch. *)
Lemma pageLoop_accepted (b : string) (fuel : nat) :
  forall page saw st st',
    (accepted st <= Z.max 0 maxCommits)%Z ->
    pageLoop fuel prov maxCommits b page saw st = Ok st' ->
    (accepted st <= accepted st' <= Z.max 0 maxCommits)%Z.
Proof.
  induction fuel as [| fuel IH]; intros page saw st st' Hb H; simpl in H;
    [discriminate|].
  destruct (budgetReached maxCommits st) eqn:E.
  { injection H as <-. lia. }
  apply budgetReached_false in E.
  destruct (listCommits prov b page) as [[| c rest] |]; try discriminate.
  { injection H as <-. lia. }
  pose proof (processPage_accepted b (c :: rest) st saw E) as Hp.
  destruct (processPage maxCommits b (c :: rest) st saw) as [st1 saw1].
  simpl in Hp.
  destruct (saw1 || (List.length (c :: rest) <? 100)%nat).
  - injection H as <-. lia.
  - apply IH in H; lia.
Qed.

Lemma pageLoop_unfold (fuel : nat) (b : string) (page : nat) (saw : bool)
      (st : CState) :
  pageLoop (S fuel) prov maxCommits b page saw st =
  if budgetReached maxCommits st then Ok st
  else
    match listCommits prov b page with
    | None => Failed
    | Some [] => Ok st
    | Some (c :: rest) =>
        let (st', saw') := processPage maxCommits b (c :: rest) st saw in
        if saw' || (List.length (c :: rest) <? 100)%nat then Ok st'
        else pageLoop fuel prov maxCommits b (S page) saw' st'
    end.
Proof.
  cbn [pageLoop]. destruct (budgetReached maxCommits st); [reflexivity|].
  destruct (listCommits prov b page) as [[| c rest] |]; reflexivity.
Qed.

(** The pages of one branch are finitely many: a page that calls for the
    next one has added a commit, and the budget stops the loop. *)
Lemma pageLoop_fuel (b : string) (fuel : nat) :
  forall page st,
    (maxCommits - accepted st <= Z.of_nat fuel)%Z ->
    pageLoop (S fuel) prov maxCommits b page false st <> OutOfFuel.
Proof.
  induction fuel as [| fuel IH]; intros page st Hf; rewrite pageLoop_unfold;
    destruct (budgetReached maxCommits st) eqn:E; try discriminate;
    apply budgetReached_false in E.
  - lia.
  - destruct (listCommits prov b page) as [[| c rest] |]; try discriminate.
    pose proof (processPage_progress b c rest st false E) as Hp.
    destruct (processPage maxCommits b (c :: rest) st false) as [st1 saw1].
    simpl in Hp. destruct saw1; [discriminate|].
    destruct (List.length (c :: rest) <? 100)%nat; [discriminate|].
    cbn [orb]. apply IH. specialize (Hp eq_refl). lia.
Qed.

(** The loop over the branches. *)
Lemma branchLoop_accepted (tips : list string) :
  forall st st',
    (accepted st <= Z.max 0 maxCommits)%Z ->
    branchLoop prov maxCommits tips st = Ok st' ->
    (accepted st <= accepted st' <= Z.max 0 maxCommits)%Z.
Proof.
  induction tips as [| b rest IH]; intros st st' Hb H; cbn [branchLoop] in H.
  - injection H as <-. lia.
  - destruct (pageLoop (S (Z.to_nat maxCommits)) prov maxCommits b 1 false
                       (startBranch b st)) as [st1 | |] eqn:E;
      try discriminate.
    apply pageLoop_accepted in E; [| now rewrite accepted_startBranch].
    rewrite accepted_startBranch in E.
    destruct (budgetReached maxCommits st1).
    + injection H as <-. lia.
    + apply IH in H; lia.
Qed.

Lemma branchLoop_fuel (tips : list string) :
  forall st, (0 <= accepted st)%Z ->
    branchLoop prov maxCommits tips st <> OutOfFuel.
Proof.
  induction tips as [| b rest IH]; intros st Hst; cbn [branchLoop];
    [discriminate|].
  pose proof (pageLoop_fuel b (Z.to_nat maxCommits) 1 (startBranch b st)) as Hf.
  destruct (pageLoop (S (Z.to_nat maxCommits)) prov maxCommits b 1 false
                     (startBranch b st)) as [st1 | |] eqn:E.
  - destruct (budgetReached maxCommits st1); [discriminate|].
    apply IH. unfold accepted. lia.
  - discriminate.
  - exfalso. apply Hf; [| reflexivity].
    rewrite accepted_startBranch. lia.
Qed.

(** The fuel the model gives the page loop is never exhausted. *)
Theorem collectCommits_fuel (tips : list string) :
  collectCommits prov maxCommits tips <> OutOfFuel.
Proof. apply branchLoop_fuel. unfold accepted. simpl. lia. Qed.

(** With no budget nothing is requested and nothing is recorded. *)
Lemma collectCommits_no_budget (tips : list string) :
  (maxCommits <= 0)%Z ->
  exists st, collectCommits prov maxCommits tips = Ok st /\
             allCommits st = [] /\ commitToBranches st = [].
Proof.
  intros Hle. unfold collectCommits.
  destruct tips as [| b rest]; cbn [branchLoop].
  - exists initial. auto.
  - assert (E : budgetReached maxCommits (startBranch b initial) = true).
    { apply budgetReached_true. unfold accepted. simpl. lia. }
    rewrite pageLoop_unfold, E, E. exists (startBranch b initial). auto.
Qed.

End Collection.

(** ** The request as a whole *)

Section Request.

Variable prov : Provider.
Variable maxCommits : Z.
Variable branchTips : list string.

Lemma buildGraph_inv (pl : Payload) :
  buildGraph prov maxCommits branchTips = Ok pl ->
  exists st,
    Collector.collectCommits prov maxCommits branchTips = Ok st /\
    pl = assemble prov branchTips st /\
    expandedOf prov maxCommits branchTips = expandedCommits prov st /\
    membershipOf prov maxCommits branchTips = Collector.commitToBranches st.
Proof.
  unfold buildGraph, expandedOf, membershipOf.
  destruct (Collector.collectCommits prov maxCommits branchTips) as [st | |];
    try discriminate.
  intros H. injection H as <-. exists st. auto.
Qed.

Lemma buildGraph_graph (pl : Payload) :
  buildGraph prov maxCommits branchTips = Ok pl ->
  graph pl =
  buildGraphFromCommits (expandedOf prov maxCommits branchTips)
                        (membershipOf prov maxCommits branchTips).
Proof.
  intros H. destruct (buildGraph_inv pl H) as (st & _ & -> & -> & ->).
  reflexivity.
Qed.

Lemma buildGraph_stats (pl : Payload) :
  buildGraph prov maxCommits branchTips = Ok pl ->
  stats (meta pl) = computeStats (graph pl) branchTips.
Proof.
  intros H. destruct (buildGraph_inv pl H) as (st & _ & -> & _). reflexivity.
Qed.

Lemma expandedOf_distinct :
  NoDup (map sha (expandedOf prov maxCommits branchTips)).
Proof.
  unfold expandedOf.
  destruct (Collector.collectCommits prov maxCommits branchTips);
    try constructor.
  apply ensureParents_distinct.
Qed.

(** The model never runs out of fuel: a request is answered or fails. *)
Lemma buildGraph_fuel : buildGraph prov maxCommits branchTips <> OutOfFuel.
Proof.
  unfold buildGraph.
  pose proof (collectCommits_fuel prov maxCommits branchTips) as H.
  destruct (Collector.collectCommits prov maxCommits branchTips);
    congruence.
Qed.

End Request.

(** ** The statistics *)

Section Statistics.

Lemma branchCounts_get (g : Graph) (tips : list string) (b : string) :
  forall counts,
    In b tips -> b <> "__proto__" ->
    map_get
      (fold_left (fun counts branch => obj_set counts branch (countBranch g branch))
                 tips counts) b = Some (countBranch g b).
Proof.
  induction tips as [| t tips IH]; intros counts Hin Hp; [contradiction|].
  simpl. destruct (in_dec string_dec b tips) as [Hb | Hb].
  - now apply IH.
  - destruct Hin as [-> | Hin]; [| contradiction].
    clear IH. revert counts.
    assert (Hkeep : forall l counts,
      ~ In b l -> map_get counts b = Some (countBranch g b) ->
      map_get
        (fold_left (fun counts branch => obj_set counts branch (countBranch g branch))
                   l counts) b = Some (countBranch g b)).
    { induction l as [| x l IHl]; intros counts Hn Hg; simpl; [assumption|].
      apply IHl.
      - intros Hc. apply Hn. now right.
      - rewrite obj_get_set_other; [assumption|].
        intros ->. apply Hn. now left. }
    intros counts. apply Hkeep; [assumption|]. now apply obj_get_set_same.
Qed.

(** No count is stored under [__proto__]. *)
Lemma branchCounts_proto (g : Graph) (tips : list string) :
  forall counts,
    map_get counts "__proto__" = None ->
    map_get
      (fold_left (fun counts branch => obj_set counts branch (countBranch g branch))
                 tips counts) "__proto__" = None.
Proof.
  induction tips as [| t tips IH]; intros counts H; simpl; [exact H|].
  apply IH. now apply obj_set_no_proto.
Qed.

Lemma classify_isMerge (n : Node) :
  isMerge (classify n) = (1 <? List.length (parentShas (classify n)))%nat.
Proof. reflexivity. Qed.

Lemma classify_isSplit (n : Node) :
  isSplit (classify n) = (1 <? List.length (childShas (classify n)))%nat.
Proof. reflexivity. Qed.

Lemma filter_ext_in_length (A : Type) (f h : A -> bool) (l : list A) :
  (forall x, In x l -> f x = h x) ->
  List.length (filter f l) = List.length (filter h l).
Proof.
  intros H. induction l as [| a l IH]; simpl; [reflexivity|].
  rewrite (H a (or_introl eq_refl)).
  destruct (h a); simpl; rewrite IH; auto.
  - intros x Hx. apply H. now right.
  - intros x Hx. apply H. now right.
Qed.

End Statistics.

(** ** The documented copy of the collection loop *)

Section FairCollection.

Import FairCollector.

Variable prov : Provider.

Lemma fair_processPage_spec (quota : Z) (b : string) (page : list Commit) :
  forall st count saw,
    let r := processPage quota b page st count saw in
    (accepted (base (fst (fst r))) - accepted (base st)
     = snd (fst r) - count)%Z /\
    (count <= snd (fst r) <= Z.max count quota)%Z /\
    (remainingGlobalCommits (fst (fst r))
     = remainingGlobalCommits st - (snd (fst r) - count))%Z /\
    (0 <= remainingGlobalCommits st ->
     0 <= remainingGlobalCommits (fst (fst r)))%Z.
Proof.
  induction page as [| c rest IH]; intros st count saw; cbn [processPage].
  - cbv zeta. simpl. lia.
  - set (st1 := onBase (Collector.recordBranch b c) st).
    set (canAdd := negb (set_has (Collector.seen (base st)) (sha c))
                   && (count <? quota)%Z
                   && (0 <? remainingGlobalCommits st1)%Z).
    set (st2 := if canAdd
                then mkQState (Collector.accept b c (base st1))
                              (remainingGlobalCommits st1 - 1)%Z
                else st1).
    set (count2 := if canAdd then (count + 1)%Z else count).
    assert (H2 : (accepted (base st2) - accepted (base st) = count2 - count)%Z /\
                 (count <= count2 <= Z.max count quota)%Z /\
                 (remainingGlobalCommits st2
                  = remainingGlobalCommits st - (count2 - count))%Z /\
                 (0 <= remainingGlobalCommits st ->
                  0 <= remainingGlobalCommits st2)%Z).
    { unfold st2, count2. destruct canAdd eqn:E.
      - unfold canAdd in E. apply andb_true_iff in E. destruct E as [E E3].
        apply andb_true_iff in E. destruct E as [_ E2].
        apply Z.ltb_lt in E2, E3. simpl in *.
        rewrite accepted_accept, accepted_recordBranch. lia.
      - simpl. rewrite accepted_recordBranch. lia. }
    destruct H2 as (A2 & B2 & C2 & D2).
    destruct (quota <=? count2)%Z eqn:Q; [cbv zeta; simpl; lia|].
    destruct (remainingGlobalCommits st2 <=? 0)%Z; [cbv zeta; simpl; lia|].
    specialize (IH st2 count2
                   (if set_has (Collector.seen (base st)) (sha c)
                    then true else saw)).
    cbv zeta in IH |- *. apply Z.leb_gt in Q. lia.
Qed.

(** What one branch may add under its quota. *)
Lemma fair_pageLoop_spec (quota : Z) (b : string) (fuel : nat) :
  forall page count saw st st',
    pageLoop fuel prov quota b page count saw st = Ok st' ->
    (0 <= accepted (base st') - accepted (base st) <= Z.max count quota - count)%Z /\
    (0 <= remainingGlobalCommits st -> 0 <= remainingGlobalCommits st')%Z /\
    (remainingGlobalCommits st - remainingGlobalCommits st'
     = accepted (base st') - accepted (base st))%Z.
Proof.
  induction fuel as [| fuel IH]; intros page count saw st st' H;
    cbn [pageLoop] in H; [discriminate|].
  destruct (quota <=? count)%Z; [injection H as <-; lia|].
  destruct (remainingGlobalCommits st <=? 0)%Z; [injection H as <-; lia|].
  destruct (listCommits prov b page) as [[| c rest] |]; try discriminate.
  { injection H as <-. lia. }
  pose proof (fair_processPage_spec quota b (c :: rest) st count saw) as Hp.
  cbv zeta in Hp.
  destruct (processPage quota b (c :: rest) st count saw) as [[st1 count1] saw1].
  simpl in Hp. destruct Hp as (A & B & C & D).
  destruct (quota <=? count1)%Z; [injection H as <-; lia|].
  destruct saw1; [injection H as <-; lia|].
  destruct (List.length (c :: rest) <? 100)%nat; [injection H as <-; lia|].
  apply IH in H. lia.
Qed.

Lemma fair_processPage_saw (quota : Z) (b : string) (page : list Commit) :
  forall st count, snd (processPage quota b page st count true) = true.
Proof.
  induction page as [| c rest IH]; intros st count; cbn [processPage];
    [reflexivity|].
  match goal with |- context [if ?x then true else true] =>
    replace (if x then true else true) with true by now destruct x end.
  destruct (quota <=? _)%Z; [reflexivity|].
  destruct (remainingGlobalCommits _ <=? 0)%Z; [reflexivity | apply IH].
Qed.

(** A page that calls for the next one has added a commit. *)
Lemma fair_processPage_progress (quota : Z) (b : string) (c : Commit)
      (rest : list Commit) (st : QState) (count : Z) :
  (count < quota)%Z -> (0 < remainingGlobalCommits st)%Z ->
  snd (processPage quota b (c :: rest) st count false) = false ->
  (count + 1 <= snd (fst (processPage quota b (c :: rest) st count false)))%Z.
Proof.
  intros Hq Hr. cbn [processPage].
  destruct (set_has (Collector.seen (base st)) (sha c)) eqn:Hs; cbn [negb andb].
  - destruct (quota <=? count)%Z; [discriminate|].
    destruct (remainingGlobalCommits _ <=? 0)%Z; [discriminate|].
    now rewrite fair_processPage_saw.
  - apply Z.ltb_lt in Hq. rewrite Hq.
    assert (Hr' : (0 <? remainingGlobalCommits
                          (onBase (Collector.recordBranch b c) st))%Z = true)
      by now apply Z.ltb_lt.
    rewrite Hr'. cbn [andb].
    destruct (quota <=? count + 1)%Z; [simpl; lia|].
    destruct (remainingGlobalCommits _ <=? 0)%Z; [simpl; lia|].
    intros _.
    match goal with |- context [processPage quota b rest ?s ?k ?w] =>
      pose proof (fair_processPage_spec quota b rest s k w) as Hp end.
    cbv zeta in Hp. lia.
Qed.

Lemma fair_pageLoop_unfold (fuel : nat) (quota : Z) (b : string) (page : nat)
      (count : Z) (saw : bool) (st : QState) :
  pageLoop (S fuel) prov quota b page count saw st =
  if (quota <=? count)%Z then Ok st
  else if (remainingGlobalCommits st <=? 0)%Z then Ok st
  else
    match listCommits prov b page with
    | None => Failed
    | Some [] => Ok st
    | Some (c :: rest) =>
        let '(st', count', saw') :=
          processPage quota b (c :: rest) st count saw in
        if (quota <=? count')%Z then Ok st'
        else if saw' then Ok st'
        else if (List.length (c :: rest) <? 100)%nat then Ok st'
        else pageLoop fuel prov quota b (S page) count' saw' st'
    end.
Proof.
  cbn [pageLoop]. destruct (quota <=? count)%Z; [reflexivity|].
  destruct (remainingGlobalCommits st <=? 0)%Z; [reflexivity|].
  destruct (listCommits prov b page) as [[| c rest] |]; reflexivity.
Qed.

Lemma fair_pageLoop_fuel (quota : Z) (b : string) (fuel : nat) :
  forall page count st,
    (quota - count <= Z.of_nat fuel)%Z ->
    pageLoop (S fuel) prov quota b page count false st <> OutOfFuel.
Proof.
  induction fuel as [| fuel IH]; intros page count st Hf;
    rewrite fair_pageLoop_unfold;
    destruct (quota <=? count)%Z eqn:Q; try discriminate;
    apply Z.leb_gt in Q.
  - lia.
  - destruct (remainingGlobalCommits st <=? 0)%Z eqn:R; [discriminate|].
    apply Z.leb_gt in R.
    destruct (listCommits prov b page) as [[| c rest] |]; try discriminate.
    pose proof (fair_processPage_progress quota b c rest st count Q R) as Hp.
    destruct (processPage quota b (c :: rest) st count false)
      as [[st1 count1] saw1].
    simpl in Hp.
    destruct (quota <=? count1)%Z; [discriminate|].
    destruct saw1; [discriminate|].
    destruct (List.length (c :: rest) <? 100)%nat; [discriminate|].
    specialize (Hp eq_refl). apply IH. lia.
Qed.

(** The fuel the model gives a branch of the documented handler is never
    exhausted. *)
Lemma fair_collectBranch_fuel (quota : Z) (b : string) (st : QState) :
  collectBranch prov quota b st <> OutOfFuel.
Proof. unfold collectBranch. apply fair_pageLoop_fuel. lia. Qed.

(** The documented handler keeps every branch within its quota. *)
Theorem documented_handler_enforces_quota (quota : Z) (b : string)
        (st st' : QState) :
  collectBranch prov quota b st = Ok st' ->
  (0 <= accepted (base st') - accepted (base st) <= Z.max 0 quota)%Z.
Proof.
  unfold collectBranch. intros H. apply fair_pageLoop_spec in H.
  simpl in H. rewrite accepted_startBranch in H. lia.
Qed.

End FairCollection.

(** ** Links *)

Lemma NoDup_map_injective (A B : Type) (f : A -> B) (l : list A) :
  (forall x y, f x = f y -> x = y) -> NoDup l -> NoDup (map f l).
Proof.
  intros Hinj H. induction H as [| a l Hnot Hnd IH]; simpl; constructor.
  - intros Hin. apply in_map_iff in Hin. destruct Hin as (x & E & Hx).
    apply Hinj in E. now subst.
  - exact IH.
Qed.

Lemma edges_distinct (cs : list Commit) :
  NoDup (map sha cs) -> (forall c, In c cs -> NoDup (parents c)) ->
  NoDup (edges cs).
Proof.
  induction cs as [| c cs IH]; intros Hs Hp; simpl; [constructor|].
  inversion Hs as [| ? ? Hnot Hs']; subst.
  apply NoDup_app.
  - unfold edgesOf. apply NoDup_map_injective.
    + intros x y E. now injection E.
    + apply Hp. now left.
  - apply IH; [assumption|]. intros c' Hc'. apply Hp. now right.
  - intros [B p] H1 H2. unfold edgesOf in H1. apply in_map_iff in H1.
    destruct H1 as (q & E & _). injection E as <- <-.
    apply edges_In in H2. destruct H2 as (c' & Hc' & Hs'' & _).
    apply Hnot. rewrite <- Hs''. now apply in_map.
Qed.

(** The links are distinct when no commit repeats a parent. *)
Lemma links_distinct_without_repeats (cs : list Commit) (c2b : BranchIndex) :
  NoDup (map sha cs) -> (forall c, In c cs -> NoDup (parents c)) ->
  linksDistinct (buildGraphFromCommits cs c2b).
Proof.
  intros Hs Hp. unfold linksDistinct. rewrite build_links.
  apply NoDup_map_injective.
  - intros [a1 b1] [a2 b2] E. unfold linkOf in E. simpl in E. now injection E as -> ->.
  - now apply edges_distinct.
Qed.

(** ** The collector never consults [getCommit] *)

Section ProviderUse.

Variable p1 p2 : Provider.
Hypothesis same_pages : listCommits p1 = listCommits p2.



End ProviderUse.

(** ** What [ensureParents] returns *)

Lemma ensureParents_spec (getCommit : string -> option Commit)
      (init : list Commit) (maxFetch : nat) :
  NoDup (map sha init) ->
  exists extra,
    ensureParents getCommit init maxFetch = init ++ extra /\
    NoDup (map sha (init ++ extra)) /\
    (forall c, In c extra ->
       exists s, In s (parentsToFetch init maxFetch) /\ getCommit s = Some c) /\
    (forall s c, In s (parentsToFetch init maxFetch) -> getCommit s = Some c ->
       In (sha c) (map sha (init ++ extra))) /\
    (forall s, In s (parentsToFetch init maxFetch) ->
       ~ In s (map sha init) /\ exists c, In c init /\ In s (parents c)).
Proof.
  intros Hnd. rewrite ensureParents_flat.
  pose proof (indexBySha_distinct init Hnd) as Hidx.
  assert (Hk : NoDup (map_keys (indexBySha init))).
  { rewrite Hidx, keys_entries. exact Hnd. }
  destruct (storeAll_spec getCommit (parentsToFetch init maxFetch)
                          (indexBySha init) 0%nat Hk)
    as (extra & E & N & A & B).
  rewrite Hidx, keys_entries in N, B.
  exists extra. rewrite E, Hidx. unfold map_values.
  rewrite map_app. fold (map_values (map entryOf init)).
  fold (map_values (map entryOf extra)). rewrite !values_entries.
  rewrite map_app.
  split; [reflexivity|]. split; [exact N|]. split; [exact A|].
  split; [exact B|].
  intros s Hs. destruct (parentsToFetch_In init maxFetch s Hs) as [Hhas Hex].
  split; [| exact Hex].
  intros Hin. rewrite Hidx in Hhas.
  assert (Hc : map_has (map entryOf init) s = true).
  { apply map_has_keys. now rewrite keys_entries. }
  congruence.
Qed.

(** ** What the collector leaves behind *)

Section CollectorState.

Import Collector.

Variable prov : Provider.
Variable maxCommits : Z.

Lemma set_add_nonempty (s : JsSet) (x : string) : set_add s x <> [].
Proof.
  unfold set_add. destruct (set_has s x) eqn:E.
  - apply includes_In in E. intros ->. contradiction.
  - destruct s; discriminate.
Qed.

Lemma knownBranches_recordBranch (b : string) (c : Commit) (st : CState)
      (k : string) :
  knownBranches (commitToBranches st) k <> [] ->
  knownBranches (commitToBranches (recordBranch b c st)) k <> [].
Proof.
  unfold knownBranches, recordBranch. simpl. rewrite map_get_set.
  destruct (sha c =? k); [intros _; apply set_add_nonempty | auto].
Qed.

Lemma CollectInv_step (b : string) (c : Commit) (st : CState) :
  CollectInv st ->
  CollectInv (if set_has (seen st) (sha c) then recordBranch b c st
              else accept b c (recordBranch b c st)).
Proof.
  intros [Hseen Hnd Hmem]. destruct (set_has (seen st) (sha c)) eqn:E.
  - constructor; simpl; auto.
    intros c' Hc'. apply knownBranches_recordBranch. auto.
  - apply includes_false in E. constructor; simpl.
    + intros s. rewrite set_add_In, map_app, in_app_iff, Hseen. simpl.
      intuition auto.
    + rewrite map_app. simpl. apply NoDup_app; [assumption | repeat constructor; auto |].
      intros a Ha [<- | []]. apply E. now apply Hseen.
    + intros c' Hc'. apply in_app_iff in Hc'. destruct Hc' as [Hc' | [<- | []]].
      * apply (knownBranches_recordBranch b c st). auto.
      * unfold knownBranches. rewrite map_get_set_same. apply set_add_nonempty.
Qed.

Lemma CollectInv_processPage (b : string) (page : list Commit) :
  forall st saw, CollectInv st ->
    CollectInv (fst (processPage maxCommits b page st saw)).
Proof.
  induction page as [| c rest IH]; intros st saw Inv; cbn [processPage];
    [assumption|].
  pose proof (CollectInv_step b c st Inv) as Inv2.
  destruct (budgetReached maxCommits _); [assumption | now apply IH].
Qed.

Lemma CollectInv_pageLoop (b : string) (fuel : nat) :
  forall page saw st st', CollectInv st ->
    pageLoop fuel prov maxCommits b page saw st = Ok st' -> CollectInv st'.
Proof.
  induction fuel as [| fuel IH]; intros page saw st st' Inv H; [discriminate|].
  rewrite pageLoop_unfold in H.
  destruct (budgetReached maxCommits st); [now injection H as <-|].
  destruct (listCommits prov b page) as [[| c rest] |]; try discriminate;
    [now injection H as <-|].
  pose proof (CollectInv_processPage b (c :: rest) st saw Inv) as Inv1.
  destruct (processPage maxCommits b (c :: rest) st saw) as [st1 saw1].
  destruct (saw1 || (List.length (c :: rest) <? 100)%nat).
  - now injection H as <-.
  - eapply IH; eauto.
Qed.

Lemma CollectInv_branchLoop (tips : list string) :
  forall st st', CollectInv st ->
    branchLoop prov maxCommits tips st = Ok st' -> CollectInv st'.
Proof.
  induction tips as [| b rest IH]; intros st st' Inv H; cbn [branchLoop] in H.
  - now injection H as <-.
  - destruct (pageLoop (S (Z.to_nat maxCommits)) prov maxCommits b 1 false
                       (startBranch b st)) as [st1 | |] eqn:E;
      try discriminate.
    apply CollectInv_pageLoop in E.
    + destruct (budgetReached maxCommits st1); [now injection H as <-|].
      eapply IH; eauto.
    + destruct Inv as [A B C]. constructor; auto.
Qed.

(** The state the collector returns. *)
Theorem collectCommits_inv (tips : list string) (st : CState) :
  collectCommits prov maxCommits tips = Ok st -> CollectInv st.
Proof.
  apply CollectInv_branchLoop. constructor; simpl.
  - tauto.
  - constructor.
  - intros c [].
Qed.

(** The working set is already free of duplicates, and it heads the
    expanded set. *)
Lemma expanded_starts_with_collected (tips : list string) (st : CState) :
  collectCommits prov maxCommits tips = Ok st ->
  uniqueCommits st = allCommits st /\
  exists extra, expandedCommits prov st = allCommits st ++ extra.
Proof.
  intros H. pose proof (ci_distinct (collectCommits_inv tips st H)) as Hnd.
  assert (E : uniqueCommits st = allCommits st).
  { unfold uniqueCommits. rewrite (indexBySha_distinct _ Hnd).
    apply values_entries. }
  split; [exact E|].
  destruct (ensureParents_spec (getCommit prov) (allCommits st)
              MAX_PARENT_FETCH Hnd) as (extra & Hx & _).
  exists extra. unfold expandedCommits. now rewrite E.
Qed.

End CollectorState.

(** * The claims *)

(** C10.  With [maxCommits] zero or negative the collection loop accepts no
    commit, whatever the provider would return, and the request is answered
    with a graph of no nodes and no links and a total of 0. *)
Theorem no_budget_empty_graph (prov : Provider) (maxCommits : Z)
        (branchTips : list string) :
  (maxCommits <= 0)%Z ->
  exists pl,
    buildGraph prov maxCommits branchTips = Ok pl /\
    nodes (graph pl) = [] /\ links (graph pl) = [] /\
    totalCommits (stats (meta pl)) = 0%nat /\
    commits (meta pl) = 0%nat.
Proof.
  intros Hle.
  destruct (collectCommits_no_budget prov maxCommits branchTips Hle)
    as (st & Hc & Ha & Hb).
  exists (assemble prov branchTips st). unfold buildGraph. rewrite Hc.
  split; [reflexivity|].
  unfold assemble, expandedCommits, uniqueCommits. rewrite Ha, Hb.
  repeat split.
Qed.

Lemma no_budget_empty_graph_witness :
  exists pl,
    buildGraph Examples.sharedRoot 0 ["main"; "dev"] = Ok pl /\
    nodes (graph pl) = [] /\ links (graph pl) = [] /\
    totalCommits (stats (meta pl)) = 0%nat /\
    commits (meta pl) = 0%nat.
Proof.
  apply (no_budget_empty_graph Examples.sharedRoot 0 ["main"; "dev"]). lia.
Defined.

(** C5.  Whatever pages the provider returns, the working commit set never
    holds more than [maxCommits] commits (none at all when [maxCommits] is
    not positive): not when the collection ends, not after any page, which
    is only entered below the budget, and not after the pages of any
    branch. *)
Theorem accepted_within_budget (prov : Provider) (maxCommits : Z)
        (branchTips : list string) (st : Collector.CState) :
  Collector.collectCommits prov maxCommits branchTips = Ok st ->
  ((0 <= maxCommits)%Z -> (accepted st <= maxCommits)%Z) /\
  ((maxCommits <= 0)%Z -> accepted st = 0%Z) /\
  (forall b page saw st0,
      (accepted st0 < maxCommits)%Z ->
      (accepted (fst (Collector.processPage maxCommits b page st0 saw))
       <= maxCommits)%Z) /\
  (forall fuel b page saw st0 st1,
      (accepted st0 <= Z.max 0 maxCommits)%Z ->
      Collector.pageLoop fuel prov maxCommits b page saw st0 = Ok st1 ->
      (accepted st1 <= Z.max 0 maxCommits)%Z).
Proof.
  intros Hc.
  assert (Hfinal : (0 <= accepted st <= Z.max 0 maxCommits)%Z).
  { unfold Collector.collectCommits in Hc.
    apply branchLoop_accepted in Hc; unfold accepted in *; simpl in *; lia. }
  split; [lia|]. split; [lia|]. split.
  - intros b page saw st0 Hlt.
    pose proof (processPage_accepted maxCommits b page st0 saw Hlt). lia.
  - intros fuel b page saw st0 st1 Hb Hl.
    apply pageLoop_accepted in Hl; lia.
Qed.

Lemma accepted_within_budget_witness :
  exists st,
    Collector.collectCommits Examples.longBranch 3 ["main"; "dev"] = Ok st /\
    (accepted st <= 3)%Z.
Proof.
  eexists. split; [vm_compute; reflexivity|].
  refine (proj1 (accepted_within_budget Examples.longBranch 3 ["main"; "dev"]
                   _ _) _).
  - vm_compute. reflexivity.
  - lia.
Defined.

(** The statistics of an answered request are those of the returned graph:
    the node count, the nodes flagged as merge (those with more than one
    parent) and as split (more than one child), the distinct non-empty
    authors, and for every selected branch but [__proto__] the nodes that
    carry it.  Under [__proto__] nothing is stored. *)
Theorem stats_agree_with_graph (prov : Provider) (maxCommits : Z)
        (branchTips : list string) (pl : Payload) :
  buildGraph prov maxCommits branchTips = Ok pl ->
  totalCommits (stats (meta pl)) = List.length (nodes (graph pl)) /\
  pullRequests (stats (meta pl)) = countNodes isMerge (graph pl) /\
  pullRequests (stats (meta pl)) =
    countNodes (fun n => (1 <? List.length (parentShas n))%nat) (graph pl) /\
  splitCommits (stats (meta pl)) = countNodes isSplit (graph pl) /\
  splitCommits (stats (meta pl)) =
    countNodes (fun n => (1 <? List.length (childShas n))%nat) (graph pl) /\
  (exists l, distinctAuthors (graph pl) l /\
             authors (stats (meta pl)) = List.length l) /\
  (forall b, In b branchTips -> b <> "__proto__" ->
     map_get (branchCounts (stats (meta pl))) b =
     Some (countNodes (fun n => includes (branches n) b) (graph pl))) /\
  map_get (branchCounts (stats (meta pl))) "__proto__" = None.
Proof.
  intros H. rewrite (buildGraph_stats prov maxCommits branchTips pl H).
  pose proof (buildGraph_graph prov maxCommits branchTips pl H) as Hg.
  assert (Hflags : forall n, In n (nodes (graph pl)) ->
            isMerge n = (1 <? List.length (parentShas n))%nat /\
            isSplit n = (1 <? List.length (childShas n))%nat).
  { intros n Hn. rewrite Hg, build_nodes in Hn. apply in_map_iff in Hn.
    destruct Hn as (n3 & <- & _). split; reflexivity. }
  unfold computeStats, countNodes. simpl.
  split; [reflexivity|]. split; [reflexivity|].
  split; [apply filter_ext_in_length; intros n Hn; apply (Hflags n Hn)|].
  split; [reflexivity|].
  split; [apply filter_ext_in_length; intros n Hn; apply (Hflags n Hn)|].
  split.
  - exists (set_of_list (filter truthy (map author (nodes (graph pl))))).
    split; [| reflexivity]. split; [apply set_of_list_NoDup|].
    intros a. rewrite set_of_list_In, filter_In, in_map_iff.
    unfold truthy. rewrite negb_true_iff, String.eqb_neq.
    split.
    + intros [(n & Hn & Hin) Hne]. eauto.
    + intros [Hne (n & Hin & Hn)]. eauto.
  - split.
    + intros b Hb Hp. now apply branchCounts_get.
    + now apply branchCounts_proto.
Qed.

Lemma stats_agree_with_graph_witness :
  exists pl,
    buildGraph Examples.sharedRoot 4 ["main"; "dev"] = Ok pl /\
    totalCommits (stats (meta pl)) = List.length (nodes (graph pl)) /\
    map_get (branchCounts (stats (meta pl))) "dev" =
    Some (countNodes (fun n => includes (branches n) "dev") (graph pl)).
Proof.
  eexists. split; [vm_compute; reflexivity|].
  pose proof (stats_agree_with_graph Examples.sharedRoot 4 ["main"; "dev"] _
                eq_refl) as H.
  split.
  - exact (proj1 H).
  - apply (proj1 (proj2 (proj2 (proj2 (proj2 (proj2 (proj2 H))))))).
    + simpl. auto.
    + discriminate.
Defined.

(** C7.  The entries of [stats.branchCounts] are assigned on a plain
    object, so a selected branch named [__proto__] gets none: on a
    repository with the branches [main] and [__proto__] two nodes of the
    reply carry [__proto__], and the statistics hold the count of [main]
    only. *)
Theorem proto_branch_gets_no_count :
  exists pl,
    buildGraph Examples.protoBranch 6 ["main"; "__proto__"] = Ok pl /\
    selectedBranches (meta pl) = ["main"; "__proto__"] /\
    countNodes (fun n => includes (branches n) "__proto__") (graph pl) = 2 /\
    map_get (branchCounts (stats (meta pl))) "__proto__" = None /\
    branchCounts (stats (meta pl)) = [("main", 2)].
Proof.
  eexists. split; [vm_compute; reflexivity|].
  repeat split; vm_compute; reflexivity.
Qed.

(** C2.  The handler that answers requests has no per-branch quota: on a
    budget of 4 over two branches the first branch, whose quota would be 2,
    takes all 4 commits.  The documented copy of the handler stops it at 2
    and leaves 2 to the second branch. *)
Theorem branch_quota_not_enforced :
  exists st q,
    Collector.collectCommits Examples.longBranch 4 ["main"; "dev"] = Ok st /\
    map_get (Collector.perBranchCounts st) "main" = Some 4%nat /\
    map_get (Collector.perBranchCounts st) "dev" = None /\
    FairCollector.branchQuota 4 2 0 = 2%Z /\
    FairCollector.collectCommits Examples.longBranch 4 ["main"; "dev"] = Ok q /\
    map_get (Collector.perBranchCounts (FairCollector.base q)) "main"
      = Some 2%nat /\
    map_get (Collector.perBranchCounts (FairCollector.base q)) "dev"
      = Some 2%nat.
Proof.
  eexists. eexists.
  split; [vm_compute; reflexivity|].
  split; [vm_compute; reflexivity|].
  split; [vm_compute; reflexivity|].
  split; [vm_compute; reflexivity|].
  split; [vm_compute; reflexivity|].
  split; vm_compute; reflexivity.
Qed.

(** C3.  A commit that names the same parent twice gets two equal links:
    the child is pushed once onto the parent's [childShas], the link is
    pushed for every entry of the parent list. *)
Theorem repeated_parent_duplicates_link :
  exists pl n,
    buildGraph Examples.repeatedParent 10 ["main"] = Ok pl /\
    links (graph pl) = [mkLink "m" "p"; mkLink "m" "p"] /\
    ~ linksDistinct (graph pl) /\
    node_at (graph pl) "p" = Some n /\ childShas n = ["m"].
Proof.
  eexists. eexists.
  split; [vm_compute; reflexivity|].
  split; [vm_compute; reflexivity|].
  split.
  - unfold linksDistinct. intros H. vm_compute in H.
    inversion H as [| x l Hnin _]. apply Hnin. now left.
  - split; vm_compute; reflexivity.
Qed.

(** C6.  In the graph of an answered request, for two ids that both have a
    node, the first is among the second's [parentShas] exactly when the
    second is among the first's [childShas]. *)
Theorem adjacency_bidirectional (prov : Provider) (maxCommits : Z)
        (branchTips : list string) (pl : Payload) :
  buildGraph prov maxCommits branchTips = Ok pl ->
  forall A B nA nB,
    node_at (graph pl) A = Some nA -> node_at (graph pl) B = Some nB ->
    (In A (parentShas nB) <-> In B (childShas nA)).
Proof.
  intros H A B nA nB HA HB.
  rewrite (buildGraph_graph prov maxCommits branchTips pl H) in HA, HB.
  eapply adjacency_agrees; eauto.
  apply expandedOf_distinct.
Qed.

Lemma adjacency_bidirectional_witness :
  exists pl nA nB,
    buildGraph Examples.sharedRoot 4 ["main"; "dev"] = Ok pl /\
    node_at (graph pl) "root" = Some nA /\
    node_at (graph pl) "b1" = Some nB /\
    (In "root" (parentShas nB) <-> In "b1" (childShas nA)).
Proof.
  do 3 eexists.
  split; [vm_compute; reflexivity|].
  split; [vm_compute; reflexivity|].
  split; [vm_compute; reflexivity|].
  apply (adjacency_bidirectional Examples.sharedRoot 4 ["main"; "dev"] _
           eq_refl "root" "b1"); vm_compute; reflexivity.
Defined.

(** C9.  A node of the returned graph that stands for no commit of the
    expanded set (a placeholder) has no [parentShas] and is not flagged as
    a merge, whatever the commit of that id is in the repository. *)
Theorem placeholder_never_merge (prov : Provider) (maxCommits : Z)
        (branchTips : list string) (pl : Payload) :
  buildGraph prov maxCommits branchTips = Ok pl ->
  forall n, In n (nodes (graph pl)) ->
    ~ In (id n) (map sha (expandedOf prov maxCommits branchTips)) ->
    parentShas n = [] /\ isMerge n = false.
Proof.
  intros H n Hn Hid.
  rewrite (buildGraph_graph prov maxCommits branchTips pl H) in Hn.
  destruct (placeholder_node _ _ n Hn Hid) as (_ & _ & _ & Hp & Hm & _).
  auto.
Qed.

Lemma placeholder_never_merge_witness :
  exists pl n,
    buildGraph Examples.truncated 1 ["main"] = Ok pl /\
    node_at (graph pl) "t0" = Some n /\
    parentShas n = [] /\ isMerge n = false.
Proof.
  do 2 eexists.
  split; [vm_compute; reflexivity|].
  split; [vm_compute; reflexivity|].
  apply (placeholder_never_merge Examples.truncated 1 ["main"] _ eq_refl).
  - vm_compute. right. right. left. reflexivity.
  - vm_compute. intros [E | [E | []]]; discriminate E.
Defined.

(** C4, as the code has it.  A parent id that a commit of the expanded set
    names and that is itself not in the set has a node whose author and
    date are empty, whose message is the marker ["(parent)"] and whose
    [parentShas] is empty; when it is created its [branches] are those of
    the first commit that names it, and the returned node carries at least
    these (the propagation pass may add to them). *)
Theorem placeholder_fields (prov : Provider) (maxCommits : Z)
        (branchTips : list string) (pl : Payload) :
  buildGraph prov maxCommits branchTips = Ok pl ->
  forall c p,
    In c (expandedOf prov maxCommits branchTips) -> In p (parents c) ->
    ~ In p (map sha (expandedOf prov maxCommits branchTips)) ->
    exists n d n2,
      node_at (graph pl) p = Some n /\ In n (nodes (graph pl)) /\ id n = p /\
      author n = "" /\ message n = "(parent)" /\ date n = "" /\
      parentShas n = [] /\
      discoverer (expandedOf prov maxCommits branchTips) p = Some d /\
      map_get (linkedNodes (expandedOf prov maxCommits branchTips)
                           (membershipOf prov maxCommits branchTips)) p
        = Some n2 /\
      branches n2 =
        knownBranches (membershipOf prov maxCommits branchTips) (sha d) /\
      incl (branches n2) (branches n).
Proof.
  intros H c p Hc Hp Hnot.
  rewrite (buildGraph_graph prov maxCommits branchTips pl H).
  destruct (parent_has_node _ (membershipOf prov maxCommits branchTips)
              c p Hc Hp) as (n & Hat & Hin & Hid).
  rewrite <- Hid in Hnot.
  destruct (placeholder_node _ _ n Hin Hnot)
    as (Ha & Hm & Hd & Hps & _ & d & n2 & Hdisc & H2 & Hb & Hincl).
  rewrite Hid in Hdisc, H2.
  exists n, d, n2. repeat split; assumption.
Qed.

Lemma placeholder_fields_witness :
  exists pl n,
    buildGraph Examples.truncated 1 ["main"] = Ok pl /\
    node_at (graph pl) "t0" = Some n /\
    author n = "" /\ message n = "(parent)" /\ date n = "" /\
    parentShas n = [].
Proof.
  eexists.
  destruct (placeholder_fields Examples.truncated 1 ["main"] _ eq_refl
              (Examples.commit "t1" ["t0"]) "t0")
    as (n & d & n2 & Hat & _ & _ & Ha & Hm & Hd & Hp & _).
  - vm_compute. right. left. reflexivity.
  - left. reflexivity.
  - vm_compute. intros [E | [E | []]]; discriminate E.
  - exists n. split; [reflexivity|]. repeat split; assumption.
Defined.

(** C4 as stated fails: the message of a placeholder is not empty, and the
    branches of the returned placeholder need not be the inherited ones.
    In the first request [t0] is discovered by [t1], which carries no branch
    then, and ends with [main]; in the second [p] is discovered by [c1],
    which carries [main], and ends with [main] and [dev]. *)
Lemma placeholder_not_as_claimed :
  (exists pl n d,
     buildGraph Examples.truncated 1 ["main"] = Ok pl /\
     node_at (graph pl) "t0" = Some n /\
     message n = "(parent)" /\ message n <> "" /\
     discoverer (expandedOf Examples.truncated 1 ["main"]) "t0" = Some d /\
     knownBranches (membershipOf Examples.truncated 1 ["main"]) (sha d) = [] /\
     branches n = ["main"]) /\
  (exists pl n d,
     buildGraph Examples.twoChildren 2 ["dev"; "main"] = Ok pl /\
     node_at (graph pl) "p" = Some n /\
     discoverer (expandedOf Examples.twoChildren 2 ["dev"; "main"]) "p"
       = Some d /\
     sha d = "c1" /\
     knownBranches (membershipOf Examples.twoChildren 2 ["dev"; "main"]) (sha d)
       = ["main"] /\
     branches n = ["main"; "dev"]).
Proof.
  split.
  - do 3 eexists.
    split; [vm_compute; reflexivity|].
    split; [vm_compute; reflexivity|].
    split; [vm_compute; reflexivity|].
    split; [vm_compute; discriminate|].
    split; [vm_compute; reflexivity|].
    split; vm_compute; reflexivity.
  - do 3 eexists.
    split; [vm_compute; reflexivity|].
    split; [vm_compute; reflexivity|].
    split; [vm_compute; reflexivity|].
    split; [vm_compute; reflexivity|].
    split; vm_compute; reflexivity.
Qed.






(** * Further properties of the code *)

(** ** More about the graph [buildGraphFromCommits] returns *)

Section GraphDetails.

Variable cs : list Commit.
Variable commitToBranches : BranchIndex.

Local Abbreviation m2 := (linkedNodes cs commitToBranches).
Local Abbreviation m3 := (propagatedNodes cs commitToBranches).
Local Abbreviation g := (buildGraphFromCommits cs commitToBranches).

(** A node of the second pass and its node in the graph. *)
Lemma linked_to_graph (k : string) (n2 : Node) :
  map_get m2 k = Some n2 ->
  exists n, node_at g k = Some n /\ In n (nodes g) /\ id n = k /\
    author n = author n2 /\ message n = message n2 /\ date n = date n2 /\
    parentShas n = parentShas n2 /\ childShas n = childShas n2 /\
    incl (branches n2) (branches n).
Proof.
  intros H2.
  destruct (propagated_forth cs commitToBranches k n2 H2) as (bs & H3 & I).
  assert (Hat : node_at g k = Some (classify (with_branches n2 bs))).
  { rewrite node_at_build, H3. reflexivity. }
  assert (Hid : id (classify (with_branches n2 bs)) = k).
  { simpl. eapply linked_id; eauto. }
  eexists. split; [exact Hat|]. split.
  - apply node_in_build. now rewrite Hid.
  - simpl. split; [eapply linked_id; eauto|]. repeat split; auto.
Qed.

(** Every commit of the list has a node. *)
Lemma commit_has_node (c : Commit) :
  In c cs -> exists n, node_at g (sha c) = Some n /\ In n (nodes g).
Proof.
  intros Hc.
  destruct (linked_real cs commitToBranches (sha c)) as (c' & chs & _ & _ & H2).
  { now apply in_map. }
  destruct (linked_to_graph _ _ H2) as (n & Hat & Hin & _). eauto.
Qed.

(** With distinct shas, the node of a commit holds the commit. *)
Lemma commit_node (c : Commit) :
  NoDup (map sha cs) -> In c cs ->
  exists n, node_at g (sha c) = Some n /\ In n (nodes g) /\ id n = sha c /\
    author n = or_else (commit_author_name c) (or_else (author_login c) "") /\
    message n = or_else (commit_message c) "" /\
    date n = or_else (commit_author_date c) "" /\
    parentShas n = parents c /\
    incl (knownBranches commitToBranches (sha c)) (branches n).
Proof.
  intros Hnd Hc.
  destruct (linked_real_unique cs commitToBranches c Hnd Hc) as [chs H2].
  destruct (linked_to_graph _ _ H2)
    as (n & Hat & Hin & Hid & Ha & Hm & Hd & Hp & _ & Hb).
  exists n. simpl in *. repeat split; assumption.
Qed.

(** The ids of the nodes are the shas of the commits and the ids they name
    as parents. *)
Lemma node_ids (k : string) :
  In k (map id (nodes g)) <->
  In k (map sha cs) \/ exists c, In c cs /\ In k (parents c).
Proof.
  split.
  - intros H. apply in_map_iff in H. destruct H as (n & Hid & Hin).
    apply node_in_build in Hin. rewrite Hid in Hin.
    destruct (in_dec string_dec k (map sha cs)) as [Hk | Hk]; [now left|].
    right.
    destruct (node_at_inv cs commitToBranches k n Hin) as (n2 & H2 & _).
    destruct (linked_placeholder cs commitToBranches k n2 Hk H2)
      as (d & chs & Hd & _).
    unfold discoverer in Hd. apply find_some in Hd. destruct Hd as [Hin' Hinc].
    apply includes_In in Hinc. eauto.
  - intros [Hk | (c & Hc & Hp)].
    + apply in_map_iff in Hk. destruct Hk as (c & <- & Hc).
      destruct (commit_has_node c Hc) as (n & Hat & Hin).
      apply in_map_iff. exists n. split; [| assumption].
      apply node_in_build in Hin. rewrite node_at_build in Hat, Hin.
      destruct (map_get m3 (sha c)) as [a |] eqn:E; [| discriminate].
      destruct (map_get m3 (id n)) as [b |] eqn:E'; [| discriminate].
      simpl in Hat. injection Hat as <-. simpl.
      apply map_get_In in E. now apply propagated_id in E.
    + destruct (parent_has_node cs commitToBranches c k Hc Hp)
        as (n & _ & Hin & Hid).
      apply in_map_iff. eauto.
Qed.

(** The child lists of the second pass have no duplicates. *)
Lemma linkParent_children_distinct (B : string) (inh : list string)
      (acc : NodeMap * list Link) (p : string) :
  (forall k n, map_get (fst acc) k = Some n -> NoDup (childShas n)) ->
  forall k n, map_get (fst (linkParent B inh acc p)) k = Some n ->
              NoDup (childShas n).
Proof.
  destruct acc as [m ls]. intros Hall k n Hget.
  pose proof (linkParent_spec B inh m ls p) as H. cbv zeta in H.
  destruct H as (_ & Hp & Hother & _).
  destruct (string_dec k p) as [-> | Hne].
  - rewrite Hp in Hget. injection Hget as <-. unfold pushChild. simpl.
    assert (Hold : NoDup (childShas match map_get m p with
                                    | Some n => n
                                    | None => placeholder p inh
                                    end)).
    { destruct (map_get m p) as [n0 |] eqn:E; [eapply Hall; eauto | constructor]. }
    destruct (includes _ B) eqn:I; [assumption|].
    apply includes_false in I.
    apply NoDup_app; [assumption | repeat constructor; auto |].
    intros a Ha [<- | []]. contradiction.
  - rewrite (Hother k Hne) in Hget. eapply Hall; eauto.
Qed.

Lemma linkParents_children_distinct (B : string) (inh : list string)
      (ps : list string) :
  forall acc,
    (forall k n, map_get (fst acc) k = Some n -> NoDup (childShas n)) ->
    forall k n, map_get (fst (fold_left (linkParent B inh) ps acc)) k = Some n ->
                NoDup (childShas n).
Proof.
  induction ps as [| p ps IHp]; intros acc Hall; simpl; [exact Hall|].
  apply IHp. now apply linkParent_children_distinct.
Qed.

Lemma linked_children_distinct (k : string) (n : Node) :
  map_get m2 k = Some n -> NoDup (childShas n).
Proof.
  unfold linkedNodes, linkNodes.
  assert (Hgen : forall l acc,
    (forall k n, map_get (fst acc) k = Some n -> NoDup (childShas n)) ->
    forall k n, map_get (fst (fold_left linkCommit l acc)) k = Some n ->
                NoDup (childShas n)).
  { induction l as [| c l IH]; intros acc Hall; simpl; [exact Hall|].
    apply IH. unfold linkCommit. now apply linkParents_children_distinct. }
  apply Hgen. cbn [fst]. intros k' n' H.
  apply createNodes_real in H. destruct H as (c & _ & _ & ->). constructor.
Qed.

(** The order of the map after the second pass: the commits, then the
    placeholders. *)
Lemma createNodes_distinct :
  NoDup (map sha cs) ->
  createNodes cs commitToBranches =
  map (fun c => (sha c, nodeOfCommit commitToBranches c)) cs.
Proof.
  intros Hnd. rewrite createNodes_fold.
  assert (Hgen : forall l m,
    NoDup (map_keys m ++ map sha l) ->
    fold_left (addNode commitToBranches) l m =
    m ++ map (fun c => (sha c, nodeOfCommit commitToBranches c)) l).
  { induction l as [| c l IH]; intros m H; simpl; [now rewrite app_nil_r|].
    assert (Hc : ~ In (sha c) (map_keys m)).
    { intros Hin. apply NoDup_remove_2 in H. apply H. apply in_app_iff. now left. }
    unfold addNode at 2. rewrite (map_set_absent _ m (sha c) _ Hc), IH.
    - now rewrite <- app_assoc.
    - unfold map_keys. rewrite map_app. simpl. rewrite <- app_assoc. exact H. }
  now rewrite Hgen.
Qed.

Lemma linkParent_keys (B : string) (inh : list string)
      (acc : NodeMap * list Link) (p : string) :
  exists tail, map_keys (fst (linkParent B inh acc p)) = map_keys (fst acc) ++ tail.
Proof.
  destruct acc as [m ls]. unfold linkParent. cbn [fst].
  set (m1 := if map_has m p then m else map_set m p (placeholder p inh)).
  assert (H1 : exists tail, map_keys m1 = map_keys m ++ tail).
  { unfold m1. destruct (map_has m p) eqn:E.
    - exists []. now rewrite app_nil_r.
    - exists [p]. now rewrite map_keys_set, E. }
  destruct H1 as [tail H1].
  destruct (map_get m1 p) as [n |] eqn:G; [| eauto].
  destruct (includes (childShas n) B); [eauto|].
  rewrite map_keys_set_present; [eauto|]. eapply map_get_keys; eauto.
Qed.

Lemma linkParents_keys (B : string) (inh : list string) (ps : list string) :
  forall acc, exists tail,
    map_keys (fst (fold_left (linkParent B inh) ps acc))
    = map_keys (fst acc) ++ tail.
Proof.
  induction ps as [| p ps IHp]; intros acc; simpl.
  - exists []. now rewrite app_nil_r.
  - destruct (IHp (linkParent B inh acc p)) as [t3 H3].
    destruct (linkParent_keys B inh acc p) as [t4 H4].
    exists (t4 ++ t3). now rewrite H3, H4, app_assoc.
Qed.

Lemma linkNodes_keys :
  exists tail,
    map_keys m2 = map_keys (createNodes cs commitToBranches) ++ tail.
Proof.
  unfold linkedNodes, linkNodes.
  assert (Hgen : forall l acc, exists tail,
    map_keys (fst (fold_left linkCommit l acc)) = map_keys (fst acc) ++ tail).
  { induction l as [| c l IH]; intros acc; simpl.
    - exists []. now rewrite app_nil_r.
    - destruct (IH (linkCommit acc c)) as [t1 H1].
      assert (H2 : exists t2,
        map_keys (fst (linkCommit acc c)) = map_keys (fst acc) ++ t2).
      { unfold linkCommit. apply linkParents_keys. }
      destruct H2 as [t2 H2]. exists (t2 ++ t1).
      now rewrite H1, H2, app_assoc. }
  apply Hgen.
Qed.

End GraphDetails.

(** ** What the propagation pass does to the branch lists *)

Section BranchLists.

Variable Q : list string -> Prop.
Hypothesis Q_union : forall a b,
  Q a -> Q b -> Q (fold_left set_add b (set_of_list a)).

Lemma propagateBranchInfo_lists (brs : list string) (fuel : nat) :
  Q brs ->
  forall s st st',
    propagateBranchInfo fuel s brs st = Some st' ->
    (forall k n, map_get (fst st) k = Some n -> Q (branches n)) ->
    (forall k n, map_get (fst st') k = Some n -> Q (branches n)).
Proof.
  intros Hb. induction fuel as [| fuel IH]; intros s st st' H Hall;
    simpl in H; [discriminate|].
  destruct (set_has (snd st) s || (List.length brs =? 0)%nat);
    [now injection H as <-|].
  destruct (map_get (fst st) s) as [node |] eqn:G;
    [| injection H as <-; exact Hall].
  set (st1 := (map_set (fst st) s
                 (with_branches node
                    (fold_left set_add brs (set_of_list (branches node)))),
               set_add (snd st) s)) in H.
  assert (H1 : forall k n, map_get (fst st1) k = Some n -> Q (branches n)).
  { intros k n Hk. unfold st1 in Hk. cbn [fst] in Hk.
    rewrite map_get_set in Hk. destruct (s =? k).
    - injection Hk as <-. simpl. apply Q_union; [eapply Hall; eauto | exact Hb].
    - eapply Hall; eauto. }
  clearbody st1. revert st1 H H1.
  induction (parentShas node) as [| p ps IHp]; intros st1 H H1; simpl in H.
  - now injection H as <-.
  - destruct (propagateBranchInfo fuel p brs st1) as [st2 |] eqn:E;
      [| discriminate].
    apply (IHp st2 H). eapply IH; eauto.
Qed.

Lemma propagateFrom_lists (fuel : nat) (st : PState) (s : string) :
  (forall k n, map_get (fst st) k = Some n -> Q (branches n)) ->
  forall k n, map_get (fst (propagateFrom fuel st s)) k = Some n ->
              Q (branches n).
Proof.
  intros Hall. unfold propagateFrom.
  destruct (map_get (fst st) s) as [node |] eqn:G; [| exact Hall].
  destruct (0 <? List.length (branches node))%nat; [| exact Hall].
  destruct (propagateBranchInfo fuel s (branches node) st) as [st' |] eqn:E;
    [| exact Hall].
  eapply propagateBranchInfo_lists; eauto.
Qed.

Lemma propagateAll_lists (m : NodeMap) :
  (forall k n, map_get m k = Some n -> Q (branches n)) ->
  forall k n, map_get (fst (propagateAll m)) k = Some n -> Q (branches n).
Proof.
  unfold propagateAll. generalize (S (List.length m)) as fuel.
  intros fuel Hm.
  assert (Hgen : forall l (st : PState),
    (forall k n, map_get (fst st) k = Some n -> Q (branches n)) ->
    forall k n, map_get (fst (fold_left (propagateFrom fuel) l st)) k = Some n ->
                Q (branches n)).
  { induction l as [| s l IH]; intros st Hall; cbn [fold_left];
      [exact Hall|].
    apply (IH (propagateFrom fuel st s)).
    now apply propagateFrom_lists. }
  apply Hgen. exact Hm.
Qed.

End BranchLists.

Section GraphBranches.

Variable cs : list Commit.
Variable commitToBranches : BranchIndex.

Lemma linked_branches (k : string) (n : Node) :
  map_get (linkedNodes cs commitToBranches) k = Some n ->
  exists s, branches n = knownBranches commitToBranches s.
Proof.
  intros H. destruct (in_dec string_dec k (map sha cs)) as [Hk | Hk].
  - destruct (linked_real cs commitToBranches k Hk) as (c & chs & _ & _ & H2).
    rewrite H2 in H. injection H as <-. simpl. eauto.
  - destruct (linked_placeholder cs commitToBranches k n Hk H)
      as (d & chs & _ & ->). simpl. eauto.
Qed.

(** A node carries only branches of the membership map. *)
Lemma node_branches_known (n : Node) (b : string) :
  In n (nodes (buildGraphFromCommits cs commitToBranches)) ->
  In b (branches n) ->
  exists s, In b (knownBranches commitToBranches s).
Proof.
  intros Hn Hb. rewrite build_nodes in Hn. apply in_map_iff in Hn.
  destruct Hn as (n3 & <- & H3). apply map_values_In in H3.
  destruct H3 as [k H3].
  assert (Hnd : NoDup (map_keys (propagatedNodes cs commitToBranches))).
  { rewrite propagated_keys. apply linked_NoDup. }
  apply map_In_get in H3; [| exact Hnd].
  refine (propagateAll_lists
            (fun l => forall x, In x l ->
                                exists s, In x (knownBranches commitToBranches s))
            _ (linkedNodes cs commitToBranches) _ k n3 H3 b Hb).
  - intros a c Ha Hc x Hx. apply fold_set_add_In in Hx.
    rewrite set_of_list_In in Hx. destruct Hx; auto.
  - intros k' n' H x Hx. destruct (linked_branches k' n' H) as [s E].
    rewrite E in Hx. eauto.
Qed.


End GraphBranches.

(** ** More about the state the collector returns *)

Section Membership.

Import Collector.

Variable prov : Provider.
Variable maxCommits : Z.
Variable tips : list string.

Lemma knownBranches_recordBranch_In (b : string) (c : Commit) (st : CState)
      (s x : string) :
  In x (knownBranches (commitToBranches (recordBranch b c st)) s) <->
  In x (knownBranches (commitToBranches st) s) \/ (s = sha c /\ x = b).
Proof.
  unfold knownBranches, recordBranch. simpl. rewrite map_get_set.
  destruct (sha c =? s) eqn:E.
  - apply String.eqb_eq in E. subst s. rewrite set_add_In.
    split; [intros [H | H]; auto | intros [H | [_ H]]; auto].
  - apply String.eqb_neq in E. split; [auto | intros [H | [H _]]; congruence].
Qed.

Lemma MembershipInv_record (b : string) (c : Commit) (st : CState) :
  In b tips -> MembershipInv tips st ->
  MembershipInv tips (recordBranch b c st).
Proof.
  intros Hb [Hfrom Hnd Hkeys Hcounts]. constructor.
  - intros s x Hx. apply knownBranches_recordBranch_In in Hx.
    destruct Hx as [Hx | [_ ->]]; eauto.
  - intros s. unfold knownBranches, recordBranch. simpl. rewrite map_get_set.
    destruct (sha c =? s) eqn:E.
    + apply String.eqb_eq in E. subst s. apply set_add_NoDup.
      apply (Hnd (sha c)).
    + apply (Hnd s).
  - exact Hkeys.
  - intros b' k Hk. etransitivity; [apply (Hcounts b' k Hk)|].
    simpl. apply filter_length_mono. intros x Hx.
    apply includes_In. apply includes_In in Hx.
    apply knownBranches_recordBranch_In. now left.
Qed.

Lemma MembershipInv_accept (b : string) (c : Commit) (st : CState) :
  In b tips -> In b (knownBranches (commitToBranches st) (sha c)) ->
  MembershipInv tips st -> MembershipInv tips (accept b c st).
Proof.
  intros Hb Hc [Hfrom Hnd Hkeys Hcounts]. constructor; simpl; auto.
  - intros b' k. rewrite obj_get_set.
    destruct (b =? "__proto__"); [apply Hkeys|].
    destruct (b =? b') eqn:E.
    + apply String.eqb_eq in E. now subst.
    + apply Hkeys.
  - intros b' k. rewrite obj_get_set, filter_app, length_app. simpl.
    destruct (b =? "__proto__");
      [intros Hk; pose proof (Hcounts b' k Hk); lia|].
    destruct (b =? b') eqn:E.
    + apply String.eqb_eq in E. subst b'. intros Hk. injection Hk as <-.
      apply includes_In in Hc. rewrite Hc. simpl.
      destruct (map_get (perBranchCounts st) b) as [k0 |] eqn:G.
      * pose proof (Hcounts b k0 G). lia.
      * lia.
    + intros Hk. pose proof (Hcounts b' k Hk). lia.
Qed.

Lemma MembershipInv_processPage (b : string) (page : list Commit) :
  In b tips ->
  forall st saw, MembershipInv tips st ->
    MembershipInv tips (fst (processPage maxCommits b page st saw)).
Proof.
  intros Hb. induction page as [| c rest IH]; intros st saw Inv;
    cbn [processPage]; [assumption|].
  assert (Inv2 : MembershipInv tips
                   (if set_has (seen st) (sha c) then recordBranch b c st
                    else accept b c (recordBranch b c st))).
  { destruct (set_has (seen st) (sha c)).
    - now apply MembershipInv_record.
    - apply MembershipInv_accept; [assumption | | now apply MembershipInv_record].
      apply knownBranches_recordBranch_In. right. auto. }
  destruct (budgetReached maxCommits _); [assumption | now apply IH].
Qed.

Lemma MembershipInv_pageLoop (b : string) (fuel : nat) :
  In b tips ->
  forall page saw st st', MembershipInv tips st ->
    pageLoop fuel prov maxCommits b page saw st = Ok st' ->
    MembershipInv tips st'.
Proof.
  intros Hb. induction fuel as [| fuel IH]; intros page saw st st' Inv H;
    [discriminate|].
  rewrite pageLoop_unfold in H.
  destruct (budgetReached maxCommits st); [now injection H as <-|].
  destruct (listCommits prov b page) as [[| c rest] |]; try discriminate;
    [now injection H as <-|].
  pose proof (MembershipInv_processPage b (c :: rest) Hb st saw Inv) as Inv1.
  destruct (processPage maxCommits b (c :: rest) st saw) as [st1 saw1].
  destruct (saw1 || (List.length (c :: rest) <? 100)%nat).
  - now injection H as <-.
  - eapply IH; eauto.
Qed.

Lemma MembershipInv_start (b : string) (st : CState) :
  In b tips -> MembershipInv tips st -> MembershipInv tips (startBranch b st).
Proof.
  intros Hb [Hfrom Hnd Hkeys Hcounts]. constructor; simpl; auto.
  - intros b' k. rewrite obj_get_set.
    destruct (b =? "__proto__"); [apply Hkeys|].
    destruct (b =? b') eqn:E.
    + apply String.eqb_eq in E. now subst.
    + apply Hkeys.
  - intros b' k. rewrite obj_get_set.
    destruct (b =? "__proto__"); [apply Hcounts|].
    destruct (b =? b') eqn:E.
    + intros Hk. injection Hk as <-. lia.
    + apply Hcounts.
Qed.

Lemma MembershipInv_branchLoop (rest : list string) :
  incl rest tips ->
  forall st st', MembershipInv tips st ->
    branchLoop prov maxCommits rest st = Ok st' -> MembershipInv tips st'.
Proof.
  induction rest as [| b rest IH]; intros Hincl st st' Inv H;
    cbn [branchLoop] in H.
  - now injection H as <-.
  - assert (Hb : In b tips) by (apply Hincl; now left).
    destruct (pageLoop (S (Z.to_nat maxCommits)) prov maxCommits b 1 false
                       (startBranch b st)) as [st1 | |] eqn:E;
      try discriminate.
    apply (MembershipInv_pageLoop b _ Hb) in E;
      [| now apply MembershipInv_start].
    destruct (budgetReached maxCommits st1); [now injection H as <-|].
    eapply IH; eauto. intros x Hx. apply Hincl. now right.
Qed.

Lemma collectCommits_membership (st : CState) :
  collectCommits prov maxCommits tips = Ok st -> MembershipInv tips st.
Proof.
  apply MembershipInv_branchLoop; [apply incl_refl|].
  constructor; simpl.
  - intros s b [].
  - intros s. constructor.
  - intros b k H. discriminate.
  - intros b k H. discriminate.
Qed.

End Membership.

Lemma NoDup_app_disjoint (l r : list string) (x : string) :
  NoDup (l ++ r) -> In x l -> In x r -> False.
Proof.
  induction l as [| a l IH]; simpl; [tauto|].
  intros Hnd [-> | Hl] Hr; inversion Hnd as [| ? ? Hna Hl']; subst.
  - apply Hna, in_or_app. now right.
  - now apply IH.
Qed.

Section GraphChildren.

Variable cs : list Commit.
Variable commitToBranches : BranchIndex.

Lemma node_children (n : Node) :
  In n (nodes (buildGraphFromCommits cs commitToBranches)) ->
  NoDup (childShas n) /\
  forall B, In B (childShas n) <->
            exists c, In c cs /\ sha c = B /\ In (id n) (parents c).
Proof.
  intros Hn. apply node_in_build in Hn.
  destruct (node_at_inv cs commitToBranches (id n) n Hn)
    as (n2 & H2 & _ & E & _).
  assert (Hc : childShas n = childShas n2) by (rewrite E; reflexivity).
  rewrite Hc. split.
  - eapply linked_children_distinct; eauto.
  - intros B. eapply linked_children; eauto.
Qed.

End GraphChildren.

(** ** The graph of an answered request *)

(** X1.  Every link of an answered request joins two nodes of the graph,
    and runs from child to parent: its source lists its target among its
    [parentShas] and its target lists its source among its [childShas]. *)
Theorem links_join_nodes (prov : Provider) (maxCommits : Z)
        (branchTips : list string) (pl : Payload) :
  buildGraph prov maxCommits branchTips = Ok pl ->
  forall l, In l (links (graph pl)) ->
    exists nS nT,
      node_at (graph pl) (source l) = Some nS /\
      node_at (graph pl) (target l) = Some nT /\
      In nS (nodes (graph pl)) /\ In nT (nodes (graph pl)) /\
      In (target l) (parentShas nS) /\ In (source l) (childShas nT).
Proof.
  intros H l Hl.
  rewrite (buildGraph_graph prov maxCommits branchTips pl H) in *.
  pose proof (expandedOf_distinct prov maxCommits branchTips) as Hnd.
  rewrite build_links in Hl. apply in_map_iff in Hl.
  destruct Hl as ([B p] & <- & He). simpl.
  apply edges_In in He. destruct He as (c & Hc & <- & Hp).
  destruct (commit_node _ (membershipOf prov maxCommits branchTips) c Hnd Hc)
    as (nS & HS & HSin & _ & _ & _ & _ & HSp & _).
  destruct (parent_has_node _ (membershipOf prov maxCommits branchTips) c p
                            Hc Hp) as (nT & HT & HTin & _).
  exists nS, nT. repeat (split; [assumption|]).
  split; [now rewrite HSp|].
  apply (adjacency_agrees _ _ p (sha c) nT nS Hnd HT HS). now rewrite HSp.
Qed.

Lemma links_join_nodes_witness :
  exists pl nS nT,
    buildGraph Examples.truncated 2 ["main"] = Ok pl /\
    In (mkLink "t1" "t0") (links (graph pl)) /\
    node_at (graph pl) "t1" = Some nS /\
    node_at (graph pl) "t0" = Some nT /\
    In "t0" (parentShas nS) /\ In "t1" (childShas nT).
Proof.
  destruct (links_join_nodes Examples.truncated 2 ["main"] _ eq_refl
              (mkLink "t1" "t0")) as (nS & nT & HS & HT & _ & _ & Hp & Hc).
  - vm_compute. auto.
  - eexists _, nS, nT. split; [reflexivity|].
    split; [vm_compute; auto|]. auto.
Defined.

(** X2.  The node list of an answered request starts with one node per
    commit of the expanded commit set, in the order of that set; the nodes
    after them are the placeholders: the parent ids the commits name that
    are no commit of the set.  No two nodes share an id. *)
Theorem nodes_are_commits_then_parents (prov : Provider) (maxCommits : Z)
        (branchTips : list string) (pl : Payload) :
  buildGraph prov maxCommits branchTips = Ok pl ->
  let cs := expandedOf prov maxCommits branchTips in
  NoDup (map id (nodes (graph pl))) /\
  exists rest,
    map id (nodes (graph pl)) = map sha cs ++ rest /\
    forall k, In k rest <->
              (~ In k (map sha cs) /\ exists c, In c cs /\ In k (parents c)).
Proof.
  intros H cs.
  rewrite (buildGraph_graph prov maxCommits branchTips pl H).
  fold cs. set (c2b := membershipOf prov maxCommits branchTips).
  pose proof (expandedOf_distinct prov maxCommits branchTips) as Hnd.
  fold cs in Hnd.
  pose proof (node_ids_distinct cs c2b) as Hids.
  split; [exact Hids|].
  assert (Hkeys : map id (nodes (buildGraphFromCommits cs c2b)) =
                  map_keys (linkedNodes cs c2b)).
  { rewrite build_nodes, map_map.
    rewrite <- (propagated_keys cs c2b).
    unfold map_keys, map_values. rewrite map_map.
    apply map_ext_in. intros [k n] Hin. simpl.
    eapply propagated_id; eauto. }
  destruct (linkNodes_keys cs c2b) as [rest Hrest].
  rewrite createNodes_distinct in Hrest by exact Hnd.
  unfold map_keys at 2 in Hrest. rewrite map_map in Hrest. simpl in Hrest.
  change (map (fun c => sha c) cs) with (map sha cs) in Hrest.
  exists rest. split; [now rewrite Hkeys|].
  intros k. rewrite Hkeys, Hrest in Hids.
  pose proof (node_ids cs c2b k) as Hk. rewrite Hkeys, Hrest, in_app_iff in Hk.
  split.
  - intros Hin. split.
    + intros Hs. exact (NoDup_app_disjoint _ _ k Hids Hs Hin).
    + destruct (proj1 Hk (or_intror Hin)) as [Hs | Hp]; [| exact Hp].
      destruct (NoDup_app_disjoint _ _ k Hids Hs Hin).
  - intros [Hns Hp]. destruct (proj2 Hk (or_intror Hp)); tauto.
Qed.

Lemma nodes_are_commits_then_parents_witness :
  exists pl,
    buildGraph Examples.truncated 2 ["main"] = Ok pl /\
    NoDup (map id (nodes (graph pl))) /\
    exists rest,
      map id (nodes (graph pl)) =
      map sha (expandedOf Examples.truncated 2 ["main"]) ++ rest.
Proof.
  eexists. split; [vm_compute; reflexivity|].
  pose proof (nodes_are_commits_then_parents Examples.truncated 2 ["main"] _
                eq_refl) as [Hnd (rest & E & _)].
  split; [exact Hnd|]. exists rest. exact E.
Defined.

(** X3.  A commit of the expanded set has its own node: under the commit's
    sha, with the author, message, date and parents read from the commit,
    flagged as merge exactly when the commit names more than one parent, and
    carrying at least the branches recorded for it while collecting.  The
    later passes change none of these fields. *)
Theorem commit_node_content (prov : Provider) (maxCommits : Z)
        (branchTips : list string) (pl : Payload) (c : Commit) :
  buildGraph prov maxCommits branchTips = Ok pl ->
  In c (expandedOf prov maxCommits branchTips) ->
  exists n,
    node_at (graph pl) (sha c) = Some n /\ In n (nodes (graph pl)) /\
    id n = sha c /\
    author n = or_else (commit_author_name c) (or_else (author_login c) "") /\
    message n = or_else (commit_message c) "" /\
    date n = or_else (commit_author_date c) "" /\
    parentShas n = parents c /\
    isMerge n = (1 <? List.length (parents c))%nat /\
    incl (knownBranches (membershipOf prov maxCommits branchTips) (sha c))
         (branches n).
Proof.
  intros H Hc.
  rewrite (buildGraph_graph prov maxCommits branchTips pl H).
  pose proof (expandedOf_distinct prov maxCommits branchTips) as Hnd.
  destruct (commit_node _ (membershipOf prov maxCommits branchTips) c Hnd Hc)
    as (n & Hn & Hin & Hid & Ha & Hm & Hd & Hp & Hb).
  exists n. repeat (split; [assumption|]). split; [| assumption].
  rewrite <- Hp. rewrite build_nodes in Hin. apply in_map_iff in Hin.
  destruct Hin as (n3 & <- & _). reflexivity.
Qed.

Lemma commit_node_content_witness :
  exists pl n,
    buildGraph Examples.sharedRoot 4 ["main"; "dev"] = Ok pl /\
    node_at (graph pl) "b1" = Some n /\
    author n = "ann" /\ parentShas n = ["root"] /\ isMerge n = false.
Proof.
  destruct (commit_node_content Examples.sharedRoot 4 ["main"; "dev"] _
              (Examples.commit "b1" ["root"]) eq_refl)
    as (n & Hn & _ & _ & Ha & _ & _ & Hp & Hm & _).
  - vm_compute. auto 10.
  - eexists _, n. split; [reflexivity|]. auto.
Defined.

(** X4.  The [childShas] of a node of an answered request list, once each,
    the commits of the expanded set that name the node as a parent; each of
    them has a node of its own, and the node is flagged as split exactly
    when there is more than one. *)
Theorem children_are_the_commits_naming_the_node (prov : Provider)
        (maxCommits : Z) (branchTips : list string) (pl : Payload) (n : Node) :
  buildGraph prov maxCommits branchTips = Ok pl ->
  In n (nodes (graph pl)) ->
  NoDup (childShas n) /\
  (forall B, In B (childShas n) <->
             exists c, In c (expandedOf prov maxCommits branchTips) /\
                       sha c = B /\ In (id n) (parents c)) /\
  (forall B, In B (childShas n) ->
             exists nB, node_at (graph pl) B = Some nB /\
                        In (id n) (parentShas nB)) /\
  isSplit n = (1 <? List.length (childShas n))%nat.
Proof.
  intros H Hn.
  rewrite (buildGraph_graph prov maxCommits branchTips pl H) in *.
  pose proof (expandedOf_distinct prov maxCommits branchTips) as Hnd.
  destruct (node_children _ _ n Hn) as [Hd Hc].
  split; [exact Hd|]. split; [exact Hc|]. split.
  - intros B HB. apply Hc in HB. destruct HB as (c & Hin & <- & Hp).
    destruct (commit_node _ (membershipOf prov maxCommits branchTips) c Hnd Hin)
      as (nB & HnB & _ & _ & _ & _ & _ & HpB & _).
    exists nB. split; [exact HnB | now rewrite HpB].
  - rewrite build_nodes in Hn. apply in_map_iff in Hn.
    destruct Hn as (n3 & <- & _). reflexivity.
Qed.

Lemma children_are_the_commits_naming_the_node_witness :
  exists pl n,
    buildGraph Examples.sharedRoot 4 ["main"; "dev"] = Ok pl /\
    node_at (graph pl) "root" = Some n /\
    NoDup (childShas n) /\ isSplit n = (1 <? List.length (childShas n))%nat.
Proof.
  eexists. eexists.
  split; [vm_compute; reflexivity|].
  split; [vm_compute; reflexivity|].
  refine ((fun H => conj (proj1 H) (proj2 (proj2 (proj2 H))))
            (children_are_the_commits_naming_the_node
               Examples.sharedRoot 4 ["main"; "dev"] _ _ eq_refl _)).
  vm_compute. auto 10.
Defined.



Lemma flat_map_NoDup_part (A B : Type) (f : A -> list B) (l : list A) (a : A) :
  NoDup (flat_map f l) -> In a l -> NoDup (f a).
Proof.
  induction l as [| x l IH]; simpl; [tauto|].
  intros Hnd [-> | Hin].
  - eapply NoDup_app_remove_r; eauto.
  - apply IH; [| assumption]. eapply NoDup_app_remove_l; eauto.
Qed.

(** X6.  The links of an answered request are one per entry of each commit's
    parent list, in the order of the expanded commit set; so no two links
    are equal exactly when no commit of the set repeats a parent. *)
Theorem links_follow_parent_lists (prov : Provider) (maxCommits : Z)
        (branchTips : list string) (pl : Payload) :
  buildGraph prov maxCommits branchTips = Ok pl ->
  let cs := expandedOf prov maxCommits branchTips in
  links (graph pl) =
    flat_map (fun c => map (fun p => mkLink (sha c) p) (parents c)) cs /\
  (NoDup (links (graph pl)) <-> forall c, In c cs -> NoDup (parents c)).
Proof.
  intros H cs.
  rewrite (buildGraph_graph prov maxCommits branchTips pl H). fold cs.
  pose proof (expandedOf_distinct prov maxCommits branchTips) as Hnd.
  fold cs in Hnd. rewrite build_links. unfold edges.
  assert (E : map linkOf (flat_map edgesOf cs) =
              flat_map (fun c => map (fun p => mkLink (sha c) p) (parents c)) cs).
  { clear. induction cs as [| c cs IH]; simpl; [reflexivity|].
    rewrite map_app, IH. f_equal. unfold edgesOf. rewrite map_map.
    reflexivity. }
  split; [exact E|]. split.
  - intros Hl c Hc. rewrite E in Hl.
    apply (flat_map_NoDup_part _ _ _ cs c) in Hl; [| exact Hc].
    exact (NoDup_map_inv _ _ Hl).
  - intros Hp.
    pose proof (links_distinct_without_repeats cs
                  (membershipOf prov maxCommits branchTips) Hnd Hp) as Hl.
    unfold linksDistinct in Hl. now rewrite build_links in Hl.
Qed.

Lemma links_follow_parent_lists_witness :
  exists pl,
    buildGraph Examples.repeatedParent 2 ["main"] = Ok pl /\
    links (graph pl) = [mkLink "m" "p"; mkLink "m" "p"].
Proof.
  eexists. split; [vm_compute; reflexivity|].
  etransitivity;
    [apply (links_follow_parent_lists Examples.repeatedParent 2 ["main"] _
              eq_refl)|].
  vm_compute. reflexivity.
Defined.

(** ** The counters of the collector *)

Section Counters.

Import Collector.

Variable prov : Provider.
Variable maxCommits : Z.

Lemma list_sum_set (m : JsMap nat) (k : string) (v : nat) :
  list_sum (map_values (map_set m k v))
  + match map_get m k with Some old => old | None => 0 end
  = list_sum (map_values m) + v.
Proof.
  induction m as [| [k' v'] m IH]; cbn [map_set map_get]; [simpl; lia|].
  destruct (k' =? k).
  - change (v + list_sum (map_values m) + v'
            = v' + list_sum (map_values m) + v). lia.
  - change (v' + list_sum (map_values (map_set m k v))
            + match map_get m k with Some old => old | None => 0 end
            = v' + list_sum (map_values m) + v). lia.
Qed.

Lemma obj_set_plain (m : JsMap nat) (k : string) (v : nat) :
  k <> "__proto__" -> obj_set m k v = map_set m k v.
Proof.
  intros H. unfold obj_set. apply String.eqb_neq in H. now rewrite H.
Qed.

Lemma obj_set_proto (m : JsMap nat) (v : nat) : obj_set m "__proto__" v = m.
Proof. reflexivity. Qed.

(** *** A property kept by every step is kept by the loop *)

Section Kept.

Variable P : CState -> Prop.
Variable tips : list string.
Hypothesis kept_record : forall b c st, P st -> P (recordBranch b c st).
Hypothesis kept_accept : forall b c st, In b tips -> P st -> P (accept b c st).
Hypothesis kept_start : forall b st, In b tips -> P st -> P (startBranch b st).

Lemma kept_processPage (b : string) (page : list Commit) :
  In b tips ->
  forall st saw, P st -> P (fst (processPage maxCommits b page st saw)).
Proof.
  intros Hb. induction page as [| c rest IH]; intros st saw Hst;
    cbn [processPage]; [assumption|].
  assert (H2 : P (if set_has (seen st) (sha c) then recordBranch b c st
                  else accept b c (recordBranch b c st)))
    by (destruct (set_has (seen st) (sha c)); auto).
  destruct (budgetReached maxCommits _); [assumption | now apply IH].
Qed.

Lemma kept_pageLoop (b : string) (fuel : nat) :
  In b tips ->
  forall page saw st st', P st ->
    pageLoop fuel prov maxCommits b page saw st = Ok st' -> P st'.
Proof.
  intros Hb. induction fuel as [| fuel IH]; intros page saw st st' Hst H;
    [discriminate|].
  rewrite pageLoop_unfold in H.
  destruct (budgetReached maxCommits st); [now injection H as <-|].
  destruct (listCommits prov b page) as [[| c rest] |]; try discriminate;
    [now injection H as <-|].
  pose proof (kept_processPage b (c :: rest) Hb st saw Hst) as H1.
  destruct (processPage maxCommits b (c :: rest) st saw) as [st1 saw1].
  destruct (saw1 || (List.length (c :: rest) <? 100)%nat).
  - now injection H as <-.
  - eapply IH; eauto.
Qed.

Lemma kept_branchLoop (rest : list string) :
  incl rest tips ->
  forall st st', P st -> branchLoop prov maxCommits rest st = Ok st' -> P st'.
Proof.
  induction rest as [| b rest IH]; intros Hincl st st' Hst H;
    cbn [branchLoop] in H.
  - now injection H as <-.
  - assert (Hb : In b tips) by (apply Hincl; now left).
    destruct (pageLoop (S (Z.to_nat maxCommits)) prov maxCommits b 1 false
                       (startBranch b st)) as [st1 | |] eqn:E;
      try discriminate.
    apply (kept_pageLoop b _ Hb) in E; [| now apply kept_start].
    destruct (budgetReached maxCommits st1); [now injection H as <-|].
    eapply IH; eauto. intros x Hx. apply Hincl. now right.
Qed.

End Kept.

(** No count is kept under [__proto__]. *)
Lemma collectCommits_no_proto (tips : list string) (st : CState) :
  collectCommits prov maxCommits tips = Ok st ->
  map_get (perBranchCounts st) "__proto__" = None.
Proof.
  apply (kept_branchLoop
           (fun st => map_get (perBranchCounts st) "__proto__" = None) tips);
    auto using incl_refl.
  - intros b c st0 _ H. simpl. now apply obj_set_no_proto.
  - intros b st0 _ H. simpl. now apply obj_set_no_proto.
Qed.

Lemma collectCommits_countsBelow (tips : list string) (st : CState) :
  collectCommits prov maxCommits tips = Ok st -> countsBelow st.
Proof.
  apply (kept_branchLoop countsBelow tips); auto using incl_refl.
  - intros b c st0 _ H. unfold countsBelow in *. simpl.
    rewrite length_app. simpl.
    destruct (string_dec b "__proto__") as [-> | Hp];
      [rewrite obj_set_proto; lia|].
    rewrite obj_set_plain by exact Hp.
    pose proof (list_sum_set (perBranchCounts st0) b
                  (S match map_get (perBranchCounts st0) b with
                     | Some n => n | None => 0 end)) as E.
    destruct (map_get (perBranchCounts st0) b); lia.
  - intros b st0 _ H. unfold countsBelow in *. simpl.
    destruct (string_dec b "__proto__") as [-> | Hp];
      [now rewrite obj_set_proto|].
    rewrite obj_set_plain by exact Hp.
    pose proof (list_sum_set (perBranchCounts st0) b 0) as E. lia.
  - unfold countsBelow. simpl. lia.
Qed.

(** *** Exact counts, for a plan without repeats and without [__proto__] *)

Lemma countsAddUp_step (b : string) (c : Commit) (st : CState) :
  b <> "__proto__" ->
  countsAddUp st ->
  countsAddUp (if set_has (seen st) (sha c) then recordBranch b c st
               else accept b c (recordBranch b c st)).
Proof.
  unfold countsAddUp. intros Hp H.
  destruct (set_has (seen st) (sha c)); simpl; [exact H|].
  rewrite length_app. simpl. rewrite obj_set_plain by exact Hp.
  pose proof (list_sum_set (perBranchCounts st) b
                (S match map_get (perBranchCounts st) b with
                   | Some n => n | None => 0 end)) as E.
  destruct (map_get (perBranchCounts st) b); lia.
Qed.

Lemma others_step (b b' : string) (c : Commit) (st : CState) :
  b' <> b ->
  map_get (perBranchCounts
             (if set_has (seen st) (sha c) then recordBranch b c st
              else accept b c (recordBranch b c st))) b'
  = map_get (perBranchCounts st) b'.
Proof.
  intros Hne. destruct (set_has (seen st) (sha c)); simpl; [reflexivity|].
  apply obj_get_set_other. congruence.
Qed.

Lemma countsAddUp_processPage (b : string) (page : list Commit) :
  b <> "__proto__" ->
  forall st saw, countsAddUp st ->
    countsAddUp (fst (processPage maxCommits b page st saw)) /\
    forall b', b' <> b ->
      map_get (perBranchCounts (fst (processPage maxCommits b page st saw))) b'
      = map_get (perBranchCounts st) b'.
Proof.
  intros Hp. induction page as [| c rest IH]; intros st saw Inv;
    cbn [processPage]; [auto|].
  pose proof (countsAddUp_step b c st Hp Inv) as Inv2.
  pose proof (fun b' => others_step b b' c st) as O2.
  destruct (budgetReached maxCommits _); [auto|].
  destruct (IH _ (if set_has (seen st) (sha c) then true else saw) Inv2)
    as [I3 O3].
  split; [exact I3|]. intros b' Hne. rewrite O3, O2; auto.
Qed.

Lemma countsAddUp_pageLoop (b : string) (fuel : nat) :
  b <> "__proto__" ->
  forall page saw st st', countsAddUp st ->
    pageLoop fuel prov maxCommits b page saw st = Ok st' ->
    countsAddUp st' /\
    forall b', b' <> b ->
      map_get (perBranchCounts st') b' = map_get (perBranchCounts st) b'.
Proof.
  intros Hp. induction fuel as [| fuel IH]; intros page saw st st' Inv H;
    [discriminate|].
  rewrite pageLoop_unfold in H.
  destruct (budgetReached maxCommits st); [injection H as <-; auto|].
  destruct (listCommits prov b page) as [[| c rest] |]; try discriminate;
    [injection H as <-; auto|].
  destruct (countsAddUp_processPage b (c :: rest) Hp st saw Inv) as [I1 O1].
  destruct (processPage maxCommits b (c :: rest) st saw) as [st1 saw1].
  simpl in I1, O1.
  destruct (saw1 || (List.length (c :: rest) <? 100)%nat).
  - injection H as <-. auto.
  - destruct (IH _ _ _ _ I1 H) as [I2 O2]. split; [exact I2|].
    intros b' Hne. rewrite O2, O1; auto.
Qed.

Lemma countsAddUp_branchLoop (rest : list string) :
  NoDup rest -> ~ In "__proto__" rest ->
  forall st st',
    (forall b, In b rest -> map_get (perBranchCounts st) b = None) ->
    countsAddUp st ->
    branchLoop prov maxCommits rest st = Ok st' -> countsAddUp st'.
Proof.
  induction 1 as [| b rest Hnot Hnd IH]; intros Hproto st st' Habs Inv H;
    cbn [branchLoop] in H.
  - now injection H as <-.
  - assert (Hp : b <> "__proto__") by (intros ->; apply Hproto; now left).
    destruct (pageLoop (S (Z.to_nat maxCommits)) prov maxCommits b 1 false
                       (startBranch b st)) as [st1 | |] eqn:E;
      try discriminate.
    assert (Inv0 : countsAddUp (startBranch b st)).
    { unfold countsAddUp in *. simpl. rewrite obj_set_plain by exact Hp.
      pose proof (list_sum_set (perBranchCounts st) b 0) as Es.
      rewrite (Habs b (or_introl eq_refl)) in Es. lia. }
    destruct (countsAddUp_pageLoop b _ Hp _ _ _ _ Inv0 E) as [I1 O1].
    destruct (budgetReached maxCommits st1); [now injection H as <-|].
    apply (IH (fun Hc => Hproto (or_intror Hc)) st1 st'); auto.
    intros b' Hb'. rewrite O1 by (intros ->; contradiction).
    simpl. rewrite obj_get_set_other by (intros ->; contradiction).
    apply Habs. now right.
Qed.

Lemma collectCommits_countsAddUp (tips : list string) (st : CState) :
  NoDup tips -> ~ In "__proto__" tips ->
  collectCommits prov maxCommits tips = Ok st -> countsAddUp st.
Proof.
  intros Hnd Hp. apply countsAddUp_branchLoop; auto. reflexivity.
Qed.

End Counters.

Lemma collected_on_branch_le_nodes (cs : list Commit) (c2b : BranchIndex)
      (collected : list Commit) (b : string) :
  NoDup (map sha cs) -> incl collected cs -> NoDup (map sha collected) ->
  List.length
    (filter (fun c => includes (knownBranches c2b (sha c)) b) collected)
  <= countBranch (buildGraphFromCommits cs c2b) b.
Proof.
  intros Hnd Hincl Hc. unfold countBranch.
  rewrite <- (length_map sha (filter _ collected)).
  rewrite <- (length_map id (filter _ (nodes _))).
  apply NoDup_incl_length.
  - clear Hincl. induction collected as [| c l IH]; simpl; [constructor|].
    inversion Hc as [| ? ? Hn Hl]; subst.
    destruct (includes (knownBranches c2b (sha c)) b); [| now apply IH].
    simpl. constructor; [| now apply IH].
    intros Hin. apply Hn. apply in_map_iff in Hin.
    destruct Hin as (x & E & Hx). apply filter_In in Hx.
    rewrite <- E. apply in_map. tauto.
  - intros s Hs. apply in_map_iff in Hs. destruct Hs as (c & <- & Hf).
    apply filter_In in Hf. destruct Hf as [Hin Hb].
    destruct (commit_node cs c2b c Hnd (Hincl c Hin))
      as (n & _ & Hn & Hid & _ & _ & _ & _ & Hbr).
    rewrite <- Hid. apply in_map. apply filter_In. split; [exact Hn|].
    apply includes_In. apply Hbr. now apply includes_In.
Qed.

Lemma ensureParents_extra_bound (getCommit : string -> option Commit)
      (init extra : list Commit) (ids : list string) :
  NoDup (map sha extra) ->
  (forall c, In c extra -> exists s, In s ids /\ getCommit s = Some c) ->
  List.length extra <= List.length ids.
Proof.
  intros Hnd Hfrom.
  set (answers := flat_map (fun s => match getCommit s with
                                     | Some c => [c] | None => [] end) ids).
  assert (Hlen : List.length answers <= List.length ids).
  { unfold answers. clear. induction ids as [| s ids IH]; simpl; [lia|].
    rewrite length_app. destruct (getCommit s); simpl; lia. }
  etransitivity; [| exact Hlen].
  apply NoDup_incl_length.
  - eapply NoDup_map_inv; eauto.
  - intros c Hc. destruct (Hfrom c Hc) as (s & Hs & E).
    unfold answers. apply in_flat_map. exists s. split; [exact Hs|].
    rewrite E. now left.
Qed.

Lemma expanded_bound (prov : Provider) (st : Collector.CState) :
  NoDup (map sha (Collector.allCommits st)) ->
  uniqueCommits st = Collector.allCommits st ->
  List.length (Collector.allCommits st)
  <= List.length (expandedCommits prov st)
  <= List.length (Collector.allCommits st) + MAX_PARENT_FETCH.
Proof.
  intros Hnd Hu. unfold expandedCommits. rewrite Hu.
  destruct (ensureParents_spec (getCommit prov) (Collector.allCommits st)
                               MAX_PARENT_FETCH Hnd)
    as (extra & -> & Hd & Hfrom & _).
  rewrite length_app.
  assert (Hx : NoDup (map sha extra)).
  { rewrite map_app in Hd. eapply NoDup_app_remove_l; eauto. }
  pose proof (ensureParents_extra_bound (getCommit prov)
                (Collector.allCommits st) extra _ Hx Hfrom) as Hb.
  pose proof (parentsToFetch_length (Collector.allCommits st) MAX_PARENT_FETCH).
  lia.
Qed.

Lemma nodes_accounting_aux (prov : Provider) (maxCommits : Z)
      (branchTips : list string) (pl : Payload) :
  buildGraph prov maxCommits branchTips = Ok pl ->
  exists st,
    Collector.collectCommits prov maxCommits branchTips = Ok st /\
    commits (meta pl) = List.length (Collector.allCommits st) /\
    List.length (Collector.allCommits st)
      <= List.length (expandedOf prov maxCommits branchTips)
      <= List.length (Collector.allCommits st) + 200 /\
    List.length (expandedOf prov maxCommits branchTips)
      <= totalCommits (stats (meta pl)).
Proof.
  intros H.
  destruct (buildGraph_inv prov maxCommits branchTips pl H)
    as (st & Hst & Hpl & He & Hm).
  exists st. split; [exact Hst|].
  destruct (expanded_starts_with_collected prov maxCommits branchTips st Hst)
    as [Hu _].
  pose proof (ci_distinct (collectCommits_inv prov maxCommits branchTips st Hst))
    as Hnd.
  split; [rewrite Hpl; simpl; now rewrite Hu|].
  split; [rewrite He; exact (expanded_bound prov st Hnd Hu)|].
  rewrite (buildGraph_stats prov maxCommits branchTips pl H).
  rewrite (buildGraph_graph prov maxCommits branchTips pl H).
  unfold computeStats. simpl.
  rewrite <- (length_map sha (expandedOf prov maxCommits branchTips)).
  rewrite <- (length_map id (nodes _)).
  apply NoDup_incl_length; [apply expandedOf_distinct|].
  intros k Hk. apply node_ids. now left.
Qed.

(** X7.  [meta.commits] counts the commits the collector accepted: it stays
    within the budget.  The graph is built from these and from at most 200
    fetched parents, and has at least one node for each, so
    [stats.totalCommits] is never below [meta.commits]. *)
Theorem commit_counts_accounting (prov : Provider) (maxCommits : Z)
        (branchTips : list string) (pl : Payload) :
  buildGraph prov maxCommits branchTips = Ok pl ->
  (Z.of_nat (commits (meta pl)) <= Z.max 0 maxCommits)%Z /\
  commits (meta pl)
    <= List.length (expandedOf prov maxCommits branchTips)
    <= commits (meta pl) + 200 /\
  List.length (expandedOf prov maxCommits branchTips)
    <= totalCommits (stats (meta pl)).
Proof.
  intros H.
  destruct (nodes_accounting_aux prov maxCommits branchTips pl H)
    as (st & Hst & Hc & He & Hn).
  rewrite Hc. split; [| split; [exact He | exact Hn]].
  pose proof (branchLoop_accepted prov maxCommits branchTips Collector.initial
                st) as Hb.
  unfold accepted in Hb. simpl in Hb. apply Hb; [lia | exact Hst].
Qed.

Lemma commit_counts_accounting_witness :
  exists pl,
    buildGraph Examples.sharedRoot 4 ["main"; "dev"] = Ok pl /\
    (Z.of_nat (commits (meta pl)) <= Z.max 0 4)%Z /\
    List.length (expandedOf Examples.sharedRoot 4 ["main"; "dev"])
      <= totalCommits (stats (meta pl)).
Proof.
  eexists. split; [vm_compute; reflexivity|].
  pose proof (commit_counts_accounting Examples.sharedRoot 4 ["main"; "dev"] _
                eq_refl) as (H1 & _ & H3).
  split; [exact H1 | exact H3].
Defined.

(** X8.  The counts kept per branch never add up to more than
    [meta.commits], and none is kept under [__proto__].  When the fetch plan
    names no branch twice and no branch [__proto__], they add up to
    [meta.commits]: every collected commit is counted for exactly one
    branch, the first of the plan that listed it. *)
Theorem per_branch_counts_add_up (prov : Provider) (maxCommits : Z)
        (branchTips : list string) (pl : Payload) :
  buildGraph prov maxCommits branchTips = Ok pl ->
  list_sum (map_values (metaPerBranchCounts (meta pl))) <= commits (meta pl) /\
  map_get (metaPerBranchCounts (meta pl)) "__proto__" = None /\
  (NoDup branchTips -> ~ In "__proto__" branchTips ->
   list_sum (map_values (metaPerBranchCounts (meta pl))) = commits (meta pl)).
Proof.
  intros H.
  destruct (nodes_accounting_aux prov maxCommits branchTips pl H)
    as (st & Hst & Hc & _).
  rewrite Hc.
  destruct (buildGraph_inv prov maxCommits branchTips pl H)
    as (st' & Hst' & -> & _).
  rewrite Hst in Hst'. injection Hst' as <-. simpl.
  split; [exact (collectCommits_countsBelow prov maxCommits branchTips st Hst)|].
  split; [exact (collectCommits_no_proto prov maxCommits branchTips st Hst)|].
  intros Hnd Hp.
  exact (collectCommits_countsAddUp prov maxCommits branchTips st Hnd Hp Hst).
Qed.

Lemma per_branch_counts_add_up_witness :
  exists pl,
    buildGraph Examples.sharedRoot 6 ["main"; "dev"] = Ok pl /\
    list_sum (map_values (metaPerBranchCounts (meta pl))) = commits (meta pl).
Proof.
  eexists. split; [vm_compute; reflexivity|].
  apply (per_branch_counts_add_up Examples.sharedRoot 6 ["main"; "dev"] _
           eq_refl).
  - repeat constructor; simpl; intuition discriminate.
  - simpl. intuition discriminate.
Defined.

Lemma counters_aux (prov : Provider) (maxCommits : Z)
      (branchTips : list string) (pl : Payload) (b : string) (k : nat) :
  buildGraph prov maxCommits branchTips = Ok pl ->
  map_get (metaPerBranchCounts (meta pl)) b = Some k ->
  In b branchTips /\
  map_get (branchCounts (stats (meta pl))) b
    = Some (countBranch (graph pl) b) /\
  k <= countBranch (graph pl) b.
Proof.
  intros H Hk.
  pose proof (buildGraph_stats prov maxCommits branchTips pl H) as Hs.
  destruct (buildGraph_inv prov maxCommits branchTips pl H)
    as (st & Hst & Hpl & _).
  pose proof (collectCommits_membership prov maxCommits branchTips st Hst)
    as [_ _ Hkeys Hcounts].
  assert (Hk' : map_get (Collector.perBranchCounts st) b = Some k)
    by (rewrite Hpl in Hk; exact Hk).
  pose proof (Hkeys b k Hk') as Hb.
  assert (Hp : b <> "__proto__").
  { intros ->.
    rewrite (collectCommits_no_proto prov maxCommits branchTips st Hst) in Hk'.
    discriminate. }
  split; [exact Hb|]. split.
  - rewrite Hs. unfold computeStats. simpl. now apply branchCounts_get.
  - etransitivity; [exact (Hcounts b k Hk')|].
    destruct (expanded_starts_with_collected prov maxCommits branchTips st Hst)
      as [_ [extra He]].
    rewrite Hpl. simpl.
    apply collected_on_branch_le_nodes.
    + pose proof (expandedOf_distinct prov maxCommits branchTips) as Hd.
      unfold expandedOf in Hd. now rewrite Hst in Hd.
    + rewrite He. intros c Hc. apply in_or_app. now left.
    + exact (ci_distinct
               (collectCommits_inv prov maxCommits branchTips st Hst)).
Qed.

(** X9.  The two per-branch numbers of a reply agree in one direction: a
    branch with an entry in [meta.perBranchCounts] is a branch of the fetch
    plan, has an entry in [stats.branchCounts], and that entry, the number
    of nodes carrying the branch, is at least the number of commits first
    collected on the branch. *)
Theorem branch_counts_cover_collected (prov : Provider) (maxCommits : Z)
        (branchTips : list string) (pl : Payload) (b : string) (k : nat) :
  buildGraph prov maxCommits branchTips = Ok pl ->
  map_get (metaPerBranchCounts (meta pl)) b = Some k ->
  In b branchTips /\
  exists n, map_get (branchCounts (stats (meta pl))) b = Some n /\
            n = countNodes (fun x => includes (branches x) b) (graph pl) /\
            k <= n.
Proof.
  intros H Hk.
  destruct (counters_aux prov maxCommits branchTips pl b k H Hk)
    as (Hb & Hn & Hle).
  split; [exact Hb|]. exists (countBranch (graph pl) b). auto.
Qed.

Lemma branch_counts_cover_collected_witness :
  exists pl n,
    buildGraph Examples.sharedRoot 6 ["main"; "dev"] = Ok pl /\
    map_get (branchCounts (stats (meta pl))) "dev" = Some n /\ 2 <= n.
Proof.
  eexists.
  destruct (branch_counts_cover_collected Examples.sharedRoot 6
              ["main"; "dev"] _ "dev" 2 eq_refl eq_refl)
    as (_ & n & Hn & _ & Hle).
  exists n. split; [reflexivity|]. split; [exact Hn | exact Hle].
Defined.

(** X10.  What the statistics panel and the branch buttons of the frontend
    display, on a reply of the handler.  The total shown is the number of
    nodes.  The count on the button of a selected branch is the number of
    nodes that carry the branch, whenever the branch has no name of
    [Object.prototype], and also whenever it is not [__proto__] and some
    node carries it: there neither fallback of the [||] chain changes the
    number.  For a selected branch [__proto__] what is read is the
    prototype object, not a number. *)
Theorem displayed_counts_are_graph_counts (prov : Provider) (maxCommits : Z)
        (branchTips : list string) (pl : Payload) :
  buildGraph prov maxCommits branchTips = Ok pl ->
  App.totalCommitsShown (meta pl) = List.length (nodes (graph pl)) /\
  (forall b, In b (selectedBranches (meta pl)) ->
     includes objectPrototypeNames b = false ->
     App.commitCount (meta pl) b
     = Number (countNodes (fun n => includes (branches n) b) (graph pl))) /\
  (forall b, In b (selectedBranches (meta pl)) -> b <> "__proto__" ->
     0 < countNodes (fun n => includes (branches n) b) (graph pl) ->
     App.commitCount (meta pl) b
     = Number (countNodes (fun n => includes (branches n) b) (graph pl))) /\
  (In "__proto__" (selectedBranches (meta pl)) ->
   App.commitCount (meta pl) "__proto__" = Inherited).
Proof.
  intros H.
  assert (Hsel : selectedBranches (meta pl) = branchTips).
  { destruct (buildGraph_inv prov maxCommits branchTips pl H)
      as (st & _ & -> & _). reflexivity. }
  rewrite Hsel.
  assert (Hn : forall b, In b branchTips -> b <> "__proto__" ->
             obj_read (branchCounts (stats (meta pl))) b
             = Number (countBranch (graph pl) b)).
  { intros b Hb Hp. unfold obj_read.
    rewrite (buildGraph_stats prov maxCommits branchTips pl H).
    unfold computeStats. simpl. now rewrite branchCounts_get. }
  split; [| split; [| split]].
  - destruct (nodes_accounting_aux prov maxCommits branchTips pl H)
      as (st & _ & Hc & He & Hnodes).
    assert (Ht : totalCommits (stats (meta pl)) = List.length (nodes (graph pl))).
    { rewrite (buildGraph_stats prov maxCommits branchTips pl H). reflexivity. }
    unfold App.totalCommitsShown, num_or. rewrite <- Ht.
    destruct (totalCommits (stats (meta pl))); [lia | reflexivity].
  - intros b Hb Hnames.
    assert (Hp : b <> "__proto__") by (intros ->; discriminate).
    unfold App.commitCount. rewrite (Hn b Hb Hp). unfold countNodes.
    fold (countBranch (graph pl) b).
    destruct (countBranch (graph pl) b) as [| n] eqn:E; [| reflexivity].
    unfold read_or at 1. cbn [truthyRead]. unfold obj_read. rewrite Hnames.
    destruct (map_get (metaPerBranchCounts (meta pl)) b) as [k |] eqn:Hk;
      [| reflexivity].
    destruct (counters_aux prov maxCommits branchTips pl b k H Hk)
      as (_ & _ & Hle).
    rewrite E in Hle. destruct k; [reflexivity | lia].
  - intros b Hb Hp Hpos.
    unfold App.commitCount. rewrite (Hn b Hb Hp). unfold countNodes in *.
    fold (countBranch (graph pl) b) in *.
    destruct (countBranch (graph pl) b) as [| n]; [lia | reflexivity].
  - intros _. unfold App.commitCount, obj_read.
    rewrite (buildGraph_stats prov maxCommits branchTips pl H).
    unfold computeStats. simpl. now rewrite branchCounts_proto.
Qed.

Lemma displayed_counts_are_graph_counts_witness :
  exists pl,
    buildGraph Examples.sharedRoot 4 ["main"; "dev"] = Ok pl /\
    App.totalCommitsShown (meta pl) = List.length (nodes (graph pl)) /\
    App.commitCount (meta pl) "dev"
    = Number (countNodes (fun n => includes (branches n) "dev") (graph pl)).
Proof.
  eexists. split; [vm_compute; reflexivity|].
  pose proof (displayed_counts_are_graph_counts Examples.sharedRoot 4
                ["main"; "dev"] _ eq_refl) as (Ht & Hb & _).
  split; [exact Ht|].
  apply Hb; [vm_compute; auto | reflexivity].
Defined.

(** ** The collection ends when the listing answers *)

Section Listing.

Variable prov : Provider.
Variable maxCommits : Z.
Hypothesis listing_ok : forall b page, listCommits prov b page <> None.

Lemma pageLoop_not_failed (b : string) (fuel : nat) :
  forall page saw st,
    Collector.pageLoop fuel prov maxCommits b page saw st <> Failed.
Proof.
  induction fuel as [| fuel IH]; intros page saw st; [discriminate|].
  rewrite pageLoop_unfold.
  destruct (Collector.budgetReached maxCommits st); [discriminate|].
  pose proof (listing_ok b page) as Hl.
  destruct (listCommits prov b page) as [[| c rest] |];
    [discriminate | | congruence].
  destruct (Collector.processPage maxCommits b (c :: rest) st saw)
    as [st1 saw1].
  destruct (saw1 || (List.length (c :: rest) <? 100)%nat);
    [discriminate | apply IH].
Qed.

Lemma branchLoop_not_failed (tips : list string) :
  forall st, Collector.branchLoop prov maxCommits tips st <> Failed.
Proof.
  induction tips as [| b rest IH]; intros st; cbn [Collector.branchLoop];
    [discriminate|].
  pose proof (pageLoop_not_failed b (S (Z.to_nat maxCommits)) 1 false
                (Collector.startBranch b st)) as Hp.
  destruct (Collector.pageLoop (S (Z.to_nat maxCommits)) prov maxCommits b 1
                               false (Collector.startBranch b st))
    as [st1 | |]; [| congruence | discriminate].
  destruct (Collector.budgetReached maxCommits st1); [discriminate | apply IH].
Qed.

End Listing.

(** X11.  The collection loop of the handler ends with a working set
    whenever every commit listing succeeds: the page loop of each branch
    ends, whatever the pages hold and however many there are, and the loop
    itself raises nothing. *)
Theorem collection_ends_when_listing_succeeds (prov : Provider)
        (maxCommits : Z) (branchTips : list string) :
  (forall b page, listCommits prov b page <> None) ->
  exists st, Collector.collectCommits prov maxCommits branchTips = Ok st.
Proof.
  intros Hl.
  pose proof (collectCommits_fuel prov maxCommits branchTips) as Hf.
  pose proof (branchLoop_not_failed prov maxCommits Hl branchTips
                Collector.initial) as Hn.
  fold (Collector.collectCommits prov maxCommits branchTips) in Hn.
  destruct (Collector.collectCommits prov maxCommits branchTips);
    [eauto | congruence | congruence].
Qed.

Lemma collection_ends_when_listing_succeeds_witness :
  exists st,
    Collector.collectCommits Examples.longBranch 3 ["main"; "dev"] = Ok st.
Proof.
  apply (collection_ends_when_listing_succeeds Examples.longBranch 3
           ["main"; "dev"]).
  intros b [| [| page]]; discriminate.
Defined.

(** ** The documented handler *)

Lemma quota_sum (q r : Z) (n : nat) :
  (0 <= r)%Z ->
  fold_right Z.add 0%Z
    (map (fun i => (q + (if Z.of_nat i <? r then 1 else 0))%Z) (seq 0 n))
  = (Z.of_nat n * q + Z.min (Z.of_nat n) r)%Z.
Proof.
  intros Hr. induction n as [| n IH]; [simpl; lia|].
  rewrite seq_S, map_app, fold_right_app. simpl fold_right at 2.
  transitivity
    (fold_right Z.add 0%Z
       (map (fun i => (q + (if Z.of_nat i <? r then 1 else 0))%Z) (seq 0 n))
     + (q + (if Z.of_nat n <? r then 1 else 0)))%Z.
  - generalize (q + (if Z.of_nat n <? r then 1 else 0))%Z as x.
    generalize (map (fun i => (q + (if Z.of_nat i <? r then 1 else 0))%Z)
                    (seq 0 n)) as l.
    induction l as [| a l IHl]; intros x; simpl; [lia|].
    rewrite IHl. lia.
  - rewrite IH. destruct (Z.of_nat n <? r)%Z eqn:E;
      [apply Z.ltb_lt in E | apply Z.ltb_ge in E]; lia.
Qed.

(** X12.  The quotas the documented handler hands to the branches of the
    plan add up to the budget: nothing of [maxCommits] is lost to the
    rounding, and every quota is the even share or one more. *)
Theorem quotas_sum_to_budget (maxCommits : Z) (branchCount : nat) :
  (0 <= maxCommits)%Z -> (0 < branchCount)%nat ->
  fold_right Z.add 0%Z
    (map (FairCollector.branchQuota maxCommits branchCount)
         (seq 0 branchCount))
  = maxCommits /\
  forall i,
    (FairCollector.commitsPerBranch maxCommits branchCount
     <= FairCollector.branchQuota maxCommits branchCount i
     <= FairCollector.commitsPerBranch maxCommits branchCount + 1)%Z.
Proof.
  intros Hm Hb. split.
  - unfold FairCollector.branchQuota, FairCollector.commitsPerBranch,
      FairCollector.extraCommits.
    assert (HB : (0 < Z.of_nat branchCount)%Z) by lia.
    rewrite Z.rem_mod_nonneg by lia.
    pose proof (Z.mod_pos_bound maxCommits (Z.of_nat branchCount) HB) as Hr.
    rewrite quota_sum by lia.
    pose proof (Z.div_mod maxCommits (Z.of_nat branchCount)) as E.
    rewrite Z.min_r by lia. lia.
  - intros i. unfold FairCollector.branchQuota.
    destruct (Z.of_nat i <? _)%Z; lia.
Qed.

Lemma quotas_sum_to_budget_witness :
  fold_right Z.add 0%Z (map (FairCollector.branchQuota 7 3) (seq 0 3)) = 7%Z.
Proof.
  apply (quotas_sum_to_budget 7 3); lia.
Defined.

Lemma branchQuota_nonpos (maxCommits : Z) (branchCount i : nat) :
  (maxCommits <= 0)%Z ->
  (FairCollector.branchQuota maxCommits branchCount i <= 0)%Z.
Proof.
  intros Hm. unfold FairCollector.branchQuota, FairCollector.commitsPerBranch,
    FairCollector.extraCommits.
  assert (Hr : (Z.rem maxCommits (Z.of_nat branchCount) <= 0)%Z).
  { destruct branchCount as [| n].
    - destruct maxCommits; cbv [Z.rem Z.quotrem snd Z.of_nat]; lia.
    - apply Z.rem_nonpos; lia. }
  assert (Hd : (maxCommits / Z.of_nat branchCount <= 0)%Z).
  { destruct branchCount as [| n].
    - destruct maxCommits; cbv [Z.div Z.div_eucl fst Z.of_nat]; lia.
    - apply Z.div_le_upper_bound; lia. }
  destruct (Z.of_nat i <? _)%Z eqn:E; [apply Z.ltb_lt in E |]; lia.
Qed.

Section FairBudget.

Import FairCollector.

Variable prov : Provider.
Variable maxCommits : Z.

Lemma fair_branchLoop_budget (branchCount : nat) (rest : list string) :
  forall idx st st',
    branchLoop prov maxCommits branchCount idx rest st = Ok st' ->
    (remainingGlobalCommits st = maxCommits - accepted (base st))%Z ->
    (accepted (base st) <= Z.max 0 maxCommits)%Z ->
    (remainingGlobalCommits st' = maxCommits - accepted (base st'))%Z /\
    (accepted (base st) <= accepted (base st') <= Z.max 0 maxCommits)%Z.
Proof.
  induction rest as [| b rest IH]; intros idx st st' H Hr Ha;
    cbn [branchLoop] in H.
  - injection H as <-. lia.
  - destruct (collectBranch prov (branchQuota maxCommits branchCount idx) b st)
      as [st1 | |] eqn:E; try discriminate.
    unfold collectBranch in E. apply fair_pageLoop_spec in E.
    simpl in E. rewrite accepted_startBranch in E.
    destruct E as (Hd & Hpos & Hrem).
    assert (Hq : (0 < maxCommits)%Z \/
                 (branchQuota maxCommits branchCount idx <= 0)%Z).
    { destruct (Z_lt_le_dec 0 maxCommits) as [Hp | Hn]; [now left|].
      right. now apply branchQuota_nonpos. }
    destruct (IH (S idx) st1 st' H) as [R1 A1]; [lia | lia |].
    split; [exact R1 | lia].
Qed.

End FairBudget.

(** X13.  The documented handler keeps its global budget: the commits it
    collects never exceed [maxCommits] (none with a budget of zero or
    less), and [remainingGlobalCommits] ends as what is left of the
    budget. *)
Theorem documented_handler_budget (prov : Provider) (maxCommits : Z)
        (branchTips : list string) (st : FairCollector.QState) :
  FairCollector.collectCommits prov maxCommits branchTips = Ok st ->
  (accepted (FairCollector.base st) <= Z.max 0 maxCommits)%Z /\
  (FairCollector.remainingGlobalCommits st
   = maxCommits - accepted (FairCollector.base st))%Z.
Proof.
  intros H. unfold FairCollector.collectCommits in H.
  apply fair_branchLoop_budget in H.
  - destruct H as [R A]. split; [lia | exact R].
  - unfold accepted. simpl. lia.
  - unfold accepted. simpl. lia.
Qed.

Lemma documented_handler_budget_witness :
  exists st,
    FairCollector.collectCommits Examples.longBranch 3 ["main"; "dev"] = Ok st /\
    (accepted (FairCollector.base st) <= Z.max 0 3)%Z.
Proof.
  eexists. split; [vm_compute; reflexivity|].
  apply (documented_handler_budget Examples.longBranch 3 ["main"; "dev"] _
           eq_refl).
Defined.

(** ** The pool of parents [ensureParents] asks for *)

Lemma indexBySha_has (cs : list Commit) (s : string) :
  map_has (indexBySha cs) s = true <-> In s (map sha cs).
Proof.
  rewrite map_has_keys. unfold indexBySha.
  assert (Hgen : forall (m : CommitMap),
    In s (map_keys (fold_left (fun m c => map_set m (sha c) c) cs m)) <->
    In s (map_keys m) \/ In s (map sha cs)).
  { induction cs as [| c cs IH]; intros m; simpl; [tauto|].
    rewrite IH, map_keys_set_In. intuition auto. }
  rewrite Hgen. simpl. tauto.
Qed.

Lemma missingParents_fold (seen : CommitMap) (P : JsSet -> Prop) :
  (forall acc p, P acc -> truthy p = true -> map_has seen p = false ->
                 P (set_add acc p)) ->
  forall init acc, P acc ->
    P (fold_left
         (fun missing c =>
            fold_left
              (fun missing' p =>
                 if truthy p && negb (map_has seen p) then set_add missing' p
                 else missing')
              (parents c) missing)
         init acc).
Proof.
  intros Hstep. induction init as [| c init IH]; intros acc Hacc; simpl;
    [exact Hacc|].
  apply IH. revert acc Hacc.
  induction (parents c) as [| p ps IHp]; intros acc Hacc; simpl; [exact Hacc|].
  apply IHp. destruct (truthy p) eqn:T; simpl; [| exact Hacc].
  destruct (map_has seen p) eqn:M; simpl; [exact Hacc|].
  now apply Hstep.
Qed.

Lemma firstn_NoDup (A : Type) (n : nat) (l : list A) :
  NoDup l -> NoDup (firstn n l).
Proof.
  intros H. rewrite <- (firstn_skipn n l) in H.
  eapply NoDup_app_remove_r; eauto.
Qed.

Lemma missingParents_closed (init : list Commit) (seen : CommitMap) :
  (forall c p, In c init -> In p (parents c) ->
               p = "" \/ map_has seen p = true) ->
  missingParents init seen = [].
Proof.
  unfold missingParents. intros Hc.
  assert (Hgen : forall acc : JsSet,
    fold_left
      (fun missing c =>
         fold_left
           (fun missing' p =>
              if truthy p && negb (map_has seen p) then set_add missing' p
              else missing')
           (parents c) missing)
      init acc = acc); [| apply Hgen].
  revert Hc.
  induction init as [| c init IH]; intros Hc acc; simpl; [reflexivity|].
  assert (E : fold_left
                (fun missing' p =>
                   if truthy p && negb (map_has seen p) then set_add missing' p
                   else missing') (parents c) acc = acc).
  { assert (Hp : forall p, In p (parents c) ->
               p = "" \/ map_has seen p = true)
      by (intros p Hp; apply (Hc c p); [now left | exact Hp]).
    revert Hp. clear. induction (parents c) as [| p ps IHp]; intros Hp; simpl;
      [reflexivity|].
    destruct (Hp p (or_introl eq_refl)) as [-> | ->]; simpl.
    - apply IHp. intros q Hq. apply Hp. now right.
    - rewrite andb_false_r. apply IHp. intros q Hq. apply Hp. now right. }
  rewrite E. apply IH. intros c' p Hc' Hp. apply (Hc c' p); [now right | exact Hp].
Qed.

(** X14.  The ids [ensureParents] asks the provider for: at most
    [min(maxFetch, 200)], each once, none empty, none the sha of a commit it
    was given, and each named as a parent by a commit it was given; so only
    direct parents are fetched, never a parent of a fetched parent. *)
Theorem parent_pool_is_one_level (initialCommits : list Commit)
        (maxFetch : nat) :
  let pool := parentsToFetch initialCommits maxFetch in
  List.length pool <= Nat.min maxFetch 200 /\
  NoDup pool /\
  forall s, In s pool ->
    s <> "" /\ ~ In s (map sha initialCommits) /\
    exists c, In c initialCommits /\ In s (parents c).
Proof.
  cbv zeta. unfold parentsToFetch. split; [| split].
  - rewrite length_firstn. lia.
  - apply firstn_NoDup. unfold missingParents.
    apply (missingParents_fold (indexBySha initialCommits) (fun l => NoDup l));
      [| constructor].
    intros acc p Hacc _ _. now apply set_add_NoDup.
  - intros s Hs. apply firstn_incl in Hs.
    destruct (missingParents_In _ _ _ Hs) as [Hm Hc].
    split; [| split; [| exact Hc]].
    + revert Hs. unfold missingParents.
      apply (missingParents_fold (indexBySha initialCommits)
               (fun l => In s l -> s <> "")); [| intros []].
      intros acc p Hacc T _ Hin. apply set_add_In in Hin.
      destruct Hin as [Hin | ->]; [auto|].
      unfold truthy in T. apply negb_true_iff, String.eqb_neq in T. exact T.
    + intros Hin. apply indexBySha_has in Hin. congruence.
Qed.

(** X15.  When every parent a commit names is itself in the list (or is the
    empty id), [ensureParents] asks for nothing and returns the list it was
    given, whatever the provider would answer. *)
Theorem closed_history_is_unchanged (getCommit : string -> option Commit)
        (initialCommits : list Commit) (maxFetch : nat) :
  NoDup (map sha initialCommits) ->
  (forall c p, In c initialCommits -> In p (parents c) ->
               p = "" \/ In p (map sha initialCommits)) ->
  parentsToFetch initialCommits maxFetch = [] /\
  ensureParents getCommit initialCommits maxFetch = initialCommits.
Proof.
  intros Hnd Hclosed.
  assert (E : parentsToFetch initialCommits maxFetch = []).
  { unfold parentsToFetch. rewrite missingParents_closed.
    - apply firstn_nil.
    - intros c p Hc Hp. destruct (Hclosed c p Hc Hp) as [-> | Hin];
        [now left | right; now apply indexBySha_has]. }
  split; [exact E|].
  rewrite ensureParents_flat, E. unfold storeAll. simpl.
  rewrite indexBySha_distinct by exact Hnd. apply values_entries.
Qed.

Lemma closed_history_is_unchanged_witness :
  ensureParents (fun s => Some (Examples.commit s []))
                [Examples.commit "m2" ["m1"]; Examples.commit "m1" [""]] 200
  = [Examples.commit "m2" ["m1"]; Examples.commit "m1" [""]].
Proof.
  apply (closed_history_is_unchanged (fun s => Some (Examples.commit s []))
           [Examples.commit "m2" ["m1"]; Examples.commit "m1" [""]] 200).
  - repeat constructor; simpl; intuition discriminate.
  - intros c p [<- | [<- | []]] [<- | []]; simpl; auto.
Defined.

(** ** Branch selection *)

Section Ranking.

Import BranchRanker.

Lemma findIndex_some (A : Type) (test : A -> bool) (l : list A) (idx : nat) :
  findIndex test l = Some idx ->
  exists x, nth_error l idx = Some x /\ test x = true /\
            (forall y, In y (firstn idx l) -> test y = false) /\
            l = firstn idx l ++ x :: skipn (S idx) l.
Proof.
  revert idx. induction l as [| a l IH]; intros idx H; simpl in H;
    [discriminate|].
  destruct (test a) eqn:T.
  - injection H as <-. exists a. simpl. repeat split; auto. intros y [].
  - destruct (findIndex test l) as [i |] eqn:E; [| discriminate].
    injection H as <-. destruct (IH i eq_refl) as (x & Hn & Hx & Hf & Hl).
    exists x. simpl. repeat split; auto.
    + intros y [<- | Hy]; auto.
    + f_equal. exact Hl.
Qed.

Lemma findIndex_none (A : Type) (test : A -> bool) (l : list A) :
  findIndex test l = None -> forall y, In y l -> test y = false.
Proof.
  induction l as [| a l IH]; intros H y Hy; simpl in *; [contradiction|].
  destruct (test a) eqn:T; [discriminate|].
  destruct (findIndex test l); [discriminate|].
  destruct Hy as [<- | Hy]; auto.
Qed.

Lemma filter_all (A : Type) (f : A -> bool) (l : list A) :
  (forall x, In x l -> f x = true) -> filter f l = l.
Proof.
  induction l as [| a l IH]; intros H; simpl; [reflexivity|].
  rewrite (H a (or_introl eq_refl)). f_equal. apply IH.
  intros x Hx. apply H. now right.
Qed.

Lemma promoteDefault_names (d : string) (branchInfos : list BranchInfo) :
  truthy d = true ->
  exists pre post,
    map name (promoteDefault (Some d) branchInfos) = d :: pre ++ post /\
    ~ In d pre /\
    (map name branchInfos = pre ++ d :: post \/
     (map name branchInfos = pre /\ post = [])).
Proof.
  intros T. unfold promoteDefault. rewrite T.
  destruct (findIndex (fun x => name x =? d) branchInfos) as [idx |] eqn:E.
  - destruct (findIndex_some _ _ _ _ E) as (x & Hn & Hx & Hf & Hl).
    rewrite Hn. apply String.eqb_eq in Hx.
    exists (map name (firstn idx branchInfos)),
           (map name (skipn (S idx) branchInfos)).
    split; [simpl; now rewrite map_app, Hx|]. split.
    + intros Hin. apply in_map_iff in Hin. destruct Hin as (y & Hy & Hin).
      apply Hf in Hin. apply String.eqb_neq in Hin. contradiction.
    + left. rewrite Hl at 1. rewrite map_app. simpl. now rewrite Hx.
  - exists (map name branchInfos), []. split; [simpl; now rewrite app_nil_r|].
    split; [| now right].
    intros Hin. apply in_map_iff in Hin. destruct Hin as (y & Hy & Hin).
    apply (findIndex_none _ _ _ E) in Hin. apply String.eqb_neq in Hin.
    contradiction.
Qed.

Lemma promoteDefault_distinct (defaultBranch : option string)
      (branchInfos : list BranchInfo) :
  NoDup (map name branchInfos) ->
  NoDup (map name (promoteDefault defaultBranch branchInfos)).
Proof.
  intros Hnd. destruct defaultBranch as [d |]; [| exact Hnd].
  destruct (truthy d) eqn:T.
  - destruct (promoteDefault_names d branchInfos T)
      as (pre & post & E & Hpre & Hn).
    rewrite E. destruct Hn as [En | [En ->]]; rewrite En in Hnd.
    + apply NoDup_remove in Hnd. destruct Hnd as [Hnd Hd].
      constructor; assumption.
    + rewrite app_nil_r. constructor; assumption.
  - unfold promoteDefault. now rewrite T.
Qed.

End Ranking.

(** X16.  The fetch plan holds at most five branches, each the default
    branch or a branch of the ranked list.  A non-empty default branch is
    always the first of the plan, whether the list names it or not; with no
    default branch the plan is the first five of the list. *)
Theorem default_branch_leads_the_plan (defaultBranch : option string)
        (branchInfos : list BranchRanker.BranchInfo) :
  let tips := BranchRanker.branchTips defaultBranch branchInfos in
  List.length tips <= 5 /\
  (forall b, In b tips ->
     defaultBranch = Some b \/ In b (map BranchRanker.name branchInfos)) /\
  (forall d, defaultBranch = Some d -> d <> "" -> hd_error tips = Some d) /\
  (defaultBranch = None ->
   tips = firstn 5 (map BranchRanker.name branchInfos)).
Proof.
  cbv zeta. unfold BranchRanker.branchTips, BranchRanker.MAX_BRANCHES.
  split; [rewrite length_map, length_firstn; lia|].
  split; [| split].
  - intros b Hb. rewrite <- firstn_map in Hb. apply firstn_incl in Hb.
    destruct defaultBranch as [d |]; [| now right].
    destruct (truthy d) eqn:T.
    + destruct (promoteDefault_names d branchInfos T)
        as (pre & post & E & _ & Hn).
      rewrite E in Hb. destruct Hb as [<- | Hb]; [now left|]. right.
      apply in_app_iff in Hb.
      destruct Hn as [-> | [-> ->]]; rewrite ?in_app_iff; simpl in *; tauto.
    + right. unfold BranchRanker.promoteDefault in Hb. now rewrite T in Hb.
  - intros d -> Hd.
    assert (T : truthy d = true)
      by (unfold truthy; now apply negb_true_iff, String.eqb_neq).
    destruct (promoteDefault_names d branchInfos T) as (pre & post & E & _).
    rewrite <- firstn_map, E. reflexivity.
  - intros ->. cbn [BranchRanker.promoteDefault]. symmetry. apply firstn_map.
Qed.

(** X17.  When the ranked list names no branch twice, neither does the
    fetch plan, and with a non-empty default branch the plan is that branch
    followed by the other branches in their ranking order, cut to five. *)
Theorem plan_keeps_ranking_order (defaultBranch : option string)
        (branchInfos : list BranchRanker.BranchInfo) :
  NoDup (map BranchRanker.name branchInfos) ->
  NoDup (BranchRanker.branchTips defaultBranch branchInfos) /\
  forall d, defaultBranch = Some d -> d <> "" ->
    BranchRanker.branchTips defaultBranch branchInfos
    = firstn 5 (d :: filter (fun b => negb (b =? d))
                            (map BranchRanker.name branchInfos)).
Proof.
  intros Hnd.
  assert (Hd : forall d, d <> "" ->
    map BranchRanker.name (BranchRanker.promoteDefault (Some d) branchInfos)
    = d :: filter (fun b => negb (b =? d)) (map BranchRanker.name branchInfos)).
  { intros d Hne.
    assert (T : truthy d = true)
      by (unfold truthy; now apply negb_true_iff, String.eqb_neq).
    destruct (promoteDefault_names d branchInfos T)
      as (pre & post & E & Hpre & Hn).
    rewrite E. f_equal.
    assert (Fpre : filter (fun b => negb (b =? d)) pre = pre).
    { apply filter_all. intros x Hx. apply negb_true_iff, String.eqb_neq.
      intros ->. contradiction. }
    destruct Hn as [En | [En ->]]; rewrite En.
    - rewrite En in Hnd. apply NoDup_remove_2 in Hnd.
      rewrite filter_app. simpl. rewrite String.eqb_refl. simpl.
      rewrite Fpre. f_equal. symmetry. apply filter_all.
      intros x Hx. apply negb_true_iff, String.eqb_neq. intros ->.
      apply Hnd, in_or_app. now right.
    - now rewrite Fpre, app_nil_r. }
  unfold BranchRanker.branchTips, BranchRanker.MAX_BRANCHES.
  split.
  - rewrite <- firstn_map. apply firstn_NoDup.
    now apply promoteDefault_distinct.
  - intros d -> Hne. now rewrite <- firstn_map, (Hd d Hne).
Qed.

Lemma plan_keeps_ranking_order_witness :
  BranchRanker.branchTips (Some "main")
    (map (fun b => BranchRanker.mkBranchInfo b None)
         ["f1"; "f2"; "main"; "f3"; "f4"; "f5"])
  = ["main"; "f1"; "f2"; "f3"; "f4"].
Proof.
  etransitivity;
    [apply (plan_keeps_ranking_order (Some "main")
              (map (fun b => BranchRanker.mkBranchInfo b None)
                   ["f1"; "f2"; "main"; "f3"; "f4"; "f5"]))|].
  - repeat constructor; simpl; intuition discriminate.
  - reflexivity.
  - discriminate.
  - reflexivity.
Defined.

(** ** The frontend *)

(** X18.  A branch button flips the visibility of its own branch and of no
    other, never lists a branch twice, and a second click on a branch that
    was hidden restores the list. *)
Theorem toggle_flips_one_branch (prev : list string) (branch : string) :
  (In branch (App.toggleBranch prev branch) <-> ~ In branch prev) /\
  (forall b, b <> branch ->
     (In b (App.toggleBranch prev branch) <-> In b prev)) /\
  (NoDup prev -> NoDup (App.toggleBranch prev branch)) /\
  (~ In branch prev ->
   App.toggleBranch (App.toggleBranch prev branch) branch = prev).
Proof.
  unfold App.toggleBranch.
  destruct (includes prev branch) eqn:E;
    [apply includes_In in E | apply includes_false in E].
  - split; [| split; [| split]].
    + rewrite filter_In, String.eqb_refl. simpl. intuition discriminate.
    + intros b Hb. rewrite filter_In. split; [tauto|]. intros H.
      split; [exact H|]. now apply negb_true_iff, String.eqb_neq.
    + apply NoDup_filter.
    + contradiction.
  - split; [| split; [| split]].
    + rewrite in_app_iff. simpl. tauto.
    + intros b Hb. rewrite in_app_iff. simpl. intuition congruence.
    + intros Hnd. apply NoDup_app; [exact Hnd | repeat constructor; auto |].
      intros x Hx [<- | []]. contradiction.
    + intros _.
      assert (Hin : includes (prev ++ [branch]) branch = true)
        by (apply includes_In, in_or_app; right; now left).
      rewrite Hin, filter_app. simpl. rewrite String.eqb_refl. simpl.
      rewrite app_nil_r. apply filter_all. intros x Hx.
      apply negb_true_iff, String.eqb_neq. intros ->. contradiction.
Qed.

Lemma nodeMapOf_fold (ns : list Node) (m : JsMap Node) :
  NoDup (map_keys m ++ map id ns) ->
  fold_left (fun m n => map_set m (id n) n) ns m
  = m ++ map (fun n => (id n, n)) ns.
Proof.
  revert m. induction ns as [| n ns IH]; intros m Hnd; simpl.
  - now rewrite app_nil_r.
  - assert (Hn : ~ In (id n) (map_keys m)).
    { intros Hin. simpl in Hnd. apply NoDup_remove_2 in Hnd.
      apply Hnd, in_or_app. now left. }
    rewrite (map_set_absent _ m (id n) n Hn).
    rewrite IH.
    + rewrite <- app_assoc. reflexivity.
    + unfold map_keys in *. rewrite map_app. simpl. rewrite <- app_assoc.
      exact Hnd.
Qed.

Lemma nodeMapOf_get (g : Graph) (k : string) :
  NoDup (map id (nodes g)) ->
  map_get (nodeMapOf (nodes g)) k = node_at g k.
Proof.
  intros Hnd. unfold nodeMapOf, node_at.
  rewrite nodeMapOf_fold by exact Hnd. simpl.
  induction (nodes g) as [| n ns IH]; simpl; [reflexivity|].
  destruct (id n =? k); [reflexivity|].
  apply IH. now inversion Hnd.
Qed.

Lemma nodeMapOf_length (ns : list Node) :
  List.length (map_keys (nodeMapOf ns)) <= List.length ns.
Proof.
  unfold nodeMapOf.
  assert (Hgen : forall m : JsMap Node,
    List.length (map_keys (fold_left (fun m n => map_set m (id n) n) ns m))
    <= List.length (map_keys m) + List.length ns).
  { induction ns as [| n ns IH]; intros m; simpl; [lia|].
    etransitivity; [apply IH|]. rewrite map_keys_set.
    destruct (map_has m (id n)); rewrite ?length_app; simpl; lia. }
  apply (Hgen []).
Qed.

Section AncestorFilter.

Import RepoGraph.

Variable g : Graph.
Hypothesis ids_distinct : NoDup (map id (nodes g)).

Local Abbreviation nm := (nodeMapOf (nodes g)).

Lemma parents_loop_incl (fuel : nat) :
  (forall nodeId inc inc',
     includeAncestors fuel nm nodeId inc = Some inc' -> incl inc inc') ->
  forall ps inc inc',
    forEachM (fun parentId inc0 =>
                if set_has inc0 parentId then Some inc0
                else includeAncestors fuel nm parentId (set_add inc0 parentId))
             ps inc = Some inc' ->
    incl inc inc'.
Proof.
  intros IH ps. induction ps as [| p ps IHp]; intros inc inc' H; simpl in H.
  - injection H as <-. apply incl_refl.
  - destruct (set_has inc p) eqn:E.
    + now apply IHp.
    + destruct (includeAncestors fuel nm p (set_add inc p)) as [inc1 |] eqn:E1;
        [| discriminate].
      apply IH in E1. apply IHp in H.
      intros x Hx. apply H, E1, set_add_In. now left.
Qed.

Lemma includeAncestors_incl (fuel : nat) :
  forall nodeId inc inc',
    includeAncestors fuel nm nodeId inc = Some inc' -> incl inc inc'.
Proof.
  induction fuel as [| fuel IH]; intros nodeId inc inc' H; simpl in H;
    [discriminate|].
  destruct (map_get nm nodeId) as [node |];
    [| injection H as <-; apply incl_refl].
  eapply parents_loop_incl; eauto.
Qed.

Lemma uncovered_incl (inc inc' : JsSet) :
  incl inc inc' -> uncovered nm inc' <= uncovered nm inc.
Proof.
  intros H. unfold uncovered. apply filter_length_mono.
  intros x Hx. apply negb_true_iff in Hx. apply negb_true_iff.
  apply includes_false in Hx. apply includes_false. auto.
Qed.

Lemma uncovered_add (inc : JsSet) (p : string) :
  In p (map_keys nm) -> ~ In p inc ->
  uncovered nm (set_add inc p) < uncovered nm inc.
Proof.
  intros Hk Hn. unfold uncovered.
  apply filter_length_strict with (a := p); auto.
  - intros x Hx. apply negb_true_iff in Hx. apply negb_true_iff.
    apply includes_false in Hx. apply includes_false.
    intros Hc. apply Hx, set_add_In. now left.
  - apply negb_false_iff, includes_In, set_add_In. now right.
  - now apply negb_true_iff, includes_false.
Qed.

Lemma includeAncestors_unfold (fuel : nat) (nodeId : string) (inc : JsSet) :
  includeAncestors (S fuel) nm nodeId inc =
  match map_get nm nodeId with
  | None => Some inc
  | Some node =>
      forEachM (fun parentId i =>
                  if set_has i parentId then Some i
                  else includeAncestors fuel nm parentId (set_add i parentId))
               (parentShas node) inc
  end.
Proof. reflexivity. Qed.

(** Fuel above the number of uncovered keys is never exhausted. *)
Lemma includeAncestors_total (fuel : nat) :
  forall nodeId inc, uncovered nm inc < fuel ->
    exists inc', includeAncestors (S fuel) nm nodeId inc = Some inc'.
Proof.
  induction fuel as [| fuel IH]; intros nodeId inc Hlt; [lia|].
  rewrite includeAncestors_unfold.
  destruct (map_get nm nodeId) as [node |]; [| eauto].
  revert inc Hlt. induction (parentShas node) as [| p ps IHp];
    intros inc Hlt; cbn [forEachM]; [eauto|].
  destruct (set_has inc p) eqn:E; [now apply IHp|].
  apply includes_false in E.
  assert (E1 : exists inc1,
             includeAncestors (S fuel) nm p (set_add inc p) = Some inc1).
  { destruct (map_get nm p) as [np |] eqn:G.
    - assert (Hu : uncovered nm (set_add inc p) < uncovered nm inc)
        by (apply uncovered_add; [eapply map_get_keys; eauto | exact E]).
      destruct fuel as [| fuel']; [lia|].
      apply IH. lia.
    - rewrite includeAncestors_unfold, G. eauto. }
  destruct E1 as [inc1 E1]. rewrite E1. apply IHp.
  apply includeAncestors_incl in E1.
  assert (incl inc inc1)
    by (intros x Hx; apply E1, set_add_In; now left).
  pose proof (uncovered_incl inc inc1 H). lia.
Qed.

(** What one call adds: ids reached from [nodeId], with their parents. *)
Lemma includeAncestors_spec (fuel : nat) :
  forall nodeId inc inc',
    includeAncestors fuel nm nodeId inc = Some inc' ->
    incl inc inc' /\
    (forall k, In k inc' -> ~ In k inc -> reachable g nodeId k) /\
    (forall k n, In k inc' -> ~ In k inc -> map_get nm k = Some n ->
                 forall p, In p (parentShas n) -> In p inc') /\
    (forall n, map_get nm nodeId = Some n ->
               forall p, In p (parentShas n) -> In p inc').
Proof.
  induction fuel as [| fuel IH]; intros nodeId inc inc' H; simpl in H;
    [discriminate|].
  destruct (map_get nm nodeId) as [node |] eqn:G.
  2:{ injection H as <-. split; [apply incl_refl|].
      split; [intros; contradiction|].
      split; [intros; contradiction | discriminate]. }
  assert (Hat : node_at g nodeId = Some node)
    by (rewrite <- nodeMapOf_get; assumption).
  assert (Hloop : forall ps inc0 inc1,
    (forall p, In p ps -> In p (parentShas node)) ->
    forEachM (fun parentId i =>
                if set_has i parentId then Some i
                else includeAncestors fuel nm parentId (set_add i parentId))
             ps inc0 = Some inc1 ->
    incl inc0 inc1 /\
    (forall k, In k inc1 -> ~ In k inc0 -> reachable g nodeId k) /\
    (forall k n, In k inc1 -> ~ In k inc0 -> map_get nm k = Some n ->
                 forall p, In p (parentShas n) -> In p inc1) /\
    (forall p, In p ps -> In p inc1)).
  { induction ps as [| p ps IHp]; intros inc0 inc1 Hps Hl; simpl in Hl.
    - injection Hl as <-. split; [apply incl_refl|].
      split; [intros; contradiction|].
      split; [intros; contradiction | intros p []].
    - assert (Hp : In p (parentShas node)) by (apply Hps; now left).
      assert (Hps' : forall q, In q ps -> In q (parentShas node))
        by (intros q Hq; apply Hps; now right).
      destruct (set_has inc0 p) eqn:E.
      + apply includes_In in E.
        destruct (IHp inc0 inc1 Hps' Hl) as (I1 & R1 & C1 & P1).
        split; [exact I1|]. split; [exact R1|]. split; [exact C1|].
        intros q [<- | Hq]; auto.
      + apply includes_false in E.
        destruct (includeAncestors fuel nm p (set_add inc0 p)) as [mid |] eqn:Em;
          [| discriminate].
        destruct (IH p (set_add inc0 p) mid Em) as (I0 & R0 & C0 & P0).
        destruct (IHp mid inc1 Hps' Hl) as (I1 & R1 & C1 & P1).
        assert (Hpm : In p mid) by (apply I0, set_add_In; now right).
        assert (I01 : incl inc0 mid)
          by (intros x Hx; apply I0, set_add_In; now left).
        split; [intros x Hx; auto|].
        split; [| split].
        * intros k Hk Hnk.
          destruct (in_dec string_dec k mid) as [Hm | Hm]; [| now apply R1].
          destruct (string_dec k p) as [-> | Hne].
          -- eapply reach_parent; eauto. constructor.
          -- eapply reach_parent; eauto. apply R0; [exact Hm|].
             intros Hc. apply set_add_In in Hc. tauto.
        * intros k n Hk Hnk Hn q Hq.
          destruct (in_dec string_dec k mid) as [Hm | Hm];
            [| now apply (C1 k n Hk Hm Hn)].
          apply I1. destruct (string_dec k p) as [-> | Hne].
          -- now apply (P0 n Hn).
          -- apply (C0 k n Hm); auto.
             intros Hc. apply set_add_In in Hc. tauto.
        * intros q [<- | Hq]; auto. }
  destruct (Hloop (parentShas node) inc inc' (fun p Hp => Hp) H)
    as (I & R & C & P).
  split; [exact I|]. split; [exact R|]. split; [exact C|].
  intros n Hn. injection Hn as <-. exact P.
Qed.

Lemma seeds_loop_spec (fuel : nat) (ds : list string) :
  forall inc inc',
    forEachM (includeAncestors fuel nm) ds inc = Some inc' ->
    incl inc inc' /\
    (forall k, In k inc' -> ~ In k inc ->
               exists a, In a ds /\ reachable g a k) /\
    (forall k n, In k inc' -> ~ In k inc -> map_get nm k = Some n ->
                 forall p, In p (parentShas n) -> In p inc') /\
    (forall a n, In a ds -> map_get nm a = Some n ->
                 forall p, In p (parentShas n) -> In p inc').
Proof.
  induction ds as [| d ds IH]; intros inc inc' H; simpl in H.
  - injection H as <-. split; [apply incl_refl|].
    split; [intros; contradiction|].
    split; [intros; contradiction | intros a n []].
  - destruct (includeAncestors fuel nm d inc) as [mid |] eqn:E;
      [| discriminate].
    destruct (includeAncestors_spec fuel d inc mid E) as (I0 & R0 & C0 & P0).
    destruct (IH mid inc' H) as (I1 & R1 & C1 & P1).
    split; [intros x Hx; auto|]. split; [| split].
    + intros k Hk Hnk.
      destruct (in_dec string_dec k mid) as [Hm | Hm].
      * exists d. split; [now left | now apply R0].
      * destruct (R1 k Hk Hm) as (a & Ha & Hr). exists a.
        split; [now right | exact Hr].
    + intros k n Hk Hnk Hn q Hq.
      destruct (in_dec string_dec k mid) as [Hm | Hm].
      * apply I1. now apply (C0 k n Hm Hnk Hn).
      * now apply (C1 k n Hk Hm Hn).
    + intros a n [<- | Ha] Hn q Hq.
      * apply I1. now apply (P0 n Hn).
      * now apply (P1 a n Ha Hn).
Qed.

Lemma seeds_loop_total (fuel : nat) (ds : list string) :
  List.length (map_keys nm) < fuel ->
  forall inc, exists inc',
    forEachM (includeAncestors (S fuel) nm) ds inc = Some inc'.
Proof.
  intros Hf. induction ds as [| d ds IH]; intros inc; cbn [forEachM];
    [eauto|].
  destruct (includeAncestors_total fuel d inc) as [mid E].
  - unfold uncovered. pose proof (List.filter_length_le
      (fun k => negb (set_has inc k)) (map_keys nm)). lia.
  - rewrite E. apply IH.
Qed.

Lemma directlyVisible_In (vis : list string) (k : string) :
  In k (directlyVisible g vis) <->
  exists a b, In a (nodes g) /\ In b (branches a) /\ In b vis /\ id a = k.
Proof.
  unfold directlyVisible. rewrite set_of_list_In, in_map_iff. split.
  - intros (a & <- & Ha). apply filter_In in Ha. destruct Ha as [Ha Hb].
    apply existsb_exists in Hb. destruct Hb as (b & Hb & Hv).
    apply includes_In in Hv. exists a, b. auto.
  - intros (a & b & Ha & Hb & Hv & <-). exists a. split; [reflexivity|].
    apply filter_In. split; [exact Ha|]. apply existsb_exists.
    exists b. split; [exact Hb | now apply includes_In].
Qed.

(** The set the filter computes is the set of ids reached from the nodes
    that carry a visible branch. *)
Lemma nodesToInclude_spec (vis : list string) :
  exists inc,
    nodesToInclude g vis = Some inc /\
    forall k, In k inc <-> keptByFilter g vis k.
Proof.
  unfold nodesToInclude.
  destruct (seeds_loop_total (S (List.length (nodes g)))
              (directlyVisible g vis)) with (inc := directlyVisible g vis)
    as [inc E].
  { pose proof (nodeMapOf_length (nodes g)). lia. }
  exists inc. split; [exact E|].
  destruct (seeds_loop_spec _ _ _ _ E) as (I & R & C & P).
  assert (Hclosed : forall k n, In k inc -> map_get nm k = Some n ->
                      forall p, In p (parentShas n) -> In p inc).
  { intros k n Hk Hn p Hp.
    destruct (in_dec string_dec k (directlyVisible g vis)) as [Hd | Hd].
    - now apply (P k n Hd Hn).
    - now apply (C k n Hk Hd Hn). }
  intros k. split.
  - intros Hk.
    destruct (in_dec string_dec k (directlyVisible g vis)) as [Hd | Hd].
    + apply directlyVisible_In in Hd.
      destruct Hd as (a & b & Ha & Hb & Hv & <-).
      exists a, b. repeat split; auto. constructor.
    + destruct (R k Hk Hd) as (d & Hd' & Hr).
      apply directlyVisible_In in Hd'.
      destruct Hd' as (a & b & Ha & Hb & Hv & <-).
      exists a, b. auto.
  - intros (a & b & Ha & Hb & Hv & Hr).
    assert (Hin : In (id a) inc).
    { apply I, directlyVisible_In. exists a, b. auto. }
    clear Ha Hb Hv. induction Hr as [x | x p y n Hat Hp Hr IHr]; [exact Hin|].
    apply IHr. apply (Hclosed x n Hin); [| exact Hp].
    now rewrite nodeMapOf_get.
Qed.

End AncestorFilter.

Lemma reachable_snoc (g : Graph) (a k p : string) (n : Node) :
  reachable g a k -> node_at g k = Some n -> In p (parentShas n) ->
  reachable g a p.
Proof.
  intros Hr. induction Hr as [x | x q y m Hat Hq Hr IH]; intros Hn Hp.
  - eapply reach_parent; eauto. constructor.
  - eapply reach_parent; eauto.
Qed.

Lemma node_at_id (g : Graph) (k : string) (n : Node) :
  node_at g k = Some n -> In n (nodes g) /\ id n = k.
Proof.
  unfold node_at. intros H. apply find_some in H.
  destruct H as [Hin E]. apply String.eqb_eq in E. auto.
Qed.

(** X19.  The branch filter of the graph component, on a graph whose node
    ids are distinct: with no visible branch it shows the whole graph; with
    some, it keeps exactly the nodes reached along [parentShas] from a node
    that carries a visible branch, in their order, and the links whose two
    ends are both reached.  The walk over the ancestors always ends. *)
Theorem filter_keeps_visible_branches_and_ancestors (g : Graph)
        (visibleBranches : list string) :
  NoDup (map id (nodes g)) ->
  (visibleBranches = [] -> RepoGraph.shown g visibleBranches = Some g) /\
  (visibleBranches <> [] ->
   exists inc,
     (forall k, In k inc <-> keptByFilter g visibleBranches k) /\
     RepoGraph.shown g visibleBranches
     = Some (mkGraph
               (filter (fun n => set_has inc (id n)) (nodes g))
               (filter (fun l => set_has inc (source l)
                                 && set_has inc (target l)) (links g)))).
Proof.
  intros Hnd. split.
  - intros ->. reflexivity.
  - intros Hne. destruct (nodesToInclude_spec g Hnd visibleBranches)
      as (inc & E & Hinc).
    exists inc. split; [exact Hinc|].
    unfold RepoGraph.shown. rewrite E.
    destruct visibleBranches; [congruence | reflexivity].
Qed.

Lemma filter_keeps_visible_branches_and_ancestors_witness :
  let g := buildGraphFromCommits
             (expandedOf Examples.sharedRoot 6 ["main"; "dev"])
             (membershipOf Examples.sharedRoot 6 ["main"; "dev"]) in
  exists inc,
    (forall k, In k inc <-> keptByFilter g ["dev"] k) /\
    RepoGraph.shown g ["dev"]
    = Some (mkGraph
              (filter (fun n => set_has inc (id n)) (nodes g))
              (filter (fun l => set_has inc (source l)
                                && set_has inc (target l)) (links g))).
Proof.
  apply (filter_keeps_visible_branches_and_ancestors
           (buildGraphFromCommits
              (expandedOf Examples.sharedRoot 6 ["main"; "dev"])
              (membershipOf Examples.sharedRoot 6 ["main"; "dev"]))
           ["dev"]).
  - vm_compute. repeat constructor; simpl; intuition discriminate.
  - discriminate.
Defined.

Lemma built_link_ends (cs : list Commit) (c2b : BranchIndex) (l : Link) :
  NoDup (map sha cs) ->
  In l (links (buildGraphFromCommits cs c2b)) ->
  exists nS nT,
    node_at (buildGraphFromCommits cs c2b) (source l) = Some nS /\
    node_at (buildGraphFromCommits cs c2b) (target l) = Some nT /\
    In (target l) (parentShas nS).
Proof.
  intros Hnd Hl. rewrite build_links in Hl. apply in_map_iff in Hl.
  destruct Hl as ([B p] & <- & He). simpl.
  apply edges_In in He. destruct He as (c & Hc & <- & Hp).
  destruct (commit_node cs c2b c Hnd Hc)
    as (nS & HS & _ & _ & _ & _ & _ & HSp & _).
  destruct (parent_has_node cs c2b c p Hc Hp) as (nT & HT & _).
  exists nS, nT. split; [exact HS|]. split; [exact HT|]. now rewrite HSp.
Qed.

(** X20.  Whatever branches are visible, the graph component hands the
    layout a graph without loose ends when the graph comes from the
    handler: the filter ends, what it shows are nodes and links of the
    reply, every link shown joins two nodes shown, and every parent of a
    node shown is shown. *)
Theorem shown_graph_has_no_loose_ends (prov : Provider) (maxCommits : Z)
        (branchTips : list string) (pl : Payload)
        (visibleBranches : list string) :
  buildGraph prov maxCommits branchTips = Ok pl ->
  exists g',
    RepoGraph.shown (graph pl) visibleBranches = Some g' /\
    incl (nodes g') (nodes (graph pl)) /\
    incl (links g') (links (graph pl)) /\
    (forall l, In l (links g') ->
       exists nS nT, In nS (nodes g') /\ In nT (nodes g') /\
                     id nS = source l /\ id nT = target l) /\
    (forall n p, In n (nodes g') -> In p (parentShas n) ->
       exists np, In np (nodes g') /\ id np = p).
Proof.
  intros H.
  pose proof (buildGraph_graph prov maxCommits branchTips pl H) as Hg.
  pose proof (expandedOf_distinct prov maxCommits branchTips) as Hd.
  set (cs := expandedOf prov maxCommits branchTips) in *.
  set (c2b := membershipOf prov maxCommits branchTips) in *.
  assert (Hnd : NoDup (map id (nodes (graph pl))))
    by (rewrite Hg; apply node_ids_distinct).
  assert (Hends : forall l, In l (links (graph pl)) ->
            exists nS nT, node_at (graph pl) (source l) = Some nS /\
                          node_at (graph pl) (target l) = Some nT).
  { intros l Hl. rewrite Hg in *.
    destruct (built_link_ends cs c2b l Hd Hl) as (nS & nT & HS & HT & _).
    eauto. }
  assert (Hpar : forall k n p, node_at (graph pl) k = Some n ->
            In p (parentShas n) -> exists np, node_at (graph pl) p = Some np).
  { intros k n p Hk Hp. rewrite Hg in *. eapply node_parents_exist; eauto. }
  assert (Hat : forall n, In n (nodes (graph pl)) ->
            node_at (graph pl) (id n) = Some n).
  { intros n Hn. rewrite Hg in *. now apply node_in_build. }
  destruct visibleBranches as [| v vs].
  - exists (graph pl). split; [reflexivity|].
    split; [apply incl_refl|]. split; [apply incl_refl|]. split.
    + intros l Hl. destruct (Hends l Hl) as (nS & nT & HS & HT).
      apply node_at_id in HS, HT. exists nS, nT. tauto.
    + intros n p Hn Hp. destruct (Hpar (id n) n p (Hat n Hn) Hp) as [np Hnp].
      apply node_at_id in Hnp. exists np. exact Hnp.
  - destruct (nodesToInclude_spec (graph pl) Hnd (v :: vs)) as (inc & E & Hinc).
    unfold RepoGraph.shown. rewrite E. cbn [List.length Nat.ltb Nat.leb].
    eexists. split; [reflexivity|]. cbn [nodes links].
    split; [intros n Hn; apply filter_In in Hn; tauto|].
    split; [intros l Hl; apply filter_In in Hl; tauto|]. split.
    + intros l Hl. apply filter_In in Hl. destruct Hl as [Hl Hb].
      apply andb_true_iff in Hb. destruct Hb as [Hs Ht].
      destruct (Hends l Hl) as (nS & nT & HS & HT).
      apply node_at_id in HS, HT. destruct HS as [HS ES], HT as [HT ET].
      exists nS, nT. rewrite !filter_In, ES, ET. tauto.
    + intros n p Hn Hp. apply filter_In in Hn. destruct Hn as [Hn Hb].
      destruct (Hpar (id n) n p (Hat n Hn) Hp) as [np Hnp].
      apply node_at_id in Hnp. destruct Hnp as [Hnp Ep].
      exists np. split; [| exact Ep]. apply filter_In. split; [exact Hnp|].
      rewrite Ep. apply includes_In, Hinc.
      apply includes_In, Hinc in Hb.
      destruct Hb as (a & b & Ha & Hb & Hv & Hr). exists a, b.
      repeat split; auto. eapply reachable_snoc; eauto.
Qed.

Lemma shown_graph_has_no_loose_ends_witness :
  exists pl g',
    buildGraph Examples.sharedRoot 6 ["main"; "dev"] = Ok pl /\
    RepoGraph.shown (graph pl) ["dev"] = Some g' /\
    incl (links g') (links (graph pl)).
Proof.
  eexists.
  destruct (shown_graph_has_no_loose_ends Examples.sharedRoot 6
              ["main"; "dev"] _ ["dev"] eq_refl) as (g' & Hs & _ & Hl & _).
  exists g'. split; [reflexivity|]. split; [exact Hs | exact Hl].
Defined.

(** ** The handler against the repository's own checks *)

Lemma num_or_zero (n : nat) : num_or (Some n) 0 = n.
Proof. destruct n; reflexivity. Qed.

Lemma filter_none (A : Type) (f : A -> bool) (l : list A) :
  (forall x, In x l -> f x = false) -> filter f l = [].
Proof.
  induction l as [| a l IH]; intros H; simpl; [reflexivity|].
  rewrite (H a (or_introl eq_refl)). apply IH. intros x Hx. apply H. now right.
Qed.

Lemma list_sum_zero (A : Type) (f : A -> nat) (l : list A) :
  (forall x, In x l -> f x = 0) -> list_sum (map f l) = 0.
Proof.
  induction l as [| a l IH]; intros H; simpl; [reflexivity|].
  rewrite (H a (or_introl eq_refl)). apply IH. intros x Hx. apply H. now right.
Qed.

Lemma brokenLinksFrom_none (nodeIds : JsSet) (ls : list Link) :
  (forall l, In l ls -> In (source l) nodeIds /\ In (target l) nodeIds) ->
  forall idx, GraphAccuracyTests.brokenLinksFrom nodeIds idx ls = [].
Proof.
  induction ls as [| l ls IH]; intros H idx; simpl; [reflexivity|].
  destruct (H l (or_introl eq_refl)) as [Hs Ht].
  apply includes_In in Hs, Ht. unfold set_has. rewrite Hs, Ht. simpl.
  apply IH. intros l' Hl'. apply H. now right.
Qed.

Lemma duplicatesFrom_none (ls : list Link) :
  forall linkKeys,
    GraphAccuracyTests.duplicatesFrom linkKeys ls = [] ->
    NoDup (map GraphAccuracyTests.linkKey ls) /\
    forall l, In l ls -> ~ In (GraphAccuracyTests.linkKey l) linkKeys.
Proof.
  induction ls as [| l ls IH]; intros keys H; simpl in *.
  - split; [constructor | intros l []].
  - destruct (set_has keys (GraphAccuracyTests.linkKey l)) eqn:E;
      [discriminate|].
    apply includes_false in E. simpl in H.
    destruct (IH _ H) as [Hnd Hout]. split.
    + constructor; [| exact Hnd]. intros Hin. apply in_map_iff in Hin.
      destruct Hin as (l' & El & Hl'). apply (Hout l' Hl').
      apply set_add_In. right. exact El.
    + intros l' [<- | Hl']; [exact E|].
      intros Hin. apply (Hout l' Hl'). apply set_add_In. now left.
Qed.

Section ChecksOnReply.

Variable prov : Provider.
Variable maxCommits : Z.
Variable branchTips : list string.
Variable pl : Payload.
Hypothesis answered : buildGraph prov maxCommits branchTips = Ok pl.

Local Abbreviation cs := (expandedOf prov maxCommits branchTips).
Local Abbreviation c2b := (membershipOf prov maxCommits branchTips).

Lemma reply_graph : graph pl = buildGraphFromCommits cs c2b.
Proof. exact (buildGraph_graph prov maxCommits branchTips pl answered). Qed.

Lemma reply_lookup (k : string) :
  map_get (nodeMapOf (nodes (graph pl))) k = node_at (graph pl) k.
Proof.
  apply nodeMapOf_get. rewrite reply_graph. apply node_ids_distinct.
Qed.

Lemma reply_flags (n : Node) :
  In n (nodes (graph pl)) ->
  isMerge n = (1 <? List.length (parentShas n))%nat /\
  isSplit n = (1 <? List.length (childShas n))%nat.
Proof.
  rewrite reply_graph, build_nodes. intros Hn. apply in_map_iff in Hn.
  destruct Hn as (n3 & <- & _). split; reflexivity.
Qed.

Lemma reply_link_ends (l : Link) :
  In l (links (graph pl)) ->
  exists nS nT,
    node_at (graph pl) (source l) = Some nS /\
    node_at (graph pl) (target l) = Some nT /\
    In (target l) (parentShas nS).
Proof.
  rewrite reply_graph. apply built_link_ends.
  apply expandedOf_distinct.
Qed.

Lemma reply_adjacency (A B : string) (nA nB : Node) :
  node_at (graph pl) A = Some nA -> node_at (graph pl) B = Some nB ->
  (In A (parentShas nB) <-> In B (childShas nA)).
Proof.
  rewrite reply_graph. apply adjacency_agrees. apply expandedOf_distinct.
Qed.

Lemma reply_node_at (n : Node) :
  In n (nodes (graph pl)) -> node_at (graph pl) (id n) = Some n.
Proof. rewrite reply_graph. apply node_in_build. Qed.

End ChecksOnReply.

(** X21.  Every reply of the handler passes the first check of
    [testLinkIntegrity]: no link is broken, each end of each link is the id
    of a node. *)
Theorem link_integrity_check_passes (prov : Provider) (maxCommits : Z)
        (branchTips : list string) (pl : Payload) :
  buildGraph prov maxCommits branchTips = Ok pl ->
  GraphAccuracyTests.brokenLinks pl = [] /\
  GraphAccuracyTests.allLinksReferenceExistingNodes pl = true.
Proof.
  intros H.
  assert (E : GraphAccuracyTests.brokenLinks pl = []).
  { unfold GraphAccuracyTests.brokenLinks. apply brokenLinksFrom_none.
    intros l Hl.
    destruct (reply_link_ends prov maxCommits branchTips pl H l Hl)
      as (nS & nT & HS & HT & _).
    apply node_at_id in HS, HT. destruct HS as [HS ES], HT as [HT ET].
    rewrite !set_of_list_In, <- ES, <- ET. split; now apply in_map. }
  split; [exact E|].
  unfold GraphAccuracyTests.allLinksReferenceExistingNodes. now rewrite E.
Qed.

Lemma link_integrity_check_passes_witness :
  exists pl,
    buildGraph Examples.truncated 2 ["main"] = Ok pl /\
    GraphAccuracyTests.allLinksReferenceExistingNodes pl = true.
Proof.
  eexists. split; [vm_compute; reflexivity|].
  apply (link_integrity_check_passes Examples.truncated 2 ["main"] _ eq_refl).
Defined.

(** X22.  The second check of [testLinkIntegrity], 'No duplicate links',
    passes on a reply only if the links of the reply are pairwise distinct,
    and so only if no commit of the expanded set names a parent twice. *)
Theorem duplicate_link_check_needs_distinct_parents (prov : Provider)
        (maxCommits : Z) (branchTips : list string) (pl : Payload) :
  buildGraph prov maxCommits branchTips = Ok pl ->
  GraphAccuracyTests.noDuplicateLinks pl = true ->
  NoDup (links (graph pl)) /\
  forall c, In c (expandedOf prov maxCommits branchTips) -> NoDup (parents c).
Proof.
  intros H Ht.
  assert (Hl : NoDup (links (graph pl))).
  { unfold GraphAccuracyTests.noDuplicateLinks in Ht.
    apply Nat.eqb_eq, length_zero_iff_nil in Ht.
    apply duplicatesFrom_none in Ht. destruct Ht as [Hk _].
    exact (NoDup_map_inv _ _ Hk). }
  split; [exact Hl|].
  intros c Hc.
  rewrite (reply_graph prov maxCommits branchTips pl H), build_links in Hl.
  apply NoDup_map_inv in Hl. unfold edges in Hl.
  apply (flat_map_NoDup_part _ _ _ _ c) in Hl; [| exact Hc].
  exact (NoDup_map_inv _ _ Hl).
Qed.

Lemma duplicate_link_check_needs_distinct_parents_witness :
  exists pl,
    buildGraph Examples.truncated 2 ["main"] = Ok pl /\
    NoDup (links (graph pl)).
Proof.
  eexists. split; [vm_compute; reflexivity|].
  apply (duplicate_link_check_needs_distinct_parents Examples.truncated 2
           ["main"] _ eq_refl).
  vm_compute. reflexivity.
Defined.

(** X23.  Every reply of the handler passes [testParentChildRelationships]:
    the count of inconsistencies between [parentShas] and [childShas] is
    zero. *)
Theorem parent_child_check_passes (prov : Provider) (maxCommits : Z)
        (branchTips : list string) (pl : Payload) :
  buildGraph prov maxCommits branchTips = Ok pl ->
  GraphAccuracyTests.inconsistencies pl = 0 /\
  GraphAccuracyTests.relationshipsBidirectional pl = true.
Proof.
  intros H.
  assert (E : GraphAccuracyTests.inconsistencies pl = 0).
  { unfold GraphAccuracyTests.inconsistencies.
    assert (Hz : forall node, In node (nodes (graph pl)) ->
              GraphAccuracyTests.inconsistenciesOf
                (nodeMapOf (nodes (graph pl))) node = 0).
    { intros node Hn.
      pose proof (reply_node_at prov maxCommits branchTips pl H node Hn) as Hat.
      unfold GraphAccuracyTests.inconsistenciesOf.
      rewrite !filter_none; [reflexivity | |].
      - intros childId Hc.
        rewrite (reply_lookup prov maxCommits branchTips pl H).
        destruct (node_at (graph pl) childId) as [child |] eqn:G;
          [| reflexivity].
        apply negb_false_iff, includes_In.
        now apply (reply_adjacency prov maxCommits branchTips pl H
                     (id node) childId node child Hat G).
      - intros parentId Hp.
        rewrite (reply_lookup prov maxCommits branchTips pl H).
        destruct (node_at (graph pl) parentId) as [parent |] eqn:G;
          [| reflexivity].
        apply negb_false_iff, includes_In.
        now apply (reply_adjacency prov maxCommits branchTips pl H
                     parentId (id node) parent node G Hat). }
    now apply list_sum_zero. }
  split; [exact E|].
  unfold GraphAccuracyTests.relationshipsBidirectional. now rewrite E.
Qed.

Lemma parent_child_check_passes_witness :
  exists pl,
    buildGraph Examples.sharedRoot 4 ["main"; "dev"] = Ok pl /\
    GraphAccuracyTests.relationshipsBidirectional pl = true.
Proof.
  eexists. split; [vm_compute; reflexivity|].
  apply (parent_child_check_passes Examples.sharedRoot 4 ["main"; "dev"] _
           eq_refl).
Defined.

(** X24.  Every reply of the handler passes the per-node checks of
    [testMergeDetection] and [testSplitDetection], and [testLinkDirection]:
    no node is wrongly flagged as merge or as split, and no link runs from
    parent to child. *)
Theorem flag_and_direction_checks_pass (prov : Provider) (maxCommits : Z)
        (branchTips : list string) (pl : Payload) :
  buildGraph prov maxCommits branchTips = Ok pl ->
  GraphAccuracyTests.mergesCorrectlyIdentified pl = true /\
  GraphAccuracyTests.splitsCorrectlyIdentified pl = true /\
  GraphAccuracyTests.linksPointFromChildToParent pl = true.
Proof.
  intros H.
  unfold GraphAccuracyTests.mergesCorrectlyIdentified,
    GraphAccuracyTests.splitsCorrectlyIdentified,
    GraphAccuracyTests.linksPointFromChildToParent,
    GraphAccuracyTests.incorrectMerges, GraphAccuracyTests.incorrectSplits,
    GraphAccuracyTests.incorrectDirections.
  rewrite !filter_none; [auto | | |].
  - intros l Hl. rewrite !(reply_lookup prov maxCommits branchTips pl H).
    destruct (reply_link_ends prov maxCommits branchTips pl H l Hl)
      as (nS & nT & -> & -> & Hp).
    now apply negb_false_iff, includes_In.
  - intros n Hn.
    destruct (reply_flags prov maxCommits branchTips pl H n Hn) as [_ ->].
    now rewrite Bool.eqb_reflx.
  - intros n Hn.
    destruct (reply_flags prov maxCommits branchTips pl H n Hn) as [-> _].
    now rewrite Bool.eqb_reflx.
Qed.

Lemma flag_and_direction_checks_pass_witness :
  exists pl,
    buildGraph Examples.sharedRoot 4 ["main"; "dev"] = Ok pl /\
    GraphAccuracyTests.mergesCorrectlyIdentified pl = true /\
    GraphAccuracyTests.splitsCorrectlyIdentified pl = true /\
    GraphAccuracyTests.linksPointFromChildToParent pl = true.
Proof.
  eexists. split; [vm_compute; reflexivity|].
  apply (flag_and_direction_checks_pass Examples.sharedRoot 4 ["main"; "dev"]
           _ eq_refl).
Defined.

(** X25.  The check 'Merge count matches stats' of [testMergeDetection]
    reads the key [mergeCommits], which the reply does not carry: the
    handler reports the merge nodes under [pullRequests].  So the check
    compares the number of merge nodes with 0, and a reply passes it
    exactly when its graph has no merge node. *)
Theorem merge_count_check_reads_missing_key (prov : Provider)
        (maxCommits : Z) (branchTips : list string) (pl : Payload) :
  buildGraph prov maxCommits branchTips = Ok pl ->
  GraphAccuracyTests.statsCount pl = 0 /\
  GraphAccuracyTests.mergeCount pl = pullRequests (stats (meta pl)) /\
  (GraphAccuracyTests.mergeCountMatchesStats pl = true <->
   pullRequests (stats (meta pl)) = 0).
Proof.
  intros H. split; [reflexivity|].
  assert (E : GraphAccuracyTests.mergeCount pl = pullRequests (stats (meta pl))).
  { rewrite (buildGraph_stats prov maxCommits branchTips pl H). reflexivity. }
  split; [exact E|].
  unfold GraphAccuracyTests.mergeCountMatchesStats.
  change (GraphAccuracyTests.statsCount pl) with 0.
  rewrite Nat.eqb_eq, E. tauto.
Qed.

Lemma merge_count_check_reads_missing_key_witness :
  exists pl,
    buildGraph Examples.repeatedParent 2 ["main"] = Ok pl /\
    pullRequests (stats (meta pl)) = 1 /\
    (GraphAccuracyTests.mergeCountMatchesStats pl = true <->
     pullRequests (stats (meta pl)) = 0).
Proof.
  eexists. split; [vm_compute; reflexivity|].
  split; [vm_compute; reflexivity|].
  apply (merge_count_check_reads_missing_key Examples.repeatedParent 2
           ["main"] _ eq_refl).
Defined.

Lemma branchCounts_entries (g : Graph) (tips : list string) :
  forall counts,
    (forall b n, In (b, n) counts -> n = countBranch g b) ->
    forall b n,
      In (b, n)
         (fold_left (fun counts branch =>
                       obj_set counts branch (countBranch g branch))
                    tips counts) ->
      n = countBranch g b.
Proof.
  induction tips as [| t tips IH]; intros counts Hc b n Hin; simpl in Hin;
    [eauto|].
  apply (IH _) in Hin; [exact Hin|].
  unfold obj_set. destruct (t =? "__proto__"); [exact Hc|].
  clear - Hc. induction counts as [| [k v] m IHm]; intros b' n' Hin.
  - simpl in Hin. destruct Hin as [E | []]. now injection E as <- <-.
  - simpl in Hin. destruct (k =? t) eqn:Ek.
    + apply String.eqb_eq in Ek. subst k.
      destruct Hin as [E | Hin]; [now injection E as <- <-|].
      apply Hc. now right.
    + destruct Hin as [E | Hin]; [apply Hc; left; exact E|].
      apply IHm; [| exact Hin]. intros b0 n0 H'. apply Hc. now right.
Qed.

(** X26.  Every reply of the handler passes the count checks of
    [testMetadataAccuracy] and [testAuthorTracking]: the total is the node
    count, each entry of [branchCounts] is the number of nodes that carry
    the branch, and the author count is the number of distinct non-empty
    authors. *)
Theorem metadata_checks_pass (prov : Provider) (maxCommits : Z)
        (branchTips : list string) (pl : Payload) :
  buildGraph prov maxCommits branchTips = Ok pl ->
  GraphAccuracyTests.totalMatchesNodeCount pl = true /\
  GraphAccuracyTests.branchCountsAccurate pl = true /\
  GraphAccuracyTests.authorCountMatches pl = true.
Proof.
  intros H.
  pose proof (buildGraph_stats prov maxCommits branchTips pl H) as Hs.
  unfold GraphAccuracyTests.totalMatchesNodeCount,
    GraphAccuracyTests.branchCountsAccurate,
    GraphAccuracyTests.authorCountMatches, GraphAccuracyTests.uniqueAuthors.
  rewrite Hs.
  change (GraphAccuracyTests.statsNumber (computeStats (graph pl) branchTips)
            "totalCommits")
    with (Some (totalCommits (computeStats (graph pl) branchTips))).
  change (GraphAccuracyTests.statsNumber (computeStats (graph pl) branchTips)
            "authors")
    with (Some (authors (computeStats (graph pl) branchTips))).
  rewrite !num_or_zero. unfold computeStats. simpl.
  split; [apply Nat.eqb_refl|]. split.
  - apply forallb_forall. intros [b n] Hin. simpl. apply Nat.eqb_eq.
    symmetry. eapply branchCounts_entries; [| exact Hin]. intros b' n' [].
  - apply Nat.eqb_eq. f_equal. f_equal. apply filter_ext.
    intros a. unfold truthy. now rewrite andb_diag.
Qed.

Lemma metadata_checks_pass_witness :
  exists pl,
    buildGraph Examples.sharedRoot 4 ["main"; "dev"] = Ok pl /\
    GraphAccuracyTests.totalMatchesNodeCount pl = true /\
    GraphAccuracyTests.branchCountsAccurate pl = true /\
    GraphAccuracyTests.authorCountMatches pl = true.
Proof.
  eexists. split; [vm_compute; reflexivity|].
  apply (metadata_checks_pass Examples.sharedRoot 4 ["main"; "dev"] _ eq_refl).
Defined.

(** ** The layers of the layout *)

Lemma nodeMapOf_In (ns : list Node) (k : string) (n : Node) :
  map_get (nodeMapOf ns) k = Some n -> In n ns /\ id n = k.
Proof.
  unfold nodeMapOf.
  assert (Hgen : forall m : JsMap Node,
    map_get (fold_left (fun m n => map_set m (id n) n) ns m) k = Some n ->
    (In n ns /\ id n = k) \/ map_get m k = Some n).
  { induction ns as [| a ns IH]; intros m H; simpl in H; [now right|].
    apply IH in H. destruct H as [[Hin E] | H]; [left; split; [now right | exact E]|].
    rewrite map_get_set in H. destruct (id a =? k) eqn:E.
    - injection H as <-. apply String.eqb_eq in E. left. split; [now left | exact E].
    - now right. }
  intros H. apply Hgen in H. destruct H as [H | H]; [exact H | discriminate].
Qed.

Lemma nodeMapOf_has (ns : list Node) (n : Node) :
  In n ns -> map_has (nodeMapOf ns) (id n) = true.
Proof.
  intros Hn. apply map_has_keys. unfold nodeMapOf.
  assert (Hgen : forall (m : JsMap Node) k,
    In k (map_keys (fold_left (fun m n => map_set m (id n) n) ns m)) <->
    In k (map_keys m) \/ In k (map id ns)).
  { clear. induction ns as [| a ns IH]; intros m k; simpl; [tauto|].
    rewrite IH, map_keys_set_In. intuition auto. }
  apply Hgen. right. now apply in_map.
Qed.

Section Layering.

Import RepoGraph.

Variable nm : JsMap Node.
Variable rank : string -> nat.
Hypothesis acyclic : forall k n c,
  map_get nm k = Some n -> In c (childShas n) -> map_has nm c = true ->
  rank c < rank k.

Lemma layerOf_get (L : JsMap nat) (k : string) (l : nat) :
  map_get L k = Some l -> layerOf L k = l.
Proof. unfold layerOf. intros ->. apply num_or_zero. Qed.

Lemma layerOf_none (L : JsMap nat) (k : string) :
  map_get L k = None -> layerOf L k = 0.
Proof. unfold layerOf. now intros ->. Qed.

Lemma map_has_set_mono (V : Type) (m : JsMap V) (k c : string) (v : V) :
  map_has m c = true -> map_has (map_set m k v) c = true.
Proof.
  unfold map_has. rewrite map_get_set. destruct (k =? c); [reflexivity | auto].
Qed.

Lemma layerFormula_ext (L L' : JsMap nat) (n : Node) :
  (forall c, In c (childShas n) -> layerOf L' c = layerOf L c) ->
  layerFormula L' n = layerFormula L n.
Proof.
  intros H. unfold layerFormula. destruct (childShas n) as [| c cs] eqn:E;
    [reflexivity|].
  f_equal. f_equal. apply map_ext_in. exact H.
Qed.

Lemma LayerExt_refl (st : LState) : LayerExt st st.
Proof. constructor; auto using incl_refl. Qed.

Lemma LayerExt_trans (st1 st2 st3 : LState) :
  LayerExt st1 st2 -> LayerExt st2 st3 -> LayerExt st1 st3.
Proof.
  intros [V1 K1 N1] [V2 K2 N2]. constructor.
  - intros x Hx. auto.
  - auto.
  - intros k Hk Hn. apply N2; auto.
Qed.

Lemma LayerExt_visit (L : JsMap nat) (V : JsSet) (nodeId : string) :
  LayerExt (L, V) (L, set_add V nodeId).
Proof.
  constructor; simpl; auto. intros x Hx. apply set_add_In. now left.
Qed.

Lemma LayerExt_set (st : LState) (L2 : JsMap nat) (V2 : JsSet)
      (nodeId : string) (layer : nat) :
  LayerExt st (L2, V2) -> ~ In nodeId (snd st) ->
  map_get L2 nodeId = None ->
  LayerExt st (map_set L2 nodeId layer, V2).
Proof.
  intros [Hv Hk Hn] Hnot Hnone. constructor; simpl in *.
  - exact Hv.
  - intros k l Hl. apply Hk in Hl. rewrite map_get_set.
    destruct (nodeId =? k) eqn:E; [| exact Hl].
    apply String.eqb_eq in E. subst. congruence.
  - intros k Hin Hl. rewrite map_get_set.
    destruct (nodeId =? k) eqn:E; [| now apply Hn].
    apply String.eqb_eq in E. subst. contradiction.
Qed.

Lemma LayerInv_push (stack : list string) (L : JsMap nat) (V : JsSet)
      (nodeId : string) :
  LayerInv nm stack (L, V) ->
  LayerInv nm (nodeId :: stack) (L, set_add V nodeId).
Proof.
  intros [He Hv]. constructor; simpl in *; [exact He|].
  intros k Hk Hn. apply set_add_In in Hk. destruct Hk as [Hk | ->].
  - destruct (Hv k Hk Hn); auto.
  - right. now left.
Qed.

(** Setting the layer of the call in progress. *)
Lemma LayerInv_set (stack : list string) (L : JsMap nat) (V : JsSet)
      (nodeId : string) (node : Node) (layer : nat) :
  LayerInv nm (nodeId :: stack) (L, V) ->
  map_get L nodeId = None -> map_get nm nodeId = Some node ->
  layer = layerFormula L node ->
  (forall c, In c (childShas node) -> map_has nm c = true ->
             map_has L c = true) ->
  LayerInv nm stack (map_set L nodeId layer, V).
Proof.
  intros [He Hv] Hnone Hnode Hl Hch. simpl in *.
  assert (Hnm : map_has nm nodeId = true)
    by (unfold map_has; now rewrite Hnode).
  assert (Hsame : forall n,
            (forall c, In c (childShas n) -> map_has nm c = true ->
                       map_has L c = true) ->
            (forall c, In c (childShas n) -> c <> nodeId) ->
            layerFormula (map_set L nodeId layer) n = layerFormula L n).
  { intros n Hc Hne. apply layerFormula_ext. intros c Hin.
    unfold layerOf. rewrite map_get_set_other; [reflexivity|].
    intros E. apply (Hne c Hin). now symmetry. }
  constructor; simpl.
  - intros k l Hk. rewrite map_get_set in Hk.
    destruct (nodeId =? k) eqn:E.
    + apply String.eqb_eq in E. subst k. injection Hk as <-.
      exists node. split; [exact Hnode|]. split.
      * rewrite Hsame; auto. intros c Hc ->.
        pose proof (acyclic nodeId node nodeId Hnode Hc Hnm). lia.
      * intros c Hc Hn. apply map_has_set_mono. auto.
    + destruct (He k l Hk) as (n & Hn & El & Hc).
      exists n. split; [exact Hn|]. split.
      * rewrite Hsame; auto. intros c Hin ->.
        specialize (Hc nodeId Hin Hnm). unfold map_has in Hc.
        now rewrite Hnone in Hc.
      * intros c Hin Hcn. apply map_has_set_mono. auto.
  - intros k Hk Hn. destruct (Hv k Hk Hn) as [Hh | [<- | Hs]].
    + left. now apply map_has_set_mono.
    + left. unfold map_has. now rewrite map_get_set_same.
    + now right.
Qed.

Lemma layerOf_stable (stack : list string) (st st' : LState) (c : string) :
  LayerExt st st' -> LayerInv nm stack st' ->
  (map_has nm c = true -> map_has (fst st) c = true) ->
  layerOf (fst st') c = layerOf (fst st) c.
Proof.
  intros [_ Hk _] [He _] Hc. unfold layerOf.
  destruct (map_get (fst st) c) as [l |] eqn:G.
  - now rewrite (Hk c l G).
  - destruct (map_get (fst st') c) as [l' |] eqn:G'; [| reflexivity].
    destruct (He c l' G') as (n & Hn & _).
    assert (Hnm : map_has nm c = true) by (unfold map_has; now rewrite Hn).
    apply Hc in Hnm. unfold map_has in Hnm. now rewrite G in Hnm.
Qed.

Lemma getLayer_unfold (fuel : nat) (nodeId : string) (st : LState) :
  getLayer (S fuel) nm nodeId st =
  match map_get (fst st) nodeId with
  | Some layer => Some (layer, st)
  | None =>
      if set_has (snd st) nodeId then Some (0, st)
      else
        match map_get nm nodeId with
        | None => Some (0, (fst st, set_add (snd st) nodeId))
        | Some node =>
            if (List.length (childShas node) =? 0)%nat
            then Some (0, (map_set (fst st) nodeId 0, set_add (snd st) nodeId))
            else
              match mapM (getLayer fuel nm) (childShas node)
                         (fst st, set_add (snd st) nodeId) with
              | Some (childLayers, st2) =>
                  Some (list_max childLayers + 1,
                        (map_set (fst st2) nodeId (list_max childLayers + 1),
                         snd st2))
              | None => None
              end
        end
  end.
Proof. reflexivity. Qed.

Lemma children_layers_spec (fuel : nat) (stack : list string) :
  (forall nodeId st r st',
     getLayer fuel nm nodeId st = Some (r, st') ->
     LayerInv nm stack st ->
     (map_has nm nodeId = true -> forall s, In s stack -> rank nodeId < rank s) ->
     LayerInv nm stack st' /\ LayerExt st st' /\
     r = layerOf (fst st') nodeId /\
     (map_has nm nodeId = true -> map_has (fst st') nodeId = true)) ->
  forall cs st rs st',
    mapM (getLayer fuel nm) cs st = Some (rs, st') ->
    LayerInv nm stack st ->
    (forall c, In c cs -> map_has nm c = true ->
               forall s, In s stack -> rank c < rank s) ->
    LayerInv nm stack st' /\ LayerExt st st' /\
    rs = map (layerOf (fst st')) cs /\
    (forall c, In c cs -> map_has nm c = true -> map_has (fst st') c = true).
Proof.
  intros IH cs. induction cs as [| c cs IHc]; intros st rs st' H Inv Hr;
    simpl in H.
  - injection H as <- <-. split; [exact Inv|]. split; [apply LayerExt_refl|].
    split; [reflexivity | intros c []].
  - destruct (getLayer fuel nm c st) as [[r stm] |] eqn:E; [| discriminate].
    destruct (mapM (getLayer fuel nm) cs stm) as [[rs' stb] |] eqn:E';
      [| discriminate].
    injection H as <- <-.
    destruct (IH c st r stm E Inv (fun Hn => Hr c (or_introl eq_refl) Hn))
      as (I1 & X1 & R1 & H1).
    destruct (IHc stm rs' stb E' I1
                (fun c' Hc' => Hr c' (or_intror Hc')))
      as (I2 & X2 & R2 & H2).
    split; [exact I2|]. split; [eapply LayerExt_trans; eauto|]. split.
    + simpl. f_equal; [| exact R2].
      rewrite R1. symmetry. eapply layerOf_stable; eauto.
    + intros c' [<- | Hc'] Hn; [| now apply H2].
      specialize (H1 Hn). unfold map_has in *.
      destruct (map_get (fst stm) c) as [l |] eqn:G; [| discriminate].
      now rewrite (@le_kept _ _ X2 c l G).
Qed.

(** What one call of [getLayer] guarantees. *)
Lemma getLayer_spec (fuel : nat) :
  forall stack nodeId st r st',
    getLayer fuel nm nodeId st = Some (r, st') ->
    LayerInv nm stack st ->
    (map_has nm nodeId = true -> forall s, In s stack -> rank nodeId < rank s) ->
    LayerInv nm stack st' /\ LayerExt st st' /\
    r = layerOf (fst st') nodeId /\
    (map_has nm nodeId = true -> map_has (fst st') nodeId = true).
Proof.
  induction fuel as [| fuel IH]; intros stack nodeId st r st' H Inv Hrank;
    [discriminate|].
  rewrite getLayer_unfold in H. destruct st as [L V]. cbn [fst snd] in H.
  destruct (map_get L nodeId) as [layer |] eqn:GL.
  { injection H as <- <-. split; [exact Inv|]. split; [apply LayerExt_refl|].
    split; [symmetry; now apply layerOf_get|].
    intros _. unfold map_has. simpl. now rewrite GL. }
  destruct (set_has V nodeId) eqn:HV.
  { injection H as <- <-. apply includes_In in HV.
    split; [exact Inv|]. split; [apply LayerExt_refl|].
    split; [symmetry; now apply layerOf_none|].
    intros Hn. destruct (@ly_visited _ _ _ Inv nodeId HV Hn) as [Hh | Hs];
      [exact Hh|].
    specialize (Hrank Hn nodeId Hs). lia. }
  apply includes_false in HV.
  destruct (map_get nm nodeId) as [node |] eqn:GN.
  2:{ injection H as <- <-.
      split.
      { destruct Inv as [He Hv]. constructor; simpl in *; [exact He|].
        intros k Hk Hn. apply set_add_In in Hk. destruct Hk as [Hk | ->];
          [auto|].
        unfold map_has in Hn. now rewrite GN in Hn. }
      split; [apply LayerExt_visit|].
      split; [symmetry; now apply layerOf_none|].
      intros Hn. unfold map_has in Hn. now rewrite GN in Hn. }
  assert (Hnm : map_has nm nodeId = true)
    by (unfold map_has; now rewrite GN).
  pose proof (LayerInv_push stack L V nodeId Inv) as Inv1.
  destruct (List.length (childShas node) =? 0)%nat eqn:HC.
  - injection H as <- <-. apply Nat.eqb_eq, length_zero_iff_nil in HC.
    split.
    { eapply LayerInv_set; eauto.
      - unfold layerFormula. now rewrite HC.
      - rewrite HC. intros c []. }
    split.
    { apply LayerExt_set; [apply LayerExt_visit | exact HV | exact GL]. }
    split.
    { symmetry. apply layerOf_get. simpl. apply map_get_set_same. }
    intros _. unfold map_has. simpl. now rewrite map_get_set_same.
  - destruct (mapM (getLayer fuel nm) (childShas node) (L, set_add V nodeId))
      as [[childLayers [L2 V2]] |] eqn:EM; [| discriminate].
    cbn [fst snd] in H. injection H as <- <-.
    destruct (children_layers_spec fuel (nodeId :: stack)
                (IH (nodeId :: stack)) _ _ _ _ EM Inv1)
      as (I2 & X2 & R2 & H2).
    { intros c Hc Hn s [<- | Hs].
      - eapply acyclic; eauto.
      - pose proof (acyclic nodeId node c GN Hc Hn).
        specialize (Hrank Hnm s Hs). lia. }
    simpl in R2, H2.
    assert (GL2 : map_get L2 nodeId = None).
    { apply (@le_none _ _ X2 nodeId); simpl; [| exact GL].
      apply set_add_In. now right. }
    split.
    { eapply LayerInv_set; eauto.
      unfold layerFormula. rewrite R2.
      destruct (childShas node); [discriminate | reflexivity]. }
    split.
    { apply LayerExt_set; [| exact HV | exact GL2].
      eapply LayerExt_trans; [apply LayerExt_visit | exact X2]. }
    split.
    { symmetry. apply layerOf_get. simpl. apply map_get_set_same. }
    intros _. unfold map_has. simpl. now rewrite map_get_set_same.
Qed.

(** *** The calls end within the fuel given *)

Lemma children_visited (fuel : nat) :
  (forall nodeId st r st',
     getLayer fuel nm nodeId st = Some (r, st') -> incl (snd st) (snd st')) ->
  forall cs st rs st',
    mapM (getLayer fuel nm) cs st = Some (rs, st') -> incl (snd st) (snd st').
Proof.
  intros IH cs. induction cs as [| c cs IHc]; intros st rs st' H; simpl in H.
  - injection H as <- <-. apply incl_refl.
  - destruct (getLayer fuel nm c st) as [[r stm] |] eqn:E; [| discriminate].
    destruct (mapM (getLayer fuel nm) cs stm) as [[rs' stb] |] eqn:E';
      [| discriminate].
    injection H as <- <-. apply IH in E. apply IHc in E'.
    intros x Hx. auto.
Qed.

Lemma getLayer_visited (fuel : nat) :
  forall nodeId st r st',
    getLayer fuel nm nodeId st = Some (r, st') -> incl (snd st) (snd st').
Proof.
  induction fuel as [| fuel IH]; intros nodeId st r st' H; [discriminate|].
  rewrite getLayer_unfold in H.
  destruct (map_get (fst st) nodeId);
    [injection H as <- <-; apply incl_refl|].
  destruct (set_has (snd st) nodeId);
    [injection H as <- <-; apply incl_refl|].
  assert (Hadd : incl (snd st) (set_add (snd st) nodeId))
    by (intros x Hx; apply set_add_In; now left).
  destruct (map_get nm nodeId) as [node |];
    [| injection H as <- <-; exact Hadd].
  destruct (List.length (childShas node) =? 0)%nat;
    [injection H as <- <-; exact Hadd|].
  destruct (mapM (getLayer fuel nm) (childShas node)
                 (fst st, set_add (snd st) nodeId))
    as [[childLayers st2] |] eqn:EM; [| discriminate].
  injection H as <- <-. apply (children_visited fuel IH) in EM.
  simpl in *. intros x Hx. auto.
Qed.

Lemma uncovered_mono (inc inc' : JsSet) :
  incl inc inc' -> uncovered nm inc' <= uncovered nm inc.
Proof.
  intros H. unfold uncovered. apply filter_length_mono.
  intros x Hx. apply negb_true_iff in Hx. apply negb_true_iff.
  apply includes_false in Hx. apply includes_false. auto.
Qed.

Lemma uncovered_visit (inc : JsSet) (p : string) :
  In p (map_keys nm) -> ~ In p inc ->
  uncovered nm (set_add inc p) < uncovered nm inc.
Proof.
  intros Hk Hn. unfold uncovered.
  apply filter_length_strict with (a := p); auto.
  - intros x Hx. apply negb_true_iff in Hx. apply negb_true_iff.
    apply includes_false in Hx. apply includes_false.
    intros Hc. apply Hx, set_add_In. now left.
  - apply negb_false_iff, includes_In, set_add_In. now right.
  - now apply negb_true_iff, includes_false.
Qed.

Lemma getLayer_total (fuel : nat) :
  forall nodeId st, uncovered nm (snd st) < fuel ->
    exists res, getLayer fuel nm nodeId st = Some res.
Proof.
  induction fuel as [| fuel IH]; intros nodeId st Hlt; [lia|].
  rewrite getLayer_unfold.
  destruct (map_get (fst st) nodeId); [eauto|].
  destruct (set_has (snd st) nodeId) eqn:HV; [eauto|].
  apply includes_false in HV.
  destruct (map_get nm nodeId) as [node |] eqn:GN; [| eauto].
  destruct (List.length (childShas node) =? 0)%nat; [eauto|].
  assert (Hu : uncovered nm (set_add (snd st) nodeId) < fuel).
  { pose proof (uncovered_visit (snd st) nodeId
                  (map_get_keys _ nm nodeId node GN) HV). lia. }
  assert (Hm : forall cs st1, uncovered nm (snd st1) < fuel ->
             exists res, mapM (getLayer fuel nm) cs st1 = Some res).
  { induction cs as [| c cs IHc]; intros st1 H1; cbn [mapM]; [eauto|].
    destruct (IH c st1 H1) as [[r stm] E]. rewrite E.
    apply getLayer_visited in E. apply uncovered_mono in E.
    destruct (IHc stm) as [[rs stb] E']; [lia|]. rewrite E'. eauto. }
  destruct (Hm (childShas node) (fst st, set_add (snd st) nodeId) Hu)
    as [[rs st2] E].
  rewrite E. eauto.
Qed.

End Layering.

Section LayerLoop.

Variable nm : JsMap Node.
Variable rank : string -> nat.
Hypothesis acyclic : forall k n c,
  map_get nm k = Some n -> In c (childShas n) -> map_has nm c = true ->
  rank c < rank k.

Lemma layers_loop_spec (fuel : nat) (l : list Node) :
  forall st st',
    forEachM (fun n st0 =>
                option_map snd (RepoGraph.getLayer fuel nm (id n) st0))
             l st = Some st' ->
    LayerInv nm [] st ->
    LayerInv nm [] st' /\ LayerExt st st' /\
    forall n, In n l -> map_has nm (id n) = true ->
              map_has (fst st') (id n) = true.
Proof.
  induction l as [| a l IH]; intros st st' H Inv; simpl in H.
  - injection H as <-. split; [exact Inv|].
    split; [apply LayerExt_refl | intros n []].
  - destruct (RepoGraph.getLayer fuel nm (id a) st) as [[r stm] |] eqn:E;
      [| discriminate].
    simpl in H.
    destruct (getLayer_spec nm rank acyclic fuel [] (id a) st r stm E Inv)
      as (I1 & X1 & _ & H1); [intros _ s []|].
    destruct (IH stm st' H I1) as (I2 & X2 & H2).
    split; [exact I2|]. split; [eapply LayerExt_trans; eauto|].
    intros n [<- | Hn] Hnm; [| now apply H2].
    specialize (H1 Hnm). unfold map_has in *.
    destruct (map_get (fst stm) (id a)) as [la |] eqn:G; [| discriminate].
    now rewrite (@le_kept _ _ X2 (id a) la G).
Qed.

Lemma layers_loop_total (fuel : nat) (l : list Node) :
  List.length (map_keys nm) < fuel ->
  forall st, exists st',
    forEachM (fun n st0 =>
                option_map snd (RepoGraph.getLayer fuel nm (id n) st0))
             l st = Some st'.
Proof.
  intros Hf. induction l as [| a l IH]; intros st; cbn [forEachM]; [eauto|].
  destruct (getLayer_total nm fuel (id a) st) as [[r stm] E].
  - unfold uncovered. pose proof (List.filter_length_le
      (fun k => negb (set_has (snd st) k)) (map_keys nm)). lia.
  - rewrite E. simpl. apply IH.
Qed.

End LayerLoop.

(** X27.  The layering of the layout, on nodes whose [childShas] run into
    no cycle: every node gets a layer; a node without children gets layer
    0 and any other node one more than the highest layer among its
    children, a child that is not shown counting as 0; so every node lies
    strictly above each of its children.  The walk over the children
    always ends. *)
Theorem layers_rise_from_children_to_parents (ns : list Node)
        (rank : string -> nat) :
  (forall n c, In n ns -> In c (childShas n) ->
               map_has (nodeMapOf ns) c = true -> rank c < rank (id n)) ->
  exists layers,
    RepoGraph.layersOf ns = Some layers /\
    (forall n, In n ns -> map_has layers (id n) = true) /\
    (forall k n, map_get (nodeMapOf ns) k = Some n ->
                 map_get layers k = Some (layerFormula layers n)) /\
    (forall k n c, map_get (nodeMapOf ns) k = Some n ->
                   In c (childShas n) ->
                   RepoGraph.layerOf layers c < RepoGraph.layerOf layers k).
Proof.
  intros Hacy.
  assert (acyclic : forall k n c,
            map_get (nodeMapOf ns) k = Some n -> In c (childShas n) ->
            map_has (nodeMapOf ns) c = true -> rank c < rank k).
  { intros k n c Hk Hc Hn. destruct (nodeMapOf_In ns k n Hk) as [Hin <-].
    now apply Hacy. }
  destruct (layers_loop_total (nodeMapOf ns) (S (List.length ns)) ns)
    with (st := (@nil (string * nat), @nil string)) as [st' E].
  { pose proof (nodeMapOf_length ns). lia. }
  destruct (layers_loop_spec (nodeMapOf ns) rank acyclic _ ns _ _ E)
    as (I & _ & Hhas).
  { constructor; simpl; [discriminate | intros k []]. }
  assert (H3 : forall k n, map_get (nodeMapOf ns) k = Some n ->
                 map_get (fst st') k = Some (layerFormula (fst st') n)).
  { intros k n Hk. destruct (nodeMapOf_In ns k n Hk) as [Hin Eid].
    pose proof (Hhas n Hin (nodeMapOf_has ns n Hin)) as Hl.
    rewrite Eid in Hl. unfold map_has in Hl.
    destruct (map_get (fst st') k) as [l |] eqn:G; [| discriminate].
    destruct (@ly_entries _ _ _ I k l G) as (n' & Hn' & El & _).
    rewrite Hk in Hn'. injection Hn' as <-. now rewrite El. }
  exists (fst st'). split; [| split; [| split]].
  - unfold RepoGraph.layersOf. now rewrite E.
  - intros n Hn. apply Hhas; [exact Hn | now apply nodeMapOf_has].
  - exact H3.
  - intros k n c Hk Hc.
    rewrite (layerOf_get (fst st') k _ (H3 k n Hk)).
    unfold layerFormula. destruct (childShas n) as [| c0 cs] eqn:Ec;
      [contradiction|].
    assert (Hle : RepoGraph.layerOf (fst st') c
                  <= list_max (map (RepoGraph.layerOf (fst st')) (c0 :: cs))).
    { pose proof (proj1 (list_max_le _ _)
                    (Nat.le_refl
                       (list_max (map (RepoGraph.layerOf (fst st'))
                                      (c0 :: cs))))) as Hall.
      rewrite Forall_forall in Hall. apply Hall. now apply in_map. }
    lia.
Qed.

Lemma layers_rise_from_children_to_parents_witness :
  let ns := nodes (buildGraphFromCommits
                     (expandedOf Examples.truncated 2 ["main"])
                     (membershipOf Examples.truncated 2 ["main"])) in
  exists layers,
    RepoGraph.layersOf ns = Some layers /\
    (forall n, In n ns -> map_has layers (id n) = true).
Proof.
  cbv zeta.
  destruct (layers_rise_from_children_to_parents
              (nodes (buildGraphFromCommits
                        (expandedOf Examples.truncated 2 ["main"])
                        (membershipOf Examples.truncated 2 ["main"])))
              (fun s => if s =? "t0" then 2 else if s =? "t1" then 1 else 0))
    as (layers & E & Hall & _).
  - intros n c Hn Hc _. vm_compute in Hn.
    destruct Hn as [<- | [<- | [<- | []]]]; simpl in Hc;
      repeat match goal with
             | H : _ \/ _ |- _ => destruct H as [<- | H]
             | H : False |- _ => destruct H
             end; vm_compute; lia.
  - exists layers. split; [exact E | exact Hall].
Defined.

(** ** The handler from the ranked branch list on *)

(** X28.  A reply of the handler, from the ranked branch list on: at most
    five branches are fetched, they are the fetch plan in its order, no
    node carries a branch outside it, and when the list names no branch
    twice and the plan has no branch [__proto__] the counts kept per branch
    add up to [meta.commits]. *)
Theorem reply_covers_the_fetch_plan (prov : Provider) (maxCommits : Z)
        (defaultBranch : option string)
        (branchInfos : list BranchRanker.BranchInfo) (pl : Payload) :
  answer prov maxCommits defaultBranch branchInfos = Ok pl ->
  fetchedBranches (meta pl) <= 5 /\
  selectedBranches (meta pl)
    = BranchRanker.branchTips defaultBranch branchInfos /\
  fetchedBranches (meta pl) = List.length (selectedBranches (meta pl)) /\
  (forall n b, In n (nodes (graph pl)) -> In b (branches n) ->
               In b (selectedBranches (meta pl))) /\
  (NoDup (map BranchRanker.name branchInfos) ->
   ~ In "__proto__" (selectedBranches (meta pl)) ->
   list_sum (map_values (metaPerBranchCounts (meta pl))) = commits (meta pl)).
Proof.
  unfold answer. intros H.
  set (tips := BranchRanker.branchTips defaultBranch branchInfos) in *.
  destruct (buildGraph_inv prov maxCommits tips pl H) as (st & Hst & Hpl & _).
  assert (Hsel : selectedBranches (meta pl) = tips) by now rewrite Hpl.
  assert (Hf : fetchedBranches (meta pl) = List.length tips) by now rewrite Hpl.
  rewrite Hsel, Hf.
  split.
  { unfold tips, BranchRanker.branchTips, BranchRanker.MAX_BRANCHES.
    rewrite length_map, length_firstn. lia. }
  split; [reflexivity|]. split; [reflexivity|]. split.
  - intros n b Hn Hb.
    pose proof (collectCommits_membership prov maxCommits tips st Hst)
      as [Hfrom _ _ _].
    rewrite Hpl in Hn. simpl in Hn.
    destruct (node_branches_known _ _ n b Hn Hb) as [s Hs]. eauto.
  - intros Hnd Hp.
    assert (Ht : NoDup tips).
    { unfold tips, BranchRanker.branchTips. rewrite <- firstn_map.
      apply firstn_NoDup. now apply promoteDefault_distinct. }
    destruct (nodes_accounting_aux prov maxCommits tips pl H)
      as (st' & Hst' & Hc & _).
    rewrite Hst in Hst'. injection Hst' as <-. rewrite Hc, Hpl. simpl.
    exact (collectCommits_countsAddUp prov maxCommits tips st Ht Hp Hst).
Qed.

Lemma reply_covers_the_fetch_plan_witness :
  exists pl,
    answer Examples.sharedRoot 6 (Some "main")
           [BranchRanker.mkBranchInfo "dev" None;
            BranchRanker.mkBranchInfo "main" None] = Ok pl /\
    selectedBranches (meta pl) = ["main"; "dev"] /\
    fetchedBranches (meta pl) <= 5.
Proof.
  eexists. split; [vm_compute; reflexivity|].
  pose proof (reply_covers_the_fetch_plan Examples.sharedRoot 6 (Some "main")
                [BranchRanker.mkBranchInfo "dev" None;
                 BranchRanker.mkBranchInfo "main" None] _ eq_refl)
    as (H5 & Hsel & _).
  split; [exact Hsel | exact H5].
Defined.
